(** * Department hierarchy: a shallow embedding of [app.py]

    The program keeps two process-wide structures:
    - [DepartmentHierarchy]: a tree of [DepartmentNode] objects addressed by
      name through the dictionary [nodes], with an optional [root];
    - [DepartmentHeap]: a list of [(priority, name)] pairs maintained with
      [heapq].

    Python objects are mutable and shared: the same [DepartmentNode] object is
    referenced from the dictionary, from its parent's [children] list and
    possibly from [root].  The embedding therefore keeps an explicit object
    memory ([mem], a list of node records indexed by allocation order) and
    represents every reference by its address. *)

From Stdlib Require Import ZArith Ascii String List Sorted Permutation Lia Bool.
From Stdlib Require Import SpecFloat.
From stdpp Require Import base option list strings relations.
From Equations Require Import Equations.
Import ListNotations.

#[local] Set Warnings "-register-all,-clear-no-such-hyp".

Local Open Scope string_scope.
Local Open Scope list_scope.

(** ** Python values carried by node attributes *)

(** Attribute values are whatever the caller hands in (JSON payloads): the
    program stores them without inspection, except for the coercions of
    [edit].  Floats are IEEE binary64 numbers, kept as [spec_float]. *)
Inductive value : Type :=
| VNone
| VBool (b : bool)
| VInt (z : Z)
| VFloat (f : spec_float)
| VStr (s : string)
| VOther (tag : nat).

(** Exceptions that the builtins [int] and [float] raise. *)
Inductive PyExn : Type :=
| ValueError
| TypeError
| OverflowError.

(** ** Heap wrapper ([DepartmentHeap]) *)

Module DepartmentHeap.

(** An entry is the tuple [(priority, name)]. *)
Abbreviation item := (Z * string)%type.

(** Python compares tuples lexicographically, strings by code point. *)
Definition item_ltb (x y : item) : bool :=
  (fst x <? fst y)%Z || ((fst x =? fst y)%Z && String.ltb (snd x) (snd y)).

(** *** [heapq] (CPython [Lib/heapq.py]) *)

(** The [while pos > startpos] loop of [_siftdown]: returns the list and
    the position at which [newitem] is finally written. *)
Equations? siftdown_loop (newitem : item) (startpos : nat)
    (heap : list item) (pos : nat) : list item * nat by wf pos lt :=
  siftdown_loop newitem startpos heap pos with decide (startpos < pos) => {
    | right _ => (heap, pos)
    | left _ with heap !! ((pos - 1) / 2) => {
        | None => (heap, pos)
        | Some parent with item_ltb newitem parent => {
            | true => siftdown_loop newitem startpos
                        (<[pos := parent]> heap) ((pos - 1) / 2)
            | false => (heap, pos) } } }.
Proof.
  change ((pos - 1) / 2 < pos).
  apply Nat.Div0.div_lt_upper_bound; lia.
Qed.

Definition _siftdown (heap : list item) (startpos pos : nat) : list item :=
  match heap !! pos with
  | None => heap
  | Some newitem =>
      let '(heap', pos') := siftdown_loop newitem startpos heap pos in
      <[pos' := newitem]> heap'
  end.

Definition heappush (heap : list item) (x : item) : list item :=
  let heap := heap ++ [x] in
  _siftdown heap 0 (length heap - 1).

(** The child that [_siftup] moves up: the left one, or the right one when
    it exists and the left one is not smaller. *)
Definition smaller_child (endpos : nat) (heap : list item) (pos : nat) : nat :=
  let childpos := 2 * pos + 1 in
  let rightpos := childpos + 1 in
  if bool_decide (rightpos < endpos) then
    match heap !! childpos, heap !! rightpos with
    | Some c, Some r => if negb (item_ltb c r) then rightpos else childpos
    | _, _ => childpos
    end
  else childpos.

Lemma smaller_child_gt endpos heap pos : pos < smaller_child endpos heap pos.
Proof.
  unfold smaller_child.
  repeat case_match; lia.
Qed.

Lemma smaller_child_lt endpos heap pos :
  2 * pos + 1 < endpos → smaller_child endpos heap pos < endpos.
Proof.
  unfold smaller_child. intros.
  case_bool_decide; repeat case_match; lia.
Qed.

(** The [while childpos < endpos] loop of [_siftup]. *)
Equations? siftup_loop (endpos : nat) (heap : list item) (pos : nat) :
    list item * nat by wf (endpos - pos) lt :=
  siftup_loop endpos heap pos with decide (2 * pos + 1 < endpos) => {
    | right _ => (heap, pos)
    | left _ with heap !! smaller_child endpos heap pos => {
        | None => (heap, pos)
        | Some c => siftup_loop endpos (<[pos := c]> heap)
                      (smaller_child endpos heap pos) } }.
Proof.
  pose proof (smaller_child_gt endpos heap pos).
  pose proof (smaller_child_lt endpos heap pos). lia.
Qed.

Definition _siftup (heap : list item) (pos : nat) : list item :=
  match heap !! pos with
  | None => heap
  | Some newitem =>
      let '(heap', pos') := siftup_loop (length heap) heap pos in
      _siftdown (<[pos' := newitem]> heap') pos pos'
  end.

(** [for i in reversed(range(n//2)): _siftup(x, i)] *)
Definition heapify (x : list item) : list item :=
  fold_left _siftup (rev (seq 0 (length x / 2))) x.

(** [sorted] returns the ascending rearrangement of its argument; it is
    stable and compares with [<] only. *)
Fixpoint insert_sorted (x : item) (l : list item) : list item :=
  match l with
  | [] => [x]
  | y :: l' => if item_ltb y x then y :: insert_sorted x l' else x :: l
  end.

Definition sorted (l : list item) : list item :=
  fold_right insert_sorted [] l.

(** *** The class itself: the state is the list [self.heap]. *)

Abbreviation t := (list item).

Definition init : t := [].

Definition add (priority : Z) (name : string) (self : t) : t :=
  heappush self (priority, name).

Definition remove (name : string) (self : t) : t :=
  heapify (filter (λ pn, pn.2 ≠ name) self).

Definition edit_priority (name : string) (new_priority : Z) (self : t) : t :=
  add new_priority name (remove name self).

Definition get_all (self : t) : list item := sorted self.

(** Ascending order on entries: by priority, ties broken by name. *)
Definition item_le (x y : item) : Prop :=
  (x.1 < y.1)%Z ∨ (x.1 = y.1 ∧ String.leb x.2 y.2 = true).

(** *** Sequences of operations *)

Inductive op : Type :=
| Add (priority : Z) (name : string)
| Remove (name : string)
| EditPriority (name : string) (new_priority : Z).

Definition step (self : t) (o : op) : t :=
  match o with
  | Add priority name => add priority name self
  | Remove name => remove name self
  | EditPriority name new_priority => edit_priority name new_priority self
  end.

Definition run (ops : list op) : t := fold_left step ops init.

(** The pairs the index holds, as the specification words the three
    operations: [add] inserts the pair, [remove] drops every pair with that
    name, [setPriority] is [remove] followed by [add]. *)
Definition spec_step (pairs : list item) (o : op) : list item :=
  match o with
  | Add priority name => (priority, name) :: pairs
  | Remove name => filter (λ pn, pn.2 ≠ name) pairs
  | EditPriority name new_priority =>
      (new_priority, name) :: filter (λ pn, pn.2 ≠ name) pairs
  end.

Definition spec_pairs (ops : list op) : list item := fold_left spec_step ops [].

End DepartmentHeap.

(** ** Object memory and node objects ([DepartmentNode]) *)

(** A reference to a [DepartmentNode] object: its index in the memory. *)
Abbreviation addr := nat.

Module DepartmentNode.

Record t : Type := mk {
  name : string;
  head : value;
  employees : value;
  budget : value;
  perf : value;
  children : list addr
}.

(** [DepartmentNode(name, head, employees, budget, perf)]: no children. *)
Definition init (name : string) (head employees budget perf : value) : t :=
  mk name head employees budget perf [].

Definition with_name (x : string) (n : t) : t :=
  mk x (head n) (employees n) (budget n) (perf n) (children n).
Definition with_head (x : value) (n : t) : t :=
  mk (name n) x (employees n) (budget n) (perf n) (children n).
Definition with_employees (x : value) (n : t) : t :=
  mk (name n) (head n) x (budget n) (perf n) (children n).
Definition with_budget (x : value) (n : t) : t :=
  mk (name n) (head n) (employees n) x (perf n) (children n).
Definition with_perf (x : value) (n : t) : t :=
  mk (name n) (head n) (employees n) (budget n) x (children n).
Definition with_children (x : list addr) (n : t) : t :=
  mk (name n) (head n) (employees n) (budget n) (perf n) x.

End DepartmentNode.

(** The memory holds every node object ever created, in allocation order;
    objects that are no longer referenced simply stay behind. *)
Abbreviation memory := (list DepartmentNode.t).

(** [c.name] and [n.children] for a reference.  Every reference the program
    holds is allocated, so the defaults are never read. *)
Definition name_of (m : memory) (a : addr) : string :=
  from_option DepartmentNode.name "" (m !! a).
Definition children_of (m : memory) (a : addr) : list addr :=
  from_option DepartmentNode.children [] (m !! a).

(** ** Python dictionaries from names to node references

    A [dict] keeps its keys in insertion order; assigning to an existing key
    keeps the key's position. *)
Module Dict.

Abbreviation t := (list (string * addr)).

Fixpoint get (k : string) (d : t) : option addr :=
  match d with
  | [] => None
  | (k', v) :: d' => if decide (k' = k) then Some v else get k d'
  end.

(** [k in d] *)
Definition mem (k : string) (d : t) : bool := bool_decide (is_Some (get k d)).

(** [d[k] = v] *)
Fixpoint set (k : string) (v : addr) (d : t) : t :=
  match d with
  | [] => [(k, v)]
  | (k', v') :: d' =>
      if decide (k' = k) then (k, v) :: d' else (k', v') :: set k v d'
  end.

(** [del d[k]] *)
Definition del (k : string) (d : t) : t := filter (λ kv, kv.1 ≠ k) d.

Definition keys (d : t) : list string := d.*1.
Definition values (d : t) : list addr := d.*2.

End Dict.

(** The nested structure [to_dict] returns: [{}] or a dictionary with the
    node's attributes and the list of its children's structures. *)
Inductive dict_view : Type :=
| VEmpty
| VNode (name : string) (head employees budget perf : value)
    (children : list dict_view).

(** What a call produces: a returned value or a raised exception. *)
Inductive outcome (A : Type) : Type :=
| Return (r : A)
| Raise (e : PyExn).
Arguments Return {A} r.
Arguments Raise {A} e.

(** ** The tree ([DepartmentHierarchy]) *)

Module DepartmentHierarchy.

Record t : Type := mk {
  root : option addr;
  nodes : Dict.t;
  mem : memory
}.

(** [DepartmentHierarchy()] in a fresh memory. *)
Definition init : t := mk None [] [].

(** [node.attr = ...] *)
Definition setattr (node : addr) (f : DepartmentNode.t → DepartmentNode.t)
    (self : t) : t :=
  mk (root self) (nodes self) (alter f node (mem self)).

(** [node.children.append(child)] *)
Definition append_child (node child : addr) (self : t) : t :=
  setattr node
    (λ n, DepartmentNode.with_children (DepartmentNode.children n ++ [child]) n)
    self.

(** [if not self.root: self.root = node] *)
Definition root_if_unset (node : addr) (self : t) : t :=
  match root self with
  | None => mk (Some node) (nodes self) (mem self)
  | Some _ => self
  end.

Definition add (name : string) (parent : option string)
    (head employees budget perf : value) (self : t) : bool * t :=
  if Dict.mem name (nodes self) then (false, self)
  else
    let new_node := length (mem self) in
    let self :=
      mk (root self) (Dict.set name new_node (nodes self))
         (mem self ++ [DepartmentNode.init name head employees budget perf]) in
    match parent with
    | None => (true, root_if_unset new_node self)
    | Some parent =>
        if decide (parent = "") then (true, root_if_unset new_node self)
        else
          match Dict.get parent (nodes self) with
          | Some parent_node => (true, append_child parent_node new_node self)
          | None => (true, root_if_unset new_node self)
          end
    end.

(** [node.children = [c for c in node.children if c.name != name]] *)
Definition strip (m : memory) (name : string) (n : DepartmentNode.t) :
    DepartmentNode.t :=
  DepartmentNode.with_children
    (filter (λ c, name_of m c ≠ name) (DepartmentNode.children n)) n.

(** One pass over [self.nodes.values()]. *)
Definition find_parent_and_remove (name : string) (self : t) : t :=
  foldl (λ self node, setattr node (strip (mem self) name) self)
    self (Dict.values (nodes self)).

(** The [while i < len(to_delete)] loop of [delete].  [None]: the loop did not
    finish within [fuel] iterations. *)
Fixpoint delete_loop (fuel : nat) (self : t) (to_delete : list string)
    (i : nat) : option (list string) :=
  match to_delete !! i with
  | None => Some to_delete
  | Some cur =>
      match fuel with
      | 0 => None
      | S fuel =>
          let to_delete :=
            match Dict.get cur (nodes self) with
            | Some node =>
                to_delete ++ (name_of (mem self) <$> children_of (mem self) node)
            | None => to_delete
            end in
          delete_loop fuel self to_delete (S i)
      end
  end.

(** [for n in to_delete: if n in self.nodes: del self.nodes[n]] *)
Definition delete_names (to_delete : list string) (d : Dict.t) : Dict.t :=
  foldl (λ d n, if Dict.mem n d then Dict.del n d else d) d to_delete.

Definition delete (fuel : nat) (name : string) (self : t) : option (bool * t) :=
  if negb (Dict.mem name (nodes self)) then Some (false, self)
  else
    let self :=
      match root self with
      | Some r =>
          if decide (name_of (mem self) r = name)
          then mk None (nodes self) (mem self) else self
      | None => self
      end in
    let self := find_parent_and_remove name self in
    match delete_loop fuel self [name] 0 with
    | None => None
    | Some to_delete =>
        Some (true, mk (root self) (delete_names to_delete (nodes self)) (mem self))
    end.

(** *** [edit] *)

Section Builtins.

(** The builtins [int] and [float]: the coerced number, or the exception. *)
Variable int_ : value → PyExn + Z.
Variable float_ : value → PyExn + spec_float.

(** [int(v)] and [float(v)] as attribute values. *)
Definition to_int (v : value) : PyExn + value :=
  match int_ v with inl e => inl e | inr z => inr (VInt z) end.
Definition to_float (v : value) : PyExn + value :=
  match float_ v with inl e => inl e | inr f => inr (VFloat f) end.

(** [if v is not None: node.attr = coerce(v)] *)
Definition assign (coerce : value → PyExn + value)
    (store : value → DepartmentNode.t → DepartmentNode.t)
    (node : addr) (v : value) (self : t) : outcome unit * t :=
  match v with
  | VNone => (Return (), self)
  | _ =>
      match coerce v with
      | inl e => (Raise e, self)
      | inr x => (Return (), setattr node (store x) self)
      end
  end.

(** Run [k] after [c] unless [c] raised. *)
Definition and_then (c : outcome unit * t) (k : t → outcome unit * t) :
    outcome unit * t :=
  match c with
  | (Return _, self) => k self
  | (Raise e, self) => (Raise e, self)
  end.

(** The block under [# update meta]. *)
Definition edit_meta (node : addr) (head employees budget perf : value)
    (self : t) : outcome unit * t :=
  and_then (assign inr DepartmentNode.with_head node head self) (λ self,
  and_then (assign to_int DepartmentNode.with_employees node employees self)
    (λ self,
  and_then (assign to_float DepartmentNode.with_budget node budget self)
    (λ self,
  assign to_float DepartmentNode.with_perf node perf self))).

(** The two nested loops that rewrite [c.name] in the children lists. *)
Definition fix_child_names (name new_name : string) (self : t) : t :=
  foldl
    (λ self n,
       foldl
         (λ self c,
            if decide (name_of (mem self) c = name)
            then setattr c (DepartmentNode.with_name new_name) self
            else self)
         self (children_of (mem self) n))
    self (Dict.values (nodes self)).

(** The block under [# rename (careful)].  [None]: the [return False] of a
    name conflict. *)
Definition edit_rename (name : string) (new_name : option string)
    (node : addr) (self : t) : option t :=
  match new_name with
  | None => Some self
  | Some new_name =>
      if decide (new_name ≠ "" ∧ new_name ≠ name) then
        if Dict.mem new_name (nodes self) then None
        else
          let self := setattr node (DepartmentNode.with_name new_name) self in
          let self :=
            mk (root self) (Dict.del name (Dict.set new_name node (nodes self)))
               (mem self) in
          Some (fix_child_names name new_name self)
      else Some self
  end.

(** The block under [# parent reassign]. *)
Definition edit_reparent (node : addr) (parent : option string) (self : t) : t :=
  match parent with
  | None => self
  | Some parent =>
      let self := find_parent_and_remove (name_of (mem self) node) self in
      if decide (parent = "") then root_if_unset node self
      else
        match Dict.get parent (nodes self) with
        | None => root_if_unset node self
        | Some parent_node => append_child parent_node node self
        end
  end.

Definition edit (name : string) (new_name : option string)
    (head employees budget perf : value) (parent : option string)
    (self : t) : outcome bool * t :=
  match Dict.get name (nodes self) with
  | None => (Return false, self)
  | Some node =>
      match edit_meta node head employees budget perf self with
      | (Raise e, self) => (Raise e, self)
      | (Return _, self) =>
          match edit_rename name new_name node self with
          | None => (Return false, self)
          | Some self => (Return true, edit_reparent node parent self)
          end
      end
  end.

End Builtins.

(** *** [to_dict] *)

(** [to_dict(node)] for a node object.  [None]: the recursion is not over
    after [fuel] nested calls. *)
Fixpoint to_dict_node (fuel : nat) (m : memory) (node : addr) :
    option dict_view :=
  match fuel with
  | 0 => None
  | S fuel =>
      n ← m !! node;
      cs ← mapM (to_dict_node fuel m) (DepartmentNode.children n);
      Some (VNode (DepartmentNode.name n) (DepartmentNode.head n)
              (DepartmentNode.employees n) (DepartmentNode.budget n)
              (DepartmentNode.perf n) cs)
  end.

(** [to_dict()] *)
Definition to_dict (fuel : nat) (self : t) : option dict_view :=
  match root self with
  | None => Some VEmpty
  | Some r => to_dict_node fuel (mem self) r
  end.

(** *** [load_data]: rebuilding the tree from the nested structure *)

Fixpoint build (node : dict_view) (parent : option string) (self : t) : t :=
  match node with
  | VEmpty => self
  | VNode name head employees budget perf children =>
      let self := (add name parent head employees budget perf self).2 in
      foldl (λ self c, build c (Some name) self) self children
  end.

Definition load_data (hierarchy : dict_view) : t := build hierarchy None init.

(** *** Sequences of [add] and [delete] calls *)

Inductive op : Type :=
| Add (name : string) (parent : option string)
    (head employees budget perf : value)
| Delete (name : string).

Definition step (fuel : nat) (self : t) (o : op) : option t :=
  match o with
  | Add name parent head employees budget perf =>
      Some (add name parent head employees budget perf self).2
  | Delete name => snd <$> delete fuel name self
  end.

Fixpoint run (fuel : nat) (ops : list op) (self : t) : option t :=
  match ops with
  | [] => Some self
  | o :: ops => self ← step fuel self o; run fuel ops self
  end.

(** *** [get_flat_meta] *)

(** One entry of the list that [get_flat_meta] returns: the dictionary with
    the keys [name], [head], [employees], [budget] and [perf]. *)
Record meta : Type := mk_meta {
  meta_name : string;
  meta_head : value;
  meta_employees : value;
  meta_budget : value;
  meta_perf : value
}.

Definition meta_of (n : DepartmentNode.t) : meta :=
  mk_meta (DepartmentNode.name n) (DepartmentNode.head n)
    (DepartmentNode.employees n) (DepartmentNode.budget n)
    (DepartmentNode.perf n).

(** [for name, node in self.nodes.items(): out.append({...})]: the entries
    are read from the node objects, in the order of the dictionary.
    [None]: a reference of the dictionary is not allocated. *)
Definition get_flat_meta (self : t) : option (list meta) :=
  mapM (λ kv, meta_of <$> mem self !! kv.2) (nodes self).

End DepartmentHierarchy.

(** ** An instance of the builtins [int] and [float]

    [edit] is stated over arbitrary coercions.  The examples run it on this
    instance, which follows Python on [None], booleans, integers, floats and
    objects that are neither numbers nor text.  Text is read as an optional
    sign followed by ASCII digits; Python also accepts surrounding blanks,
    underscores, non-ASCII digits and, for [float], fractions, exponents and
    the words [inf] and [nan], none of which an example uses. *)

Module Builtins.

Definition digit (c : Ascii.ascii) : option Z :=
  let n := Z.of_N (Ascii.N_of_ascii c) in
  if ((48 <=? n) && (n <=? 57))%Z then Some (n - 48)%Z else None.

Fixpoint digits (acc : Z) (s : string) : option Z :=
  match s with
  | EmptyString => Some acc
  | String c s =>
      match digit c with
      | Some d => digits (10 * acc + d)%Z s
      | None => None
      end
  end.

Definition literal (s : string) : option Z :=
  match s with
  | EmptyString => None
  | String "-"%char (String c s) => Z.opp <$> digits 0 (String c s)
  | String "+"%char (String c s) => digits 0 (String c s)
  | _ => digits 0 s
  end.

(** [int(x)] for a float: truncation towards zero. *)
Definition trunc (s : bool) (m : positive) (e : Z) : Z :=
  let q := if (0 <=? e)%Z then (Z.pos m * 2 ^ e)%Z
           else (Z.pos m / 2 ^ (- e))%Z in
  if s then (- q)%Z else q.

Definition int_ (v : value) : PyExn + Z :=
  match v with
  | VNone => inl TypeError
  | VBool b => inr (Z.b2z b)
  | VInt z => inr z
  | VFloat (S754_zero _) => inr 0%Z
  | VFloat (S754_finite s m e) => inr (trunc s m e)
  | VFloat (S754_infinity _) => inl OverflowError
  | VFloat S754_nan => inl ValueError
  | VStr s =>
      match literal s with Some z => inr z | None => inl ValueError end
  | VOther _ => inl TypeError
  end.

(** [float(z)] for an integer: the nearest binary64 number. *)
Definition of_Z (z : Z) : PyExn + spec_float :=
  match binary_normalize 53 1024 z 0 false with
  | S754_infinity _ => inl OverflowError
  | f => inr f
  end.

(** [float(s)] for text: a literal is rounded to the nearest binary64
    number, to an infinity when it is out of range, and ["-0"] keeps its
    sign. *)
Definition negative (s : string) : bool :=
  match s with
  | String "-"%char _ => true
  | _ => false
  end.

Definition of_text (s : string) : PyExn + spec_float :=
  match literal s with
  | Some 0%Z => inr (S754_zero (negative s))
  | Some z => inr (binary_normalize 53 1024 z 0 false)
  | None => inl ValueError
  end.

Definition float_ (v : value) : PyExn + spec_float :=
  match v with
  | VNone => inl TypeError
  | VBool b => of_Z (Z.b2z b)
  | VInt z => of_Z z
  | VFloat f => inr f
  | VStr s => of_text s
  | VOther _ => inl TypeError
  end.

End Builtins.

(** ** The application: persistence and routes

    The module-level objects [hierarchy] and [priority_heap] and the file
    [data.json] make up the state.  A request body is the JSON object that
    [request.json] returns; the routes read it with [d.get] only. *)

Module App.

(** What [save_data] writes: the object with the keys [hierarchy] and
    [heap].  The file is kept as this object rather than as its JSON text. *)
Record data : Type := mk_data {
  data_hierarchy : dict_view;
  data_heap : list DepartmentHeap.item
}.

Record t : Type := mk {
  hierarchy : DepartmentHierarchy.t;
  priority_heap : DepartmentHeap.t;
  data_file : option data
}.

(** The JSON object of a request.  [None] is a key that is absent.  The
    keys [name], [new_name] and [parent] hold text when they are present
    ([null] reads as absent, as [d.get] returns [None] for both); the other
    keys hold any value, [VNone] for [null]. *)
Record request : Type := mk_request {
  req_name : option string;
  req_new_name : option string;
  req_parent : option string;
  req_head : option value;
  req_employees : option value;
  req_budget : option value;
  req_perf : option value;
  req_priority : option value
}.

(** [jsonify({key: text}), status] *)
Inductive response : Type :=
| Json (status : nat) (key text : string).

(** [x or None] for text: [None] and the empty string are false. *)
Definition nonempty (s : option string) : option string :=
  match s with
  | Some s => if decide (s = "") then None else Some s
  | None => None
  end.

(** [save_data()].  [None]: the recursion of [to_dict] is not over within
    [fuel] nested calls; the file is opened only after [data] is built. *)
Definition save_data (fuel : nat) (app : t) : option t :=
  h ← DepartmentHierarchy.to_dict fuel (hierarchy app);
  Some (mk (hierarchy app) (priority_heap app)
          (Some (mk_data h (DepartmentHeap.get_all (priority_heap app))))).

(** [load_data()] when [data.json] exists, on the structures as the module
    creates them: [build] over the nested structure, then one [add] on the
    heap for each pair. *)
Definition load_data (d : data) : t :=
  mk (DepartmentHierarchy.load_data (data_hierarchy d))
     (foldl (λ heap pn, DepartmentHeap.add pn.1 pn.2 heap)
        DepartmentHeap.init (data_heap d))
     (Some d).

(** [GET /stats]: the lists under the keys [names], [employees], [budgets]
    and [perf], read off [get_flat_meta].  [None] as for
    [get_flat_meta]. *)
Definition stats (app : t) :
    option (list string * list value * list value * list value) :=
  match DepartmentHierarchy.get_flat_meta (hierarchy app) with
  | None => None
  | Some meta =>
      Some (DepartmentHierarchy.meta_name <$> meta,
            DepartmentHierarchy.meta_employees <$> meta,
            DepartmentHierarchy.meta_budget <$> meta,
            DepartmentHierarchy.meta_perf <$> meta)
  end.

Section Routes.

Variable int_ : value → PyExn + Z.
Variable float_ : value → PyExn + spec_float.

(** Evaluate a coercion; an exception leaves the route at once. *)
Definition try {A B : Type} (app : t) (c : PyExn + A)
    (k : A → option (outcome B * t)) : option (outcome B * t) :=
  match c with
  | inl e => Some (Raise e, app)
  | inr x => k x
  end.

(** [POST /add] *)
Definition add_dept (fuel : nat) (d : request) (app : t) :
    option (outcome response * t) :=
  let name := req_name d in
  let parent := nonempty (req_parent d) in
  let head := default (VStr "") (req_head d) in
  try app (int_ (default (VInt 0) (req_employees d))) (λ employees,
  try app (float_ (default (VInt 0) (req_budget d))) (λ budget,
  try app (float_ (default (VInt 0) (req_perf d))) (λ perf,
  try app (int_ (default (VInt 999) (req_priority d))) (λ priority,
    match nonempty name with
    | None => Some (Return (Json 400 "error" "Missing name"), app)
    | Some name =>
        let '(ok, h) :=
          DepartmentHierarchy.add name parent head (VInt employees)
            (VFloat budget) (VFloat perf) (hierarchy app) in
        if ok then
          let app :=
            mk h (DepartmentHeap.add priority name (priority_heap app))
               (data_file app) in
          app ← save_data fuel app;
          Some (Return (Json 200 "message" "Added"), app)
        else
          Some (Return (Json 400 "error" "Department exists"),
                mk h (priority_heap app) (data_file app))
    end)))).

(** [POST /edit] *)
Definition edit_dept (fuel : nat) (d : request) (app : t) :
    option (outcome response * t) :=
  match nonempty (req_name d) with
  | None => Some (Return (Json 400 "error" "Missing name"), app)
  | Some name =>
      let new_name := req_new_name d in
      let head := default VNone (req_head d) in
      let employees := default VNone (req_employees d) in
      let budget := default VNone (req_budget d) in
      let perf := default VNone (req_perf d) in
      let parent := req_parent d in
      let priority := default VNone (req_priority d) in
      match DepartmentHierarchy.edit int_ float_ name new_name head employees
              budget perf parent (hierarchy app) with
      | (Raise e, h) => Some (Raise e, mk h (priority_heap app) (data_file app))
      | (Return false, h) =>
          Some (Return (Json 400 "error" "Edit failed (name conflict?)"),
                mk h (priority_heap app) (data_file app))
      | (Return true, h) =>
          let app := mk h (priority_heap app) (data_file app) in
          let finish app :=
            app ← save_data fuel app;
            Some (Return (Json 200 "message" "Edited"), app) in
          match priority with
          | VNone => finish app
          | _ =>
              try app (int_ priority) (λ p,
                finish
                  (mk h
                     (DepartmentHeap.edit_priority
                        (default name (nonempty new_name)) p
                        (priority_heap app))
                     (data_file app)))
          end
      end
  end.

(** [POST /delete].  [None] also when the loop of [delete] is not over
    within [fuel] iterations. *)
Definition delete_dept (fuel : nat) (d : request) (app : t) :
    option (outcome response * t) :=
  match nonempty (req_name d) with
  | None => Some (Return (Json 400 "error" "Missing name"), app)
  | Some name =>
      match DepartmentHierarchy.delete fuel name (hierarchy app) with
      | None => None
      | Some (true, h) =>
          let app :=
            mk h (DepartmentHeap.remove name (priority_heap app))
               (data_file app) in
          app ← save_data fuel app;
          Some (Return (Json 200 "message" "Deleted"), app)
      | Some (false, h) =>
          Some (Return (Json 400 "error" "Delete failed"),
                mk h (priority_heap app) (data_file app))
      end
  end.

End Routes.

End App.

(** ** Well-formed trees *)

Module Tree.
Import DepartmentHierarchy.

(** [p]'s children list refers to [c]. *)
Definition child (m : memory) (p c : addr) : Prop := c ∈ children_of m p.

(** [a] is [x] or a descendant of [x]. *)
Definition in_subtree (m : memory) (x a : addr) : Prop := rtc (child m) x a.

(** The children references held by the nodes of the dictionary, in
    dictionary order. *)
Definition child_refs (self : t) : list addr :=
  Dict.values (nodes self) ≫= children_of (mem self).

(** The properties every reachable state has ([reachable_wf] below):
    - no key occurs twice in the dictionary;
    - a key refers to an allocated node that carries the key as its name;
    - the children of a node of the dictionary are in the dictionary;
    - a node is referenced by at most one entry of one children list;
    - a node whose name is empty has no children. *)
Definition wf (self : t) : Prop :=
  NoDup (Dict.keys (nodes self))
  ∧ Forall (λ kv, DepartmentNode.name <$> mem self !! kv.2 = Some kv.1)
      (nodes self)
  ∧ Forall (λ c, c ∈ Dict.values (nodes self)) (child_refs self)
  ∧ NoDup (child_refs self)
  ∧ Forall (λ kv, kv.1 = "" → children_of (mem self) kv.2 = []) (nodes self).

#[export] Instance wf_dec self : Decision (wf self).
Proof. unfold wf. apply _. Defined.

(** The states the program can be in: those obtained from the empty tree by
    calls of [add], [delete] and [edit], whatever their arguments and
    whether or not they report a failure. *)
Inductive reachable (int_ : value → PyExn + Z)
    (float_ : value → PyExn + spec_float) : t → Prop :=
| reach_init : reachable int_ float_ init
| reach_add self name parent head employees budget perf :
    reachable int_ float_ self →
    reachable int_ float_ (add name parent head employees budget perf self).2
| reach_delete self fuel name result self' :
    reachable int_ float_ self →
    delete fuel name self = Some (result, self') →
    reachable int_ float_ self'
| reach_edit self name new_name head employees budget perf parent :
    reachable int_ float_ self →
    reachable int_ float_
      (edit int_ float_ name new_name head employees budget perf parent self).2.

(** The root, when set, is a node of the dictionary. *)
Definition root_mapped (self : t) : Prop :=
  match root self with
  | Some r => r ∈ Dict.values (nodes self)
  | None => True
  end.

#[export] Instance root_mapped_dec self : Decision (root_mapped self).
Proof. unfold root_mapped. destruct (root self); apply _. Defined.

(** A set [D] of nodes whose children lists form trees with distinct names:
    [D] holds the children of its nodes, no two of its nodes carry the same
    name or list the same child, no children list repeats an entry, and a
    node whose name is empty has no children. *)
Record region (m : memory) (D : addr → Prop) : Prop := {
  region_closed a c : D a → child m a c → D c;
  region_names a b : D a → D b → name_of m a = name_of m b → a = b;
  region_parent p q c : D p → D q → child m p c → child m q c → p = q;
  region_children a : D a → NoDup (children_of m a);
  region_empty a : D a → name_of m a = "" → children_of m a = []
}.

(** Nodes that the dictionary no longer refers to. *)
Definition dropped (self : t) (D : addr → Prop) : Prop :=
  ∀ a, D a → a < length (mem self) ∧ a ∉ Dict.values (nodes self).

(** The root object is a node of the dictionary, or an object that [delete]
    dropped from the dictionary together with its descendants while
    [self.root] went on referring to it. *)
Definition rooted (self : t) : Prop :=
  ∀ r, root self = Some r →
    r ∈ Dict.values (nodes self)
    ∨ ∃ D, region (mem self) D ∧ dropped self D ∧ D r.

(** *** Nested structures *)

(** The names a nested structure shows, parents before children. *)
Fixpoint view_names (v : dict_view) : list string :=
  match v with
  | VEmpty => []
  | VNode name _ _ _ _ children => name :: (children ≫= view_names)
  end.

(** The same structure with the name [old] shown as [new]. *)
Fixpoint rename_view (old new : string) (v : dict_view) : dict_view :=
  match v with
  | VEmpty => VEmpty
  | VNode name head employees budget perf children =>
      VNode (if decide (name = old) then new else name)
        head employees budget perf (rename_view old new <$> children)
  end.

(** The nesting depth of a structure. *)
Fixpoint view_depth (v : dict_view) : nat :=
  match v with
  | VEmpty => 0
  | VNode _ _ _ _ _ children => S (foldr (λ c d, view_depth c `max` d) 0 children)
  end.

(** [shows_from lo m a v]: the node at [a] and its descendants, all at
    addresses from [lo] on, display as [v]. *)
Inductive shows_from (lo : addr) (m : memory) : addr → dict_view → Prop :=
| shows_node a n cs :
    (lo ≤ a)%nat → m !! a = Some n →
    Forall2 (shows_from lo m) (DepartmentNode.children n) cs →
    shows_from lo m a
      (VNode (DepartmentNode.name n) (DepartmentNode.head n)
         (DepartmentNode.employees n) (DepartmentNode.budget n)
         (DepartmentNode.perf n) cs).

(** A structure that [load_data] rebuilds as it is: it has no empty part,
    and a node whose name is the empty string has no children. *)
Inductive proper_view : dict_view → Prop :=
| proper_node name head employees budget perf cs :
    (cs ≠ [] → name ≠ "") → Forall proper_view cs →
    proper_view (VNode name head employees budget perf cs).

(** *** Forests *)

(** A node [p] of the dictionary lists [c] among its children. *)
Definition link (self : t) (p c : addr) : Prop :=
  p ∈ Dict.values (nodes self) ∧ child (mem self) p c.

(** A node of the dictionary that no node of the dictionary lists as a
    child. *)
Definition top (self : t) (a : addr) : Prop :=
  a ∈ Dict.values (nodes self) ∧ a ∉ child_refs self.

(** [path_to self l a]: [l] is a chain of child links that starts at a
    parentless node and ends at [a]. *)
Inductive path_to (self : t) : list addr → addr → Prop :=
| path_top a : top self a → path_to self [a] a
| path_step l p a :
    path_to self l p → link self p a → path_to self (l ++ [a]) a.

(** Every name of the dictionary is reached by exactly one chain from a
    parentless node, the root is such a parentless node, and no node is its
    own descendant. *)
Definition forest (self : t) : Prop :=
  (∀ k a, Dict.get k (nodes self) = Some a →
     ∃ l, path_to self l a ∧ ∀ l', path_to self l' a → l' = l)
  ∧ (∀ r, root self = Some r → top self r)
  ∧ (∀ a, ¬ tc (link self) a a).

(** A node is allocated before its children. *)
Definition increasing (m : memory) : Prop := ∀ a c, child m a c → a < c.

(** What [add] and [delete] maintain, on top of [wf]. *)
Definition inv (self : t) : Prop :=
  wf self ∧ increasing (mem self) ∧ ∀ r, root self = Some r → top self r.

(** An [add] whose parent is not the name being added. *)
Definition proper (o : op) : Prop :=
  match o with
  | Add name (Some parent) _ _ _ _ => parent ≠ name
  | _ => True
  end.

(** The attributes [edit] updates under [# update meta]. *)
Definition attrs (n : DepartmentNode.t) : value * value * value * value :=
  (DepartmentNode.head n, DepartmentNode.employees n,
   DepartmentNode.budget n, DepartmentNode.perf n).

(** A supplied value that the coercion refuses with exception [e]. *)
Definition rejects {A} (coerce : value → PyExn + A) (v : value) (e : PyExn) :
    Prop :=
  v ≠ VNone ∧ coerce v = inl e.

(** A value that is omitted or that the coercion converts. *)
Definition accepts {A} (coerce : value → PyExn + A) (v : value) : Prop :=
  v = VNone ∨ ∃ x, coerce v = inr x.

End Tree.

(** ** Small trees used by the examples *)

Module Examples.
Import DepartmentHierarchy.

(** [add(name, parent)] with the default attributes of [DepartmentNode]. *)
Definition add_default (name : string) (parent : option string) (self : t) : t :=
  (add name parent (VStr "") (VInt 0) (VInt 0) (VInt 0) self).2.

(** [add("A"); add("B", parent="A")]: root [A] with the single child [B]. *)
Definition tree_AB : t :=
  add_default "B" (Some "A") (add_default "A" None init).

(** [add("A"); add("B", parent="A"); add("C", parent="B")]: the chain
    [A], [B], [C]. *)
Definition chain_ABC : t := add_default "C" (Some "B") tree_AB.

(** [add("X"); add("", parent="X")]: root [X] with a child whose name is the
    empty string. *)
Definition tree_X_empty : t :=
  add_default "" (Some "X") (add_default "X" None init).

(** [add("A"); add("B"); add("C")], no parent given. *)
Definition three_adds : list op :=
  [Add "A" None (VStr "") (VInt 0) (VInt 0) (VInt 0);
   Add "B" None (VStr "") (VInt 0) (VInt 0) (VInt 0);
   Add "C" None (VStr "") (VInt 0) (VInt 0) (VInt 0)].

(** [add("A"); add("B", parent="A"); add("C"); delete("B")] *)
Definition adds_and_delete : list op :=
  [Add "A" None (VStr "") (VInt 0) (VInt 0) (VInt 0);
   Add "B" (Some "A") (VStr "") (VInt 0) (VInt 0) (VInt 0);
   Add "C" None (VStr "") (VInt 0) (VInt 0) (VInt 0);
   Delete "B"].

End Examples.

(** ** Facts about the heap wrapper *)

Module DepartmentHeapFacts.
Import DepartmentHeap.

Lemma ascii_compare_refl c : Ascii.compare c c = Eq.
Proof. unfold Ascii.compare. apply N.compare_refl. Qed.

Lemma string_compare_refl s : String.compare s s = Eq.
Proof. induction s as [|c s IH]; simpl; [done|]. by rewrite ascii_compare_refl. Qed.

Lemma string_compare_lt_trans a b c :
  String.compare a b = Lt → String.compare b c = Lt → String.compare a c = Lt.
Proof.
  revert b c. induction a as [|x a IH]; intros [|y b] [|z c]; simpl; try done.
  destruct (Ascii.compare x y) eqn:E1; try done;
    destruct (Ascii.compare y z) eqn:E2; try done.
  - apply Ascii.compare_eq_iff in E1, E2. subst.
    rewrite ascii_compare_refl. apply IH.
  - apply Ascii.compare_eq_iff in E1. subst. by rewrite E2.
  - apply Ascii.compare_eq_iff in E2. subst. by rewrite E1.
  - unfold Ascii.compare in *. rewrite N.compare_lt_iff in E1, E2.
    intros _ _. assert (Hlt : (Ascii.N_of_ascii x < Ascii.N_of_ascii z)%N) by lia.
    apply N.compare_lt_iff in Hlt. by rewrite Hlt.
Qed.

Lemma string_leb_ltb a b : String.leb a b = negb (String.ltb b a).
Proof.
  unfold String.leb, String.ltb. rewrite (String.compare_antisym a b).
  by destruct (String.compare b a).
Qed.

Lemma string_leb_trans a b c :
  String.leb a b = true → String.leb b c = true → String.leb a c = true.
Proof.
  unfold String.leb. intros Hab Hbc.
  destruct (String.compare a b) eqn:E1; try done;
    destruct (String.compare b c) eqn:E2; try done.
  - apply String.compare_eq_iff in E1, E2. subst. by rewrite string_compare_refl.
  - apply String.compare_eq_iff in E1. subst. by rewrite E2.
  - apply String.compare_eq_iff in E2. subst. by rewrite E1.
  - by rewrite (string_compare_lt_trans _ _ _ E1 E2).
Qed.

Lemma item_ltb_false x y : item_ltb y x = false ↔ item_le x y.
Proof.
  unfold item_ltb, item_le. rewrite string_leb_ltb.
  destruct (Z.ltb_spec y.1 x.1), (Z.eqb_spec y.1 x.1),
    (String.ltb y.2 x.2); simpl; split; intros; try done; try lia.
Qed.

Lemma item_ltb_true x y : item_ltb x y = true → item_le x y.
Proof.
  unfold item_ltb, item_le.
  destruct (Z.ltb_spec x.1 y.1), (Z.eqb_spec x.1 y.1); simpl; try done; auto.
  intros Hlt. right. split; [done|].
  unfold String.ltb in Hlt. unfold String.leb.
  by destruct (String.compare x.2 y.2).
Qed.

Lemma item_le_trans : Transitive item_le.
Proof.
  intros x y z [Hxy|[Hxy Hn1]] [Hyz|[Hyz Hn2]]; unfold item_le.
  - left; lia.
  - left; lia.
  - left; lia.
  - right. split; [lia|]. by eapply string_leb_trans.
Qed.

Lemma item_le_antisym x y : item_le x y → item_le y x → x = y.
Proof.
  destruct x as [p n], y as [q m].
  intros [?|[? Hn1]] [?|[? Hn2]]; simpl in *; try lia.
  subst. f_equal. by apply String.leb_antisym.
Qed.

(** *** [sorted] *)

Lemma insert_sorted_perm x l : insert_sorted x l ≡ₚ x :: l.
Proof.
  induction l as [|y l IH]; simpl; [done|].
  destruct (item_ltb y x); [|done].
  by rewrite IH, Permutation_swap.
Qed.

Lemma sorted_perm l : sorted l ≡ₚ l.
Proof.
  induction l as [|x l IH]; simpl; [done|].
  by rewrite insert_sorted_perm, IH.
Qed.

Lemma insert_sorted_sorted x l :
  StronglySorted item_le l → StronglySorted item_le (insert_sorted x l).
Proof.
  induction 1 as [|y l Hs IH Hall]; simpl.
  - repeat constructor.
  - destruct (item_ltb y x) eqn:E.
    + constructor; [done|].
      rewrite insert_sorted_perm. constructor; [|done].
      by apply item_ltb_true.
    + apply item_ltb_false in E.
      constructor; [by constructor|].
      constructor; [done|].
      eapply Forall_impl; [exact Hall|].
      intros z Hz. by eapply item_le_trans.
Qed.

Lemma sorted_sorted l : StronglySorted item_le (sorted l).
Proof.
  induction l as [|x l IH]; simpl; [constructor|].
  by apply insert_sorted_sorted.
Qed.

(** A sorted rearrangement is unique: the list [sorted] returns does not
    depend on how the sort is implemented. *)
Lemma sorted_unique l1 l2 :
  l1 ≡ₚ l2 → StronglySorted item_le l1 → StronglySorted item_le l2 → l1 = l2.
Proof.
  revert l2. induction l1 as [|x l1 IH]; intros l2 Hp H1 H2.
  - by apply Permutation_nil_l in Hp.
  - destruct l2 as [|y l2]; [by apply Permutation_nil_r in Hp|].
    apply StronglySorted_inv in H1 as [H1 Hx].
    apply StronglySorted_inv in H2 as [H2 Hy].
    assert (x = y) as ->.
    { assert (Hin1 : x ∈ y :: l2) by (rewrite <- Hp; left).
      assert (Hin2 : y ∈ x :: l1) by (rewrite Hp; left).
      apply elem_of_cons in Hin1 as [?|Hin1]; [done|].
      apply elem_of_cons in Hin2 as [?|Hin2]; [done|].
      rewrite Forall_forall in Hx, Hy.
      apply item_le_antisym; [by apply Hx|by apply Hy]. }
    f_equal. apply IH; [|done|done].
    by apply Permutation_cons_inv in Hp.
Qed.


(** *** [heapq] only rearranges the list *)

Lemma insert_move_perm (heap : list item) i j x y :
  i < length heap → heap !! j = Some y → i ≠ j →
  <[j := x]> (<[i := y]> heap) ≡ₚ <[i := x]> heap.
Proof.
  intros Hi Hj Hne.
  rewrite <- (list_insert_insert_eq heap i y x).
  apply Permutation_insert_swap.
  - by apply list_lookup_insert_eq.
  - by rewrite list_lookup_insert_ne.
Qed.

Lemma siftdown_loop_perm newitem startpos heap pos :
  pos < length heap →
  (siftdown_loop newitem startpos heap pos).2
    < length (siftdown_loop newitem startpos heap pos).1
  ∧ <[(siftdown_loop newitem startpos heap pos).2 := newitem]>
      (siftdown_loop newitem startpos heap pos).1
    ≡ₚ <[pos := newitem]> heap.
Proof.
  funelim (siftdown_loop newitem startpos heap pos); intros Hpos;
    try (simpl; by split).
  match goal with IH : _ → _ ∧ _ |- _ => destruct IH as [IH1 IH2] end.
  { rewrite length_insert.
    pose proof (Nat.Div0.div_le_upper_bound (pos - 1) 2 pos). lia. }
  split; [done|]. rewrite IH2.
  apply insert_move_perm; [done|done|].
  assert ((pos - 1) / 2 < pos) by (apply Nat.Div0.div_lt_upper_bound; lia).
  lia.
Qed.

Lemma _siftdown_perm heap startpos pos : _siftdown heap startpos pos ≡ₚ heap.
Proof.
  unfold _siftdown. destruct (heap !! pos) as [newitem|] eqn:E; [|done].
  pose proof (siftdown_loop_perm newitem startpos heap pos) as H.
  destruct (siftdown_loop newitem startpos heap pos) as [heap' pos'].
  destruct H as [_ H]; [by eapply lookup_lt_Some|].
  simpl in H. rewrite H. by rewrite list_insert_id.
Qed.

Lemma heappush_perm heap x : heappush heap x ≡ₚ x :: heap.
Proof.
  unfold heappush. rewrite _siftdown_perm.
  by rewrite Permutation_app_comm.
Qed.

Lemma siftup_loop_perm endpos heap pos newitem :
  pos < length heap →
  (siftup_loop endpos heap pos).2 < length (siftup_loop endpos heap pos).1
  ∧ <[(siftup_loop endpos heap pos).2 := newitem]> (siftup_loop endpos heap pos).1
    ≡ₚ <[pos := newitem]> heap.
Proof.
  funelim (siftup_loop endpos heap pos); intros Hpos; try (simpl; by split).
  match goal with IH : ∀ newitem, _ → _ ∧ _ |- _ =>
    destruct (IH newitem) as [IH1 IH2] end.
  { rewrite length_insert. by eapply lookup_lt_Some. }
  split; [done|]. rewrite IH2.
  apply insert_move_perm; [done|done|].
  pose proof (smaller_child_gt endpos heap pos). lia.
Qed.

Lemma _siftup_perm heap pos : _siftup heap pos ≡ₚ heap.
Proof.
  unfold _siftup. destruct (heap !! pos) as [newitem|] eqn:E; [|done].
  pose proof (siftup_loop_perm (length heap) heap pos newitem) as H.
  destruct (siftup_loop (length heap) heap pos) as [heap' pos'].
  destruct H as [_ H]; [by eapply lookup_lt_Some|].
  simpl in H. rewrite _siftdown_perm, H. by rewrite list_insert_id.
Qed.

Lemma heapify_perm x : heapify x ≡ₚ x.
Proof.
  unfold heapify. generalize (rev (seq 0 (length x / 2))) as idx.
  intros idx. revert x. induction idx as [|i idx IH]; intros x; simpl; [done|].
  by rewrite IH, _siftup_perm.
Qed.

(** *** Sequences of operations *)

Lemma step_perm self pairs o :
  self ≡ₚ pairs → step self o ≡ₚ spec_step pairs o.
Proof.
  intros Hp. destruct o as [p n|n|n p]; simpl.
  - unfold add. by rewrite heappush_perm, Hp.
  - unfold remove. by rewrite heapify_perm, Hp.
  - unfold edit_priority, add, remove.
    by rewrite heappush_perm, heapify_perm, Hp.
Qed.

Lemma run_perm ops : run ops ≡ₚ spec_pairs ops.
Proof.
  unfold run, spec_pairs, init.
  assert (H : ∀ self pairs, self ≡ₚ pairs →
            fold_left step ops self ≡ₚ fold_left spec_step ops pairs).
  { induction ops as [|o ops IH]; intros self pairs Hp; simpl; [done|].
    apply IH. by apply step_perm. }
  by apply H.
Qed.

(** C7: after any sequence of [add], [remove] and [edit_priority] calls,
    [get_all] returns exactly the pairs currently stored, in ascending order
    of priority with ties broken by name; and [add(5,"X")] followed by
    [add(2,"Y")] lists as [(2,"Y"), (5,"X")]. *)
Theorem get_all_sorted_all_pairs :
  (∀ ops : list op,
      StronglySorted item_le (get_all (run ops))
      ∧ get_all (run ops) ≡ₚ spec_pairs ops)
  ∧ get_all (add 2 "Y" (add 5 "X" init)) = [(2%Z, "Y"); (5%Z, "X")].
Proof.
  split.
  - intros ops. unfold get_all. split.
    + apply sorted_sorted.
    + by rewrite sorted_perm, run_perm.
  - vm_compute. reflexivity.
Qed.

End DepartmentHeapFacts.

(** ** Facts about dictionaries *)

Module DictFacts.

Lemma get_Some_elem k a (d : Dict.t) : Dict.get k d = Some a → (k, a) ∈ d.
Proof.
  induction d as [|[k' v] d IH]; simpl; [done|].
  destruct (decide (k' = k)) as [->|]; intros H.
  - inversion H. left.
  - right. by apply IH.
Qed.

Lemma get_None k (d : Dict.t) : Dict.get k d = None ↔ k ∉ Dict.keys d.
Proof.
  unfold Dict.keys. induction d as [|[k' v] d IH]; simpl.
  - split; [intros _; apply not_elem_of_nil|done].
  - rewrite not_elem_of_cons. destruct (decide (k' = k)) as [->|]; simpl.
    + split; [done|]. by intros [? _].
    + rewrite IH. naive_solver.
Qed.

Lemma elem_get k a (d : Dict.t) :
  NoDup (Dict.keys d) → (k, a) ∈ d → Dict.get k d = Some a.
Proof.
  unfold Dict.keys. induction d as [|[k' v] d IH]; simpl; intros Hnd Hin.
  - by apply elem_of_nil in Hin.
  - apply NoDup_cons in Hnd as [Hk' Hnd].
    apply elem_of_cons in Hin as [Heq|Hin].
    + inversion Heq. subst. by rewrite decide_True.
    + destruct (decide (k' = k)) as [->|]; [|by apply IH].
      exfalso. apply Hk'. apply list_elem_of_fmap. by exists (k, a).
Qed.

Lemma get_Some_value k a (d : Dict.t) : Dict.get k d = Some a → a ∈ Dict.values d.
Proof.
  intros H%get_Some_elem. unfold Dict.values.
  apply list_elem_of_fmap. by exists (k, a).
Qed.

Lemma value_elem a (d : Dict.t) : a ∈ Dict.values d ↔ ∃ k, (k, a) ∈ d.
Proof.
  unfold Dict.values. rewrite list_elem_of_fmap. split.
  - intros [[k a'] [-> ?]]. by exists k.
  - intros [k ?]. by exists (k, a).
Qed.

Lemma mem_true k (d : Dict.t) : Dict.mem k d = true ↔ is_Some (Dict.get k d).
Proof. unfold Dict.mem. by rewrite bool_decide_eq_true. Qed.

Lemma mem_false k (d : Dict.t) : Dict.mem k d = false ↔ Dict.get k d = None.
Proof.
  unfold Dict.mem. rewrite bool_decide_eq_false.
  by rewrite eq_None_not_Some.
Qed.

Lemma set_fresh k v (d : Dict.t) :
  Dict.get k d = None → Dict.set k v d = d ++ [(k, v)].
Proof.
  induction d as [|[k' v'] d IH]; simpl; [done|].
  destruct (decide (k' = k)); [done|]. intros H. by rewrite IH.
Qed.

Lemma get_app k (d1 d2 : Dict.t) :
  Dict.get k (d1 ++ d2) =
    match Dict.get k d1 with Some a => Some a | None => Dict.get k d2 end.
Proof.
  induction d1 as [|[k' v'] d1 IH]; simpl; [done|].
  by destruct (decide (k' = k)).
Qed.

Lemma get_snoc k k' v (d : Dict.t) :
  Dict.get k d = None →
  Dict.get k' (d ++ [(k, v)]) = if decide (k = k') then Some v else Dict.get k' d.
Proof.
  intros Hk. rewrite get_app. simpl.
  destruct (decide (k = k')) as [<-|]; [by rewrite Hk|].
  by destruct (Dict.get k' d).
Qed.

Lemma elem_del k k' a (d : Dict.t) :
  (k', a) ∈ Dict.del k d ↔ (k', a) ∈ d ∧ k' ≠ k.
Proof. unfold Dict.del. rewrite list_elem_of_filter. naive_solver. Qed.

Lemma filter_keys_NoDup (P : string * addr → Prop) `{∀ x, Decision (P x)}
    (d : Dict.t) :
  NoDup (Dict.keys d) → NoDup (Dict.keys (filter P d)).
Proof.
  unfold Dict.keys. intros Hnd. eapply sublist_NoDup; [exact Hnd|].
  apply fmap_sublist, sublist_filter.
Qed.

Lemma keys_del_NoDup k (d : Dict.t) :
  NoDup (Dict.keys d) → NoDup (Dict.keys (Dict.del k d)).
Proof. apply filter_keys_NoDup. Qed.

Lemma get_del k k' (d : Dict.t) :
  Dict.get k' (Dict.del k d) = if decide (k' = k) then None else Dict.get k' d.
Proof.
  unfold Dict.del. induction d as [|[k2 v] d IH].
  - simpl. by destruct (decide (k' = k)).
  - rewrite filter_cons. cbn [fst].
    destruct (decide (k2 ≠ k)) as [Hne|Heq]; cbn [Dict.get].
    + destruct (decide (k2 = k')) as [->|]; [by rewrite decide_False|done].
    + apply dec_stable in Heq. subst k2. rewrite IH.
      destruct (decide (k' = k)) as [->|]; [done|].
      by rewrite decide_False.
Qed.

End DictFacts.

(** ** Facts about the tree operations *)

Module TreeFacts.
Import DepartmentHierarchy Tree DictFacts.

(** *** Reading the memory after an update *)

Lemma name_of_alter f a (m : memory) c :
  (∀ n, DepartmentNode.name (f n) = DepartmentNode.name n) →
  name_of (alter f a m) c = name_of m c.
Proof.
  intros Hf. unfold name_of. destruct (decide (a = c)) as [->|Hne].
  - rewrite list_lookup_alter_eq. destruct (m !! c); simpl; [apply Hf|done].
  - by rewrite list_lookup_alter_ne.
Qed.

Lemma children_of_alter_ne f a (m : memory) c :
  a ≠ c → children_of (alter f a m) c = children_of m c.
Proof. intros Hne. unfold children_of. by rewrite list_lookup_alter_ne. Qed.

Lemma children_of_alter f a (m : memory) c :
  (∀ n, DepartmentNode.children (f n) = DepartmentNode.children n) →
  children_of (alter f a m) c = children_of m c.
Proof.
  intros Hf. unfold children_of. destruct (decide (a = c)) as [->|Hne].
  - rewrite list_lookup_alter_eq. destruct (m !! c); simpl; [apply Hf|done].
  - by rewrite list_lookup_alter_ne.
Qed.

Lemma children_of_lookup (m : memory) a n :
  m !! a = Some n → children_of m a = DepartmentNode.children n.
Proof. unfold children_of. by intros ->. Qed.

Lemma name_of_lookup (m : memory) a n :
  m !! a = Some n → name_of m a = DepartmentNode.name n.
Proof. unfold name_of. by intros ->. Qed.

(** *** [find_parent_and_remove] *)

Lemma filter_idemp {A} (P : A → Prop) `{∀ x, Decision (P x)} (l : list A) :
  filter P (filter P l) = filter P l.
Proof.
  induction l as [|x l IH]; [done|]. rewrite filter_cons.
  destruct (decide (P x)); [|done].
  rewrite filter_cons, decide_True by done. by rewrite IH.
Qed.

Lemma strip_ext (m1 m2 : memory) name n :
  (∀ c, name_of m1 c = name_of m2 c) → strip m1 name n = strip m2 name n.
Proof.
  intros Hn. unfold strip. f_equal.
  apply list_filter_iff. intros c. by rewrite Hn.
Qed.

Lemma strip_idemp (m : memory) name n :
  strip m name (strip m name n) = strip m name n.
Proof. unfold strip. simpl. by rewrite filter_idemp. Qed.

Lemma strip_loop name (l : list addr) self :
  let self' :=
    foldl (λ self node, setattr node (strip (mem self) name) self) self l in
  root self' = root self ∧ nodes self' = nodes self
  ∧ (∀ c, name_of (mem self') c = name_of (mem self) c)
  ∧ ∀ a, mem self' !! a =
      (λ n, if decide (a ∈ l) then strip (mem self) name n else n)
        <$> mem self !! a.
Proof.
  revert self. induction l as [|b l IH]; intros self; simpl.
  - split_and!; [done..|]. intros a. by destruct (mem self !! a).
  - specialize (IH (setattr b (strip (mem self) name) self)).
    destruct IH as (Hr & Hn & Hnm & Hm). simpl in *.
    assert (Hnames : ∀ c, name_of (alter (strip (mem self) name) b (mem self)) c
                          = name_of (mem self) c).
    { intros c. by apply name_of_alter. }
    split_and!; [done|done|by intros c; rewrite Hnm|].
    intros a. rewrite Hm. destruct (decide (a = b)) as [->|Hne].
    + rewrite list_lookup_alter_eq. destruct (mem self !! b) as [n|]; [|done].
      simpl. f_equal.
      destruct (decide (b ∈ b :: l)) as [_|Hn']; [|by destruct Hn'; left].
      destruct (decide (b ∈ l)); [|done].
      rewrite (strip_ext _ (mem self)) by done. apply strip_idemp.
    + rewrite list_lookup_alter_ne by done.
      destruct (mem self !! a) as [n|]; [|done]. simpl. f_equal.
      destruct (decide (a ∈ l)) as [Hin|Hnin];
        destruct (decide (a ∈ b :: l)) as [Hin'|Hnin'].
      * by apply strip_ext.
      * destruct Hnin'. by right.
      * apply elem_of_cons in Hin' as [?|?]; done.
      * done.
Qed.

Lemma find_parent_and_remove_spec name self :
  let self' := find_parent_and_remove name self in
  root self' = root self ∧ nodes self' = nodes self
  ∧ (∀ c, name_of (mem self') c = name_of (mem self) c)
  ∧ ∀ a, mem self' !! a =
      (λ n, if decide (a ∈ Dict.values (nodes self))
            then strip (mem self) name n else n)
        <$> mem self !! a.
Proof. apply strip_loop. Qed.

Lemma find_parent_and_remove_length name self :
  length (mem (find_parent_and_remove name self)) = length (mem self).
Proof.
  unfold find_parent_and_remove.
  generalize (Dict.values (nodes self)) as l. intros l. revert self.
  induction l as [|b l IH]; intros self; simpl; [done|].
  rewrite IH. simpl. apply length_alter.
Qed.

Lemma find_parent_and_remove_children name self a :
  children_of (mem (find_parent_and_remove name self)) a =
    if decide (a ∈ Dict.values (nodes self))
    then filter (λ c, name_of (mem self) c ≠ name) (children_of (mem self) a)
    else children_of (mem self) a.
Proof.
  destruct (find_parent_and_remove_spec name self) as (_ & _ & _ & Hm).
  unfold children_of. rewrite Hm.
  destruct (mem self !! a) as [n|]; simpl; by destruct (decide _).
Qed.

(** *** Consequences of well-formedness *)

Lemma filter_ext_in {A} (P Q : A → Prop) `{∀ x, Decision (P x)}
    `{∀ x, Decision (Q x)} (l : list A) :
  (∀ x, x ∈ l → P x ↔ Q x) → filter P l = filter Q l.
Proof.
  induction l as [|x l IH]; intros Hpq; [done|].
  rewrite !filter_cons.
  rewrite IH by (intros y Hy; apply Hpq; by right).
  destruct (decide (P x)) as [HP|HP], (decide (Q x)) as [HQ|HQ]; try done.
  - destruct HQ. apply Hpq; [left|done].
  - destruct HP. apply Hpq; [left|done].
Qed.

Lemma filter_all {A} (P : A → Prop) `{∀ x, Decision (P x)} (l : list A) :
  (∀ x, x ∈ l → P x) → filter P l = l.
Proof.
  induction l as [|x l IH]; intros HP; [done|].
  rewrite filter_cons_True by (apply HP; left). f_equal.
  apply IH. intros y Hy. apply HP. by right.
Qed.

Lemma Forall_sub {A} (P : A → Prop) (l1 l2 : list A) :
  l1 `sublist_of` l2 → Forall P l2 → Forall P l1.
Proof.
  rewrite !Forall_forall. intros Hs HP x Hx. apply HP.
  by eapply elem_of_sublist.
Qed.

Lemma filter_bind {A B} (P : B → Prop) `{∀ x, Decision (P x)}
    (f : A → list B) (l : list A) :
  filter P (l ≫= f) = l ≫= (λ a, filter P (f a)).
Proof.
  induction l as [|a l IH]; [done|].
  by rewrite !bind_cons, filter_app, IH.
Qed.

Lemma bind_ext_in {A B} (f g : A → list B) (l : list A) :
  (∀ a, a ∈ l → f a = g a) → l ≫= f = l ≫= g.
Proof.
  induction l as [|a l IH]; intros Hfg; [done|].
  rewrite !bind_cons, Hfg by left. f_equal. apply IH.
  intros b Hb. apply Hfg. by right.
Qed.

Lemma NoDup_bind_inj {A B} (f : A → list B) (l : list A) x1 x2 y :
  NoDup (l ≫= f) → x1 ∈ l → x2 ∈ l → y ∈ f x1 → y ∈ f x2 → x1 = x2.
Proof.
  induction l as [|x l IH]; intros Hnd H1 H2 Hy1 Hy2.
  - by apply elem_of_nil in H1.
  - rewrite bind_cons in Hnd. apply NoDup_app in Hnd as (_ & Hdisj & Hnd).
    apply elem_of_cons in H1 as [->|H1]; apply elem_of_cons in H2 as [->|H2].
    + done.
    + exfalso. apply (Hdisj y Hy1). apply list_elem_of_bind. eauto.
    + exfalso. apply (Hdisj y Hy2). apply list_elem_of_bind. eauto.
    + by apply IH.
Qed.

Section wf_facts.
Context (self : t) (Hwf : wf self).

Lemma wf_keys : NoDup (Dict.keys (nodes self)).
Proof. apply Hwf. Qed.

Lemma wf_lookup k a :
  (k, a) ∈ nodes self →
  ∃ n, mem self !! a = Some n ∧ DepartmentNode.name n = k.
Proof.
  destruct Hwf as (_ & Hn & _). rewrite Forall_forall in Hn.
  intros Hin. specialize (Hn _ Hin). simpl in Hn.
  destruct (mem self !! a) as [n|]; [|done]. exists n. by inversion Hn.
Qed.

Lemma wf_name_of k a : (k, a) ∈ nodes self → name_of (mem self) a = k.
Proof.
  intros (n & Hn & <-)%wf_lookup. by apply name_of_lookup.
Qed.

Lemma wf_get k a : Dict.get k (nodes self) = Some a ↔ (k, a) ∈ nodes self.
Proof. split; [apply get_Some_elem|apply elem_get, wf_keys]. Qed.

Lemma wf_value a :
  a ∈ Dict.values (nodes self) → (name_of (mem self) a, a) ∈ nodes self.
Proof.
  intros [k Hk]%value_elem. by rewrite (wf_name_of _ _ Hk).
Qed.

Lemma wf_value_lt a : a ∈ Dict.values (nodes self) → a < length (mem self).
Proof.
  intros [k (n & Hn & _)%wf_lookup]%value_elem. by eapply lookup_lt_Some.
Qed.

Lemma wf_addr_eq k a1 a2 :
  (k, a1) ∈ nodes self → (k, a2) ∈ nodes self → a1 = a2.
Proof. rewrite <- !wf_get. congruence. Qed.

Lemma wf_name_inj a1 a2 :
  a1 ∈ Dict.values (nodes self) → a2 ∈ Dict.values (nodes self) →
  name_of (mem self) a1 = name_of (mem self) a2 → a1 = a2.
Proof.
  intros H1%wf_value H2%wf_value Heq. rewrite Heq in H1.
  by eapply wf_addr_eq.
Qed.

Lemma wf_values_NoDup : NoDup (Dict.values (nodes self)).
Proof.
  destruct Hwf as (Hk & Hn & _).
  apply (NoDup_fmap_1 (λ a, DepartmentNode.name <$> mem self !! a)).
  assert (Heq : (λ a, DepartmentNode.name <$> mem self !! a)
                  <$> Dict.values (nodes self)
                = Some <$> Dict.keys (nodes self)).
  { unfold Dict.values, Dict.keys. rewrite <- !list_fmap_compose.
    apply list_fmap_ext. intros i kv Hi. simpl.
    rewrite Forall_forall in Hn. apply Hn.
    by eapply list_elem_of_lookup_2. }
  rewrite Heq. by apply (NoDup_fmap_2 _).
Qed.

Lemma wf_closed a c :
  a ∈ Dict.values (nodes self) → c ∈ children_of (mem self) a →
  c ∈ Dict.values (nodes self).
Proof.
  destruct Hwf as (_ & _ & Hc & _). rewrite Forall_forall in Hc.
  intros Ha Hca. apply Hc. unfold child_refs.
  apply list_elem_of_bind. eauto.
Qed.

Lemma wf_unique_parent p1 p2 c :
  p1 ∈ Dict.values (nodes self) → p2 ∈ Dict.values (nodes self) →
  c ∈ children_of (mem self) p1 → c ∈ children_of (mem self) p2 → p1 = p2.
Proof.
  destruct Hwf as (_ & _ & _ & Hp & _). intros. by eapply NoDup_bind_inj.
Qed.

Lemma wf_children_NoDup a :
  a ∈ Dict.values (nodes self) → NoDup (children_of (mem self) a).
Proof.
  destruct Hwf as (_ & _ & _ & Hp & _). unfold child_refs in Hp.
  intros (l1 & l2 & Heq)%list_elem_of_split. rewrite Heq in Hp.
  rewrite bind_app, bind_cons in Hp.
  apply NoDup_app in Hp as (_ & _ & Hp). by apply NoDup_app in Hp as (Hp & _).
Qed.

Lemma wf_empty_name a :
  ("", a) ∈ nodes self → children_of (mem self) a = [].
Proof.
  destruct Hwf as (_ & _ & _ & _ & He). rewrite Forall_forall in He.
  intros Hin. by apply (He _ Hin).
Qed.

Lemma wf_subtree_mapped x a :
  x ∈ Dict.values (nodes self) → in_subtree (mem self) x a →
  a ∈ Dict.values (nodes self).
Proof.
  intros Hx Hs. induction Hs as [|x y z Hxy _ IH]; [done|].
  apply IH. by eapply wf_closed.
Qed.

(** Filtering a children list by name is filtering it by address. *)
Lemma wf_filter_name k x a :
  (k, x) ∈ nodes self → a ∈ Dict.values (nodes self) →
  filter (λ c, name_of (mem self) c ≠ k) (children_of (mem self) a)
  = filter (λ c, c ≠ x) (children_of (mem self) a).
Proof.
  intros Hx Ha. apply filter_ext_in. intros c Hc.
  assert (Hcv : c ∈ Dict.values (nodes self)) by (by eapply wf_closed).
  split; intros Hne Heq; apply Hne.
  - subst c. by apply wf_name_of.
  - apply wf_name_inj; [done|by apply value_elem; eauto|].
    by rewrite Heq, (wf_name_of _ _ Hx).
Qed.

End wf_facts.

End TreeFacts.

(** ** [delete] *)

Module DeleteFacts.
Import DepartmentHierarchy Tree DictFacts TreeFacts.

Lemma wf_root_irrelevant r self :
  wf (mk r (nodes self) (mem self)) ↔ wf self.
Proof. done. Qed.

Lemma delete_absent fuel name self :
  Dict.get name (nodes self) = None → delete fuel name self = Some (false, self).
Proof. intros H%mem_false. unfold delete. by rewrite H. Qed.

(** *** Detaching the target *)

Section detach.
Context (self : t) (Hwf : wf self) (X : string) (x : addr).
Context (HX : (X, x) ∈ nodes self).

Let self1 := find_parent_and_remove X self.

Lemma detach_nodes : nodes self1 = nodes self.
Proof. apply find_parent_and_remove_spec. Qed.

Lemma detach_root : root self1 = root self.
Proof. apply find_parent_and_remove_spec. Qed.

Lemma detach_name_of c : name_of (mem self1) c = name_of (mem self) c.
Proof. apply find_parent_and_remove_spec. Qed.

Lemma detach_children a :
  children_of (mem self1) a =
    if decide (a ∈ Dict.values (nodes self))
    then filter (λ c, c ≠ x) (children_of (mem self) a)
    else children_of (mem self) a.
Proof.
  unfold self1. rewrite find_parent_and_remove_children.
  destruct (decide _); [|done]. by apply wf_filter_name.
Qed.

Lemma detach_child_refs :
  child_refs self1 = filter (λ c, c ≠ x) (child_refs self).
Proof.
  unfold child_refs. rewrite detach_nodes, filter_bind.
  apply bind_ext_in. intros a Ha. rewrite detach_children.
  by rewrite decide_True.
Qed.

Lemma detach_wf : wf self1.
Proof.
  pose proof Hwf as (Hk & Hn & Hc & Hp & He).
  unfold wf. rewrite detach_child_refs, detach_nodes. split_and!.
  - done.
  - rewrite Forall_forall in Hn |- *. intros kv Hkv.
    destruct (find_parent_and_remove_spec X self) as (_ & _ & _ & Hm).
    fold self1 in Hm. rewrite Hm, <- (Hn kv Hkv).
    destruct (mem self !! kv.2); simpl; [|done]. by destruct (decide _).
  - rewrite Forall_forall in Hc |- *.
    intros c [_ Hin]%list_elem_of_filter. by apply Hc.
  - by apply NoDup_filter.
  - rewrite Forall_forall in He |- *. intros kv Hkv Hemp.
    rewrite detach_children. rewrite (He kv Hkv Hemp).
    by destruct (decide _).
Qed.

Lemma detach_no_parent : x ∉ child_refs self1.
Proof.
  rewrite detach_child_refs. intros [Hne _]%list_elem_of_filter. done.
Qed.

(** The subtree of the target is the same before and after detaching it. *)
Lemma detach_subtree a :
  in_subtree (mem self1) x a ↔ in_subtree (mem self) x a.
Proof.
  assert (Hxv : x ∈ Dict.values (nodes self)) by (apply value_elem; eauto).
  unfold in_subtree. split.
  - revert a. apply rtc_ind_r; [done|]. intros y z _ Hyz IH.
    eapply rtc_r; [exact IH|]. unfold child in *.
    rewrite detach_children in Hyz. destruct (decide _); [|done].
    by apply list_elem_of_filter in Hyz as [_ ?].
  - intros H.
    assert (Hgen : a ∈ Dict.values (nodes self) ∧ rtc (child (mem self1)) x a).
    { revert a H. apply rtc_ind_r; [done|]. intros y z Hxy Hyz [Hyv IH].
      split; [by eapply wf_closed|].
      destruct (decide (z = x)) as [->|Hne]; [done|].
      eapply rtc_r; [exact IH|]. unfold child.
      rewrite detach_children, decide_True by done.
      by apply list_elem_of_filter. }
    apply Hgen.
Qed.

End detach.

(** *** The traversal *)

Section traversal.
Context (self : t) (Hwf : wf self) (X : string) (x : addr).
Context (HX : (X, x) ∈ nodes self) (Hx : x ∉ child_refs self).

Let ch := children_of (mem self).
Let nm := name_of (mem self).

Lemma mapped_get a :
  a ∈ Dict.values (nodes self) → Dict.get (nm a) (nodes self) = Some a.
Proof. intros Ha. apply wf_get; [done|]. by apply wf_value. Qed.

Lemma mapped_bind_NoDup (l : list addr) :
  NoDup l → (∀ a, a ∈ l → a ∈ Dict.values (nodes self)) → NoDup (l ≫= ch).
Proof.
  intros Hnd Hl. apply NoDup_bind; [| |done].
  - intros a1 a2 c H1 H2 Hc1 Hc2.
    eapply wf_unique_parent; eauto.
  - intros a Ha. apply wf_children_NoDup; auto.
Qed.

Lemma bind_not_target (l : list addr) :
  (∀ a, a ∈ l → a ∈ Dict.values (nodes self)) → x ∉ l ≫= ch.
Proof.
  intros Hl (a & Hxa & Ha)%list_elem_of_bind. apply Hx.
  unfold child_refs. apply list_elem_of_bind. eauto.
Qed.

(** The queue of the loop, as references: the target followed by the
    children of the entries already visited. *)
Definition queue_ok (q : list addr) (i : nat) : Prop :=
  q = x :: (take i q ≫= ch)
  ∧ NoDup q
  ∧ ∀ a, a ∈ q → in_subtree (mem self) x a.

Lemma queue_mapped q i a :
  queue_ok q i → a ∈ q → a ∈ Dict.values (nodes self).
Proof.
  intros (_ & _ & Hs) Ha. eapply wf_subtree_mapped; [done| |by apply Hs].
  apply value_elem; eauto.
Qed.

Lemma queue_length q i : queue_ok q i → (length q ≤ length (nodes self))%nat.
Proof.
  intros Hq. pose proof Hq as (_ & Hnd & _).
  replace (length (nodes self)) with (length (Dict.values (nodes self)))
    by apply length_fmap.
  apply submseteq_length, NoDup_submseteq; [done|].
  intros a. by apply (queue_mapped q i).
Qed.

Lemma queue_step q i a :
  queue_ok q i → q !! i = Some a → queue_ok (q ++ ch a) (S i).
Proof.
  intros Hq Hi. pose proof Hq as (Heq & Hnd & Hs).
  assert (Htake : take (S i) (q ++ ch a) = take i q ++ [a]).
  { rewrite take_app_le by (apply lookup_lt_Some in Hi; lia).
    by apply take_S_r. }
  assert (Heq' : q ++ ch a = x :: (take (S i) (q ++ ch a) ≫= ch)).
  { rewrite Htake, bind_app, bind_singleton.
    rewrite Heq at 1. by rewrite <- app_comm_cons. }
  split_and!; [done| |].
  - rewrite Heq'. rewrite Htake, <- (take_S_r _ _ _ Hi).
    assert (Hm : ∀ b, b ∈ take (S i) q → b ∈ Dict.values (nodes self)).
    { intros b Hb. apply (queue_mapped q i); [done|].
      eapply elem_of_sublist; [exact Hb|apply sublist_take]. }
    apply NoDup_cons. split; [by apply bind_not_target|].
    apply mapped_bind_NoDup; [|done].
    eapply sublist_NoDup; [exact Hnd|apply sublist_take].
  - intros b [Hb|Hb]%elem_of_app; [by apply Hs|].
    eapply rtc_r; [apply Hs; by eapply list_elem_of_lookup_2|done].
Qed.

Lemma delete_loop_queue fuel q i :
  queue_ok q i → (length (nodes self) ≤ fuel + i)%nat →
  ∃ q', delete_loop fuel self (nm <$> q) i = Some (nm <$> q')
        ∧ queue_ok q' (length q').
Proof.
  revert q i. induction fuel as [|fuel IH]; intros q i Hq Hfuel.
  - assert (Hlen : (length q ≤ i)%nat).
    { pose proof (queue_length q i Hq). lia. }
    exists q. simpl. rewrite list_lookup_fmap.
    rewrite (lookup_ge_None_2 q i) by done. simpl. split; [done|].
    destruct Hq as (Heq & ? & ?). split_and!; [|done..].
    rewrite take_ge in Heq by done. by rewrite take_ge.
  - simpl. rewrite list_lookup_fmap.
    destruct (q !! i) as [a|] eqn:Hi; simpl.
    + rewrite mapped_get
        by (apply (queue_mapped q i); [done|by eapply list_elem_of_lookup_2]).
      fold ch nm. rewrite <- fmap_app.
      apply IH; [by apply queue_step|lia].
    + exists q. split; [done|].
      apply lookup_ge_None_1 in Hi.
      destruct Hq as (Heq & ? & ?). split_and!; [|done..].
      rewrite take_ge in Heq by done. by rewrite take_ge.
Qed.

(** The loop ends with the names of exactly the target's subtree. *)
Lemma delete_loop_subtree fuel :
  (length (nodes self) ≤ fuel)%nat →
  ∃ q, delete_loop fuel self [X] 0 = Some (nm <$> q)
       ∧ NoDup q ∧ ∀ a, a ∈ q ↔ in_subtree (mem self) x a.
Proof.
  intros Hfuel.
  destruct (delete_loop_queue fuel [x] 0) as (q & Hloop & Hq).
  { split_and!; [done|apply NoDup_singleton|].
    intros a ->%list_elem_of_singleton. constructor. }
  { lia. }
  exists q. simpl in Hloop. unfold nm at 1 in Hloop.
  rewrite (wf_name_of self Hwf X x HX) in Hloop.
  destruct Hq as (Heq & Hnd & Hs). split_and!; [done|done|].
  intros a. split; [apply Hs|].
  rewrite take_ge in Heq by done.
  revert a. apply rtc_ind_r.
  - rewrite Heq. left.
  - intros y z _ Hyz Hy. rewrite Heq. right.
    apply list_elem_of_bind. eauto.
Qed.

End traversal.

(** *** Removing the names *)

Lemma del_absent k (d : Dict.t) : Dict.get k d = None → Dict.del k d = d.
Proof.
  intros Hk%get_None. unfold Dict.del. apply filter_all.
  intros [k' v] Hin Heq. simpl in Heq. subst k'. apply Hk.
  unfold Dict.keys. apply list_elem_of_fmap. by exists (k, v).
Qed.

Lemma delete_names_filter (l : list string) (d : Dict.t) :
  delete_names l d = filter (λ kv, kv.1 ∉ l) d.
Proof.
  unfold delete_names. revert d. induction l as [|n l IH]; intros d; simpl.
  - symmetry. apply filter_all. intros kv _. apply not_elem_of_nil.
  - assert (Hdel : (if Dict.mem n d then Dict.del n d else d) = Dict.del n d).
    { destruct (Dict.mem n d) eqn:E; [done|].
      apply mem_false in E. by rewrite del_absent. }
    rewrite Hdel, IH. unfold Dict.del. rewrite list_filter_filter.
    apply list_filter_iff. intros kv. rewrite not_elem_of_cons. tauto.
Qed.

(** *** The state [delete] returns *)

Section delete.
Context (self : t) (Hwf : wf self) (X : string) (x : addr).
Context (HX : Dict.get X (nodes self) = Some x).

(** The root reference after [delete]. *)
Definition root_after : option addr :=
  match root self with
  | Some r => if decide (name_of (mem self) r = X) then None else Some r
  | None => None
  end.

Let self1 := find_parent_and_remove X (mk root_after (nodes self) (mem self)).

(** The entries that [delete] keeps: those outside the listed references. *)
Definition kept (q : list addr) : Dict.t :=
  filter (λ kv, kv.1 ∉ name_of (mem self) <$> q) (nodes self).

Lemma kept_elem q k a :
  (∀ b, b ∈ q ↔ in_subtree (mem self) x b) →
  (k, a) ∈ kept q ↔ (k, a) ∈ nodes self ∧ ¬ in_subtree (mem self) x a.
Proof.
  intros Hq. unfold kept. rewrite list_elem_of_filter. simpl.
  assert (Hxv : x ∈ Dict.values (nodes self)) by (by eapply get_Some_value).
  split; intros [H1 H2]; first [split; [|done] | split; [done|]].
  - intros Ha%Hq. apply H1. apply list_elem_of_fmap. exists a.
    by rewrite (wf_name_of self Hwf k a H2).
  - intros (b & -> & Hb)%list_elem_of_fmap. apply H2.
    assert (Hbv : b ∈ Dict.values (nodes self)).
    { eapply wf_subtree_mapped; [done|done|by apply Hq]. }
    apply (wf_value self Hwf) in Hbv.
    rewrite <- (wf_addr_eq self Hwf _ _ _ Hbv H1). by apply Hq.
Qed.

Lemma kept_ext q1 q2 :
  (∀ b, b ∈ q1 ↔ in_subtree (mem self) x b) →
  (∀ b, b ∈ q2 ↔ in_subtree (mem self) x b) →
  kept q1 = kept q2.
Proof.
  intros H1 H2. unfold kept. apply filter_ext_in. intros [k a] Hin.
  pose proof (kept_elem q1 k a H1) as E1.
  pose proof (kept_elem q2 k a H2) as E2.
  unfold kept in E1, E2. rewrite list_elem_of_filter in E1, E2. tauto.
Qed.

Lemma delete_present fuel :
  (length (nodes self) ≤ fuel)%nat →
  ∃ q, (∀ b, b ∈ q ↔ in_subtree (mem self) x b)
       ∧ delete fuel X self = Some (true, mk root_after (kept q) (mem self1)).
Proof.
  intros Hfuel.
  assert (Hwf0 : wf (mk root_after (nodes self) (mem self))) by done.
  pose proof (get_Some_elem _ _ _ HX) as HXin.
  pose proof (detach_wf _ Hwf0 X x HXin) as Hwf1.
  pose proof (detach_nodes (mk root_after (nodes self) (mem self)) X) as Hn1.
  pose proof (detach_root (mk root_after (nodes self) (mem self)) X) as Hr1.
  pose proof (detach_no_parent _ Hwf0 X x HXin) as Hnp.
  fold self1 in Hwf1, Hn1, Hr1, Hnp. simpl in Hn1, Hr1.
  destruct (delete_loop_subtree self1 Hwf1 X x) with (fuel := fuel)
    as (q & Hloop & _ & Hq); [by rewrite Hn1|done|by rewrite Hn1|].
  exists q. split.
  { intros b. rewrite Hq. by apply (detach_subtree _ Hwf0 X x HXin). }
  unfold delete. rewrite (proj2 (mem_true X (nodes self))) by by rewrite HX.
  cbn [negb].
  replace (match root self with
           | Some r =>
               if decide (name_of (mem self) r = X)
               then mk None (nodes self) (mem self) else self
           | None => self
           end) with (mk root_after (nodes self) (mem self)).
  2:{ unfold root_after. destruct self as [[r|] ns m]; simpl; [|done].
      by destruct (decide _). }
  fold self1. rewrite Hloop, Hr1, Hn1, delete_names_filter.
  do 3 f_equal. unfold kept. apply list_filter_iff. intros kv.
  assert (Hnm : name_of (mem self1) <$> q = name_of (mem self) <$> q).
  { apply list_fmap_ext. intros ? b _.
    apply (detach_name_of (mk root_after (nodes self) (mem self))). }
  by rewrite Hnm.
Qed.

Lemma kept_sublist q : kept q `sublist_of` nodes self.
Proof. apply sublist_filter. Qed.

(** The state [delete] returns is well formed. *)
Lemma delete_wf q :
  (∀ b, b ∈ q ↔ in_subtree (mem self) x b) →
  wf (mk root_after (kept q) (mem self1)).
Proof.
  intros Hq.
  assert (Hwf0 : wf (mk root_after (nodes self) (mem self))) by done.
  pose proof (get_Some_elem _ _ _ HX) as HXin.
  pose proof (detach_wf _ Hwf0 X x HXin) as Hwf1.
  pose proof (detach_nodes (mk root_after (nodes self) (mem self)) X) as Hn1.
  pose proof (detach_no_parent _ Hwf0 X x HXin) as Hnp.
  pose proof (detach_subtree _ Hwf0 X x HXin) as Hsub.
  fold self1 in Hwf1, Hn1, Hnp, Hsub. simpl in Hn1, Hsub.
  pose proof Hwf1 as (Hk & Hn & Hc & Hp & He). rewrite Hn1 in *.
  assert (Hvs : Dict.values (kept q) `sublist_of` Dict.values (nodes self)).
  { unfold Dict.values. apply fmap_sublist, kept_sublist. }
  unfold wf, child_refs. cbn [nodes mem]. split_and!.
  - by apply filter_keys_NoDup.
  - eapply Forall_sub; [apply kept_sublist|done].
  - apply Forall_bind, Forall_forall. intros a Ha. apply Forall_forall.
    intros c Hc'. simpl.
    apply value_elem in Ha as [k Hka].
    apply (kept_elem q k a Hq) in Hka as [Hka Hnot].
    assert (Hav : a ∈ Dict.values (nodes self1)).
    { rewrite Hn1. apply value_elem; eauto. }
    assert (Hcv : c ∈ Dict.values (nodes self1)) by (by eapply wf_closed).
    apply value_elem. exists (name_of (mem self1) c).
    assert (Hcin : (name_of (mem self1) c, c) ∈ nodes self).
    { rewrite <- Hn1. by apply wf_value. }
    apply (kept_elem q _ c Hq). split; [done|].
    intros Hsc%Hsub. apply rtc_inv_r in Hsc as [<-|(y & Hxy & Hyc)].
    + apply Hnp. unfold child_refs. apply list_elem_of_bind. eauto.
    + assert (Hyv : y ∈ Dict.values (nodes self1)).
      { eapply wf_subtree_mapped; [done| |exact Hxy].
        rewrite Hn1. apply value_elem; eauto. }
      assert (y = a) as -> by (by eapply (wf_unique_parent self1 Hwf1)).
      by apply Hnot, Hsub.
  - eapply sublist_NoDup; [exact Hp|]. unfold child_refs. rewrite Hn1.
    by apply bind_sublist.
  - eapply Forall_sub; [apply kept_sublist|done].
Qed.

End delete.

(** C4: on a well-formed tree, [delete] of a name of the dictionary returns
    [True] (with as much fuel as the dictionary has entries) and removes from
    the dictionary exactly the entries of that node and of its descendants;
    if the node was the root the root becomes unset; [delete] of a name that
    is not in the dictionary returns [False] and changes nothing. *)
Theorem delete_removes_subtree self X :
  wf self →
  match Dict.get X (nodes self) with
  | None => ∀ fuel, delete fuel X self = Some (false, self)
  | Some x =>
      ∃ self',
        (∀ fuel, (length (nodes self) ≤ fuel)%nat →
           delete fuel X self = Some (true, self'))
        ∧ (∀ k a, Dict.get k (nodes self') = Some a
                  ↔ Dict.get k (nodes self) = Some a
                    ∧ ¬ in_subtree (mem self) x a)
        ∧ (root self = Some x → root self' = None)
        ∧ wf self'
  end.
Proof.
  intros Hwf. destruct (Dict.get X (nodes self)) as [x|] eqn:HX.
  2:{ intros fuel. by apply delete_absent. }
  destruct (delete_present self Hwf X x HX (length (nodes self)))
    as (q & Hq & Hdel); [done|].
  pose proof (delete_wf self Hwf X x HX q Hq) as Hwf'.
  eexists. split_and!; [| | |exact Hwf'].
  - intros fuel Hfuel.
    destruct (delete_present self Hwf X x HX fuel Hfuel) as (q' & Hq' & ->).
    by rewrite (kept_ext self Hwf X x HX q' q).
  - intros k a. cbn [nodes]. rewrite (wf_get _ Hwf'). cbn [nodes].
    rewrite (kept_elem self Hwf X x HX q k a Hq). by rewrite (wf_get _ Hwf).
  - intros Hr. cbn [root]. unfold root_after. rewrite Hr.
    rewrite decide_True; [done|].
    apply wf_name_of; [done|]. by apply get_Some_elem.
Qed.

End DeleteFacts.

(** ** Trees built by [add] and [delete] *)

Module ForestFacts.
Import DepartmentHierarchy Tree DictFacts TreeFacts DeleteFacts.

(** *** A well-formed state with increasing references is a forest *)

Lemma link_child_refs self p c : link self p c → c ∈ child_refs self.
Proof.
  intros [Hp Hc]. unfold child_refs. apply list_elem_of_bind. eauto.
Qed.

Lemma child_refs_link self c :
  c ∈ child_refs self → ∃ p, link self p c.
Proof.
  unfold child_refs. intros (p & Hc & Hp)%list_elem_of_bind.
  exists p. by split.
Qed.

Lemma path_to_inv self l a :
  path_to self l a →
  (l = [a] ∧ top self a)
  ∨ ∃ l0 p, l = l0 ++ [a] ∧ path_to self l0 p ∧ link self p a.
Proof. destruct 1; eauto 10. Qed.

Lemma path_to_unique self l1 l2 a :
  wf self → path_to self l1 a → path_to self l2 a → l1 = l2.
Proof.
  intros Hwf H1. revert l2.
  induction H1 as [a [_ Ha]|l p a H1 IH Hpa]; intros l2 H2;
    apply path_to_inv in H2 as [[-> [_ Ha']]|(l' & p' & -> & H2 & Hpa')].
  - done.
  - destruct Ha. by eapply link_child_refs.
  - destruct Ha'. by eapply link_child_refs.
  - destruct Hpa as [Hp Hpa], Hpa' as [Hp' Hpa'].
    assert (p = p') as -> by (by eapply (wf_unique_parent self Hwf)).
    f_equal. by apply IH.
Qed.

Lemma path_to_exists self a :
  increasing (mem self) → a ∈ Dict.values (nodes self) →
  ∃ l, path_to self l a.
Proof.
  intros Hinc. induction (lt_wf a) as [a _ IH]. intros Ha.
  destruct (decide (a ∈ child_refs self)) as [Hin|Hnin].
  - apply child_refs_link in Hin as [p Hpa].
    destruct (IH p) as [l Hl]; [apply Hinc, Hpa|apply Hpa|].
    exists (l ++ [a]). by eapply path_step.
  - exists [a]. by apply path_top.
Qed.

Lemma increasing_tc self a b :
  increasing (mem self) → tc (link self) a b → a < b.
Proof.
  intros Hinc H. induction H as [a b [_ H]|a b c [_ H] _ IH].
  - by apply Hinc.
  - apply Hinc in H. lia.
Qed.

Lemma inv_forest self : inv self → forest self.
Proof.
  intros (Hwf & Hinc & Hroot). split_and!.
  - intros k a Hka%get_Some_value.
    destruct (path_to_exists self a Hinc Hka) as [l Hl].
    exists l. split; [done|]. intros l' Hl'. by eapply path_to_unique.
  - done.
  - intros a Ha%increasing_tc; [lia|done].
Qed.

(** *** [add] *)

Lemma add_existing name parent head employees budget perf self :
  is_Some (Dict.get name (nodes self)) →
  add name parent head employees budget perf self = (false, self).
Proof. intros H%mem_true. unfold add. by rewrite H. Qed.

(** The state right after [self.nodes[name] = new_node]. *)
Definition alloc (name : string) (head employees budget perf : value)
    (self : t) : t :=
  mk (root self) (nodes self ++ [(name, length (mem self))])
    (mem self ++ [DepartmentNode.init name head employees budget perf]).

Lemma add_fresh name parent head employees budget perf self :
  Dict.get name (nodes self) = None →
  add name parent head employees budget perf self
  = (true,
     let self0 := alloc name head employees budget perf self in
     let new_node := length (mem self) in
     match parent with
     | None => root_if_unset new_node self0
     | Some parent =>
         if decide (parent = "") then root_if_unset new_node self0
         else match Dict.get parent (nodes self0) with
              | Some parent_node => append_child parent_node new_node self0
              | None => root_if_unset new_node self0
              end
     end).
Proof.
  intros Hfresh. unfold add.
  rewrite (proj2 (mem_false _ _) Hfresh), set_fresh by done.
  fold (alloc name head employees budget perf self).
  destruct parent as [parent|]; [|done].
  destruct (decide (parent = "")); [done|].
  by destruct (Dict.get parent _).
Qed.

Lemma children_of_app_l (m : memory) n a :
  a < length m → children_of (m ++ [n]) a = children_of m a.
Proof. intros Ha. unfold children_of. by rewrite lookup_app_l. Qed.

Lemma child_refs_lt self c :
  wf self → c ∈ child_refs self → c < length (mem self).
Proof.
  intros Hwf Hc. apply (wf_value_lt self Hwf).
  destruct Hwf as (_ & _ & Hcl & _). rewrite Forall_forall in Hcl. auto.
Qed.

Section alloc.
Context (self : t) (Hwf : wf self) (name : string).
Context (head employees budget perf : value).
Context (Hfresh : Dict.get name (nodes self) = None).

Let self0 := alloc name head employees budget perf self.
Let new := length (mem self).

Lemma alloc_values : Dict.values (nodes self0) = Dict.values (nodes self) ++ [new].
Proof. unfold Dict.values. simpl. by rewrite fmap_app. Qed.

Lemma alloc_children a :
  children_of (mem self0) a = children_of (mem self) a.
Proof.
  unfold children_of. simpl.
  destruct (decide (a < length (mem self))) as [Hlt|Hge].
  - by rewrite lookup_app_l.
  - rewrite (lookup_ge_None_2 (mem self)) by lia.
    destruct (decide (a = length (mem self))) as [->|Hne].
    + by rewrite list_lookup_middle.
    + rewrite lookup_ge_None_2; [done|]. rewrite length_app. simpl. lia.
Qed.

Lemma alloc_child_refs : child_refs self0 = child_refs self.
Proof.
  unfold child_refs. rewrite alloc_values, bind_app, bind_singleton.
  rewrite alloc_children. unfold children_of at 2.
  rewrite (lookup_ge_None_2 (mem self)) by done. simpl.
  rewrite app_nil_r. apply bind_ext_in. intros a _. apply alloc_children.
Qed.

Lemma alloc_new_value : new ∈ Dict.values (nodes self0).
Proof. rewrite alloc_values, elem_of_app. right. left. Qed.

Lemma alloc_new_no_parent : new ∉ child_refs self0.
Proof.
  rewrite alloc_child_refs. intros H%child_refs_lt; [|done].
  unfold new in H. lia.
Qed.

Lemma alloc_wf : wf self0.
Proof.
  pose proof Hwf as (Hk & Hn & Hc & Hp & He).
  unfold wf. rewrite alloc_child_refs, alloc_values. split_and!.
  - unfold Dict.keys. simpl. rewrite fmap_app. apply NoDup_app.
    split_and!; [done| |apply NoDup_singleton].
    intros k Hk1 ->%list_elem_of_singleton. by apply get_None in Hfresh.
  - simpl. apply Forall_app. split.
    + rewrite Forall_forall in Hn |- *. intros kv Hkv.
      rewrite <- (Hn kv Hkv). f_equal. apply lookup_app_l.
      apply (wf_value_lt self Hwf). apply value_elem.
      exists kv.1. by destruct kv.
    + apply Forall_singleton. simpl. by rewrite list_lookup_middle.
  - eapply Forall_impl; [exact Hc|]. intros c Hc'. simpl in Hc'.
    rewrite elem_of_app. by left.
  - done.
  - simpl. apply Forall_app. split.
    + eapply Forall_impl; [exact He|]. intros kv Hkv Hemp.
      rewrite alloc_children. by apply Hkv.
    + apply Forall_singleton. intros _. rewrite alloc_children.
      unfold children_of. by rewrite (lookup_ge_None_2 (mem self)).
Qed.

Lemma alloc_increasing : increasing (mem self) → increasing (mem self0).
Proof.
  intros Hinc a c Hac. apply Hinc. unfold child in *.
  by rewrite alloc_children in Hac.
Qed.

Lemma alloc_get k :
  Dict.get k (nodes self0)
  = if decide (name = k) then Some new else Dict.get k (nodes self).
Proof. simpl. by apply get_snoc. Qed.

End alloc.

(** *** Appending a child *)

Section attach.
Context (self : t) (Hwf : wf self) (p c : addr).
Context (Hp : p ∈ Dict.values (nodes self)).
Context (Hc : c ∈ Dict.values (nodes self)).
Context (Hfree : c ∉ child_refs self).
Context (Hname : name_of (mem self) p ≠ "").

Let self' := append_child p c self.

Lemma attach_children a :
  children_of (mem self') a
  = children_of (mem self) a ++ (if decide (a = p) then [c] else []).
Proof.
  simpl. destruct (decide (a = p)) as [->|Hne].
  - unfold children_of. rewrite list_lookup_alter_eq.
    pose proof (wf_value_lt self Hwf p Hp) as Hlt.
    apply lookup_lt_is_Some_2 in Hlt as [n Hn]. by rewrite Hn.
  - rewrite children_of_alter_ne by done. by rewrite app_nil_r.
Qed.

Lemma attach_lookup_name a :
  DepartmentNode.name <$> mem self' !! a = DepartmentNode.name <$> mem self !! a.
Proof.
  simpl. destruct (decide (p = a)) as [->|Hne].
  - rewrite list_lookup_alter_eq. by destruct (mem self !! a).
  - by rewrite list_lookup_alter_ne.
Qed.

Lemma attach_child_refs : child_refs self' ≡ₚ c :: child_refs self.
Proof.
  unfold child_refs. change (nodes self') with (nodes self).
  pose proof (wf_values_NoDup self Hwf) as Hnd.
  destruct (list_elem_of_split _ _ Hp) as (l1 & l2 & Heq).
  rewrite Heq in Hnd |- *.
  apply NoDup_app in Hnd as (_ & Hl1 & [Hl2 _]%NoDup_cons).
  rewrite !bind_app, !bind_cons.
  rewrite attach_children, decide_True by done.
  rewrite (bind_ext_in (children_of (mem self')) (children_of (mem self)) l1).
  2:{ intros a Ha. rewrite attach_children, decide_False, app_nil_r; [done|].
      intros ->. apply (Hl1 p Ha). left. }
  rewrite (bind_ext_in (children_of (mem self')) (children_of (mem self)) l2).
  2:{ intros a Ha. rewrite attach_children, decide_False, app_nil_r; [done|].
      by intros ->. }
  rewrite <- !app_assoc. simpl.
  rewrite (app_assoc _ (children_of (mem self) p)).
  by rewrite <- Permutation_middle, <- app_assoc.
Qed.

Lemma attach_wf : wf self'.
Proof.
  pose proof Hwf as (Hk & Hn & Hcl & Hpar & He).
  unfold wf. rewrite attach_child_refs. split_and!.
  - done.
  - eapply Forall_impl; [exact Hn|]. intros kv Hkv.
    by rewrite attach_lookup_name.
  - by constructor.
  - by constructor.
  - rewrite Forall_forall in He |- *. intros [k a] Hka Hemp.
    change (nodes self') with (nodes self) in Hka.
    cbn [fst snd] in *. subst k. rewrite attach_children.
    pose proof (He _ Hka eq_refl) as Hnil. cbn [snd] in Hnil. rewrite Hnil.
    destruct (decide (a = p)) as [->|]; [|done].
    destruct Hname. by apply (wf_name_of self Hwf).
Qed.

Lemma attach_increasing :
  p < c → increasing (mem self) → increasing (mem self').
Proof.
  intros Hlt Hinc a b Hab. unfold child in Hab.
  rewrite attach_children in Hab. apply elem_of_app in Hab as [Hab|Hab].
  - by apply Hinc.
  - destruct (decide (a = p)) as [->|]; [|by apply elem_of_nil in Hab].
    by apply list_elem_of_singleton in Hab as ->.
Qed.

End attach.

(** *** [add] and [delete] keep the invariant *)

Lemma root_if_unset_inv node self :
  wf self → increasing (mem self) →
  (∀ r, root self = Some r → top self r) → top self node →
  inv (root_if_unset node self).
Proof.
  intros Hwf Hinc Hroot Hnode. unfold root_if_unset.
  destruct (root self) as [r|] eqn:Hr.
  - split_and!; [done|done|]. intros r'. rewrite Hr. apply Hroot.
  - split_and!; [done|done|]. by intros r' [= <-].
Qed.

Lemma add_inv name parent head employees budget perf self :
  inv self → proper (Add name parent head employees budget perf) →
  inv (add name parent head employees budget perf self).2.
Proof.
  intros (Hwf & Hinc & Hroot) Hproper.
  destruct (Dict.get name (nodes self)) as [a|] eqn:Hget.
  { rewrite add_existing by done. done. }
  rewrite add_fresh by done. cbn [snd].
  set (self0 := alloc name head employees budget perf self).
  pose proof (alloc_wf self Hwf name head employees budget perf Hget) as Hwf0.
  pose proof (alloc_increasing self name head employees budget perf Hinc)
    as Hinc0.
  pose proof (alloc_child_refs self name head employees budget perf) as Hrefs.
  pose proof (alloc_values self name head employees budget perf) as Hvals.
  pose proof (alloc_new_value self name head employees budget perf) as Hnew.
  pose proof (alloc_new_no_parent self Hwf name head employees budget perf)
    as Hnewfree.
  fold self0 in Hwf0, Hinc0, Hrefs, Hvals, Hnew, Hnewfree.
  assert (Hroot0 : ∀ r, root self0 = Some r → top self0 r).
  { intros r Hr. destruct (Hroot r Hr) as [Hrv Hrc]. split.
    - rewrite Hvals, elem_of_app. by left.
    - by rewrite Hrefs. }
  assert (Hunset : inv (root_if_unset (length (mem self)) self0)).
  { by apply root_if_unset_inv. }
  destruct parent as [parent|]; [|done].
  destruct (decide (parent = "")) as [|Hne]; [done|].
  destruct (Dict.get parent (nodes self0)) as [p|] eqn:Hp; [|done].
  simpl in Hproper.
  unfold self0 in Hp. rewrite alloc_get in Hp by done.
  rewrite decide_False in Hp by done.
  assert (Hpv : p ∈ Dict.values (nodes self)) by (by eapply get_Some_value).
  assert (Hpv0 : p ∈ Dict.values (nodes self0)).
  { rewrite Hvals, elem_of_app. by left. }
  assert (Hpname : name_of (mem self0) p ≠ "").
  { rewrite (wf_name_of self0 Hwf0 parent p); [done|].
    simpl. rewrite elem_of_app. left. by apply get_Some_elem. }
  pose proof (wf_value_lt self Hwf p Hpv) as Hplt.
  split_and!.
  - by apply attach_wf.
  - by apply attach_increasing.
  - intros r Hr. destruct (Hroot0 r Hr) as [Hrv Hrc]. split; [done|].
    rewrite (attach_child_refs self0 Hwf0 p _ Hpv0).
    rewrite not_elem_of_cons. split; [|done].
    destruct (Hroot r Hr) as [Hrv' _].
    apply (wf_value_lt self Hwf) in Hrv'. lia.
Qed.

Lemma add_nodes_length name parent head employees budget perf self :
  (length (nodes (add name parent head employees budget perf self).2)
   ≤ S (length (nodes self)))%nat.
Proof.
  destruct (Dict.get name (nodes self)) as [a|] eqn:Hget.
  { rewrite add_existing by done. simpl. lia. }
  rewrite add_fresh by done. cbn [snd]. cbv zeta.
  assert (Hlen : length (nodes (alloc name head employees budget perf self))
                 = S (length (nodes self))).
  { simpl. rewrite length_app. simpl. lia. }
  assert (Hroot : ∀ node s, nodes (root_if_unset node s) = nodes s).
  { intros node s. unfold root_if_unset. by destruct (root s). }
  destruct parent as [parent|]; [|by rewrite Hroot, Hlen].
  destruct (decide _); [by rewrite Hroot, Hlen|].
  destruct (Dict.get parent _); [|by rewrite Hroot, Hlen].
  change (nodes (append_child ?a ?b ?s)) with (nodes s). by rewrite Hlen.
Qed.

Lemma delete_inv self X x q :
  inv self → Dict.get X (nodes self) = Some x →
  (∀ b, b ∈ q ↔ in_subtree (mem self) x b) →
  inv (mk (root_after self X) (kept self q)
         (mem (find_parent_and_remove X
                 (mk (root_after self X) (nodes self) (mem self))))).
Proof.
  intros (Hwf & Hinc & Hroot) HX Hq.
  assert (Hwf0 : wf (mk (root_after self X) (nodes self) (mem self))) by done.
  pose proof (get_Some_elem _ _ _ HX) as HXin.
  pose proof (detach_children _ Hwf0 X x HXin) as Hch. simpl in Hch.
  assert (Hsubch : ∀ a c,
            child (mem (find_parent_and_remove X
                    (mk (root_after self X) (nodes self) (mem self)))) a c →
            child (mem self) a c).
  { intros a c. unfold child. rewrite Hch. destruct (decide _); [|done].
    by intros [_ ?]%list_elem_of_filter. }
  split_and!.
  - apply (delete_wf self Hwf X x HX q Hq).
  - intros a c Hac. by apply Hinc, Hsubch.
  - cbn [root]. intros r Hr. unfold root_after in Hr.
    destruct (root self) as [r'|] eqn:Hr'; [|done].
    destruct (decide _) as [|Hne]; [done|]. injection Hr as ->.
    destruct (Hroot r eq_refl) as [Hrv Hrc].
    apply (wf_value self Hwf) in Hrv.
    split.
    + cbn [nodes]. apply value_elem. exists (name_of (mem self) r).
      apply (kept_elem self Hwf X x HX q _ _ Hq). split; [done|].
      intros [<-|(y & Hxy & Hyr)]%rtc_inv_r.
      * apply Hne. by apply wf_name_of.
      * apply Hrc. eapply link_child_refs. split; [|exact Hyr].
        eapply wf_subtree_mapped; [done| |exact Hxy].
        by eapply get_Some_value.
    + intros (a & Hra & Ha)%list_elem_of_bind. cbn [nodes mem] in *.
      apply Hrc. eapply link_child_refs. split; [|by apply Hsubch].
      apply value_elem in Ha as [k Hk].
      apply (kept_elem self Hwf X x HX q _ _ Hq) in Hk as [Hk _].
      apply value_elem. eauto.
Qed.

Lemma kept_length self q : (length (kept self q) ≤ length (nodes self))%nat.
Proof. apply length_filter. Qed.

Lemma init_inv : inv init.
Proof.
  split_and!.
  - apply (bool_decide_unpack _). by vm_compute.
  - intros a c Hac. unfold child, children_of in Hac. simpl in Hac.
    by apply elem_of_nil in Hac.
  - done.
Qed.

(** Running a sequence of proper operations from a state that satisfies
    the invariant. *)
Lemma run_inv ops self n :
  inv self → (length (nodes self) ≤ n)%nat → Forall proper ops →
  ∃ self',
    (∀ fuel, (n + length ops ≤ fuel)%nat → run fuel ops self = Some self')
    ∧ inv self'.
Proof.
  revert self n. induction ops as [|o ops IH]; intros self n Hinv Hn Hops.
  { exists self. by split. }
  apply Forall_cons in Hops as [Ho Hops].
  destruct o as [name parent head employees budget perf|X].
  - destruct (IH (add name parent head employees budget perf self).2 (S n))
      as (self' & Hrun & Hinv'); [by apply add_inv| |done|].
    { pose proof (add_nodes_length name parent head employees budget perf self).
      lia. }
    exists self'. split; [|done]. intros fuel Hfuel. simpl.
    apply Hrun. simpl in Hfuel. lia.
  - destruct (Dict.get X (nodes self)) as [x|] eqn:HX.
    + pose proof Hinv as (Hwf & _).
      destruct (delete_present self Hwf X x HX (length (nodes self)))
        as (q & Hq & _); [done|].
      destruct (IH _ n (delete_inv self X x q Hinv HX Hq))
        as (self' & Hrun & Hinv'); [|done|].
      { cbn [nodes]. pose proof (kept_length self q). lia. }
      exists self'. split; [|done]. intros fuel Hfuel. cbn [run step].
      destruct (delete_present self Hwf X x HX fuel) as (q' & Hq' & ->).
      { simpl in Hfuel. lia. }
      cbn [fmap option_fmap option_map mbind option_bind snd].
      rewrite (kept_ext self Hwf X x HX q' q) by done.
      apply Hrun. simpl in Hfuel. lia.
    + destruct (IH self n) as (self' & Hrun & Hinv'); [done..|].
      exists self'. split; [|done]. intros fuel Hfuel. cbn [run step].
      rewrite delete_absent by done.
      cbn [fmap option_fmap option_map mbind option_bind snd].
      apply Hrun. simpl in Hfuel. lia.
Qed.

(** C2, amended: after any sequence of [add] and [delete] calls on an empty
    tree in which no [add] names the new node as its own parent, every name
    of the dictionary is reached by exactly one chain of child links from a
    parentless node of the dictionary, the root (when set) is such a
    parentless node, and no node is its own descendant. *)
Theorem add_delete_forest ops :
  Forall proper ops →
  ∃ self,
    (∀ fuel, (length ops ≤ fuel)%nat → run fuel ops init = Some self)
    ∧ forest self.
Proof.
  intros Hops.
  destruct (run_inv ops init 0 init_inv) as (self & Hrun & Hinv);
    [simpl; lia|done|].
  exists self. split; [|by apply inv_forest].
  intros fuel Hfuel. by apply Hrun.
Qed.

End ForestFacts.

(** ** The example trees *)

Module ExampleFacts.
Import DepartmentHierarchy Tree DictFacts TreeFacts DeleteFacts ForestFacts.
Import Examples.

Lemma tree_AB_wf : wf tree_AB.
Proof. apply (bool_decide_unpack _). by vm_compute. Qed.

Lemma tree_X_empty_wf : wf tree_X_empty.
Proof. apply (bool_decide_unpack _). by vm_compute. Qed.

Lemma delete_removes_subtree_witness :
  wf tree_AB
  ∧ ∃ self',
      (∀ fuel, (2 ≤ fuel)%nat → delete fuel "A" tree_AB = Some (true, self'))
      ∧ (∀ k a, Dict.get k (nodes self') = Some a
                ↔ Dict.get k (nodes tree_AB) = Some a
                  ∧ ¬ in_subtree (mem tree_AB) 0 a)
      ∧ (root tree_AB = Some 0 → root self' = None)
      ∧ wf self'.
Proof.
  split; [apply tree_AB_wf|].
  exact (delete_removes_subtree tree_AB "A" tree_AB_wf).
Defined.

(** C2 as stated fails: after three [add] calls without a parent, [A] is the
    root and neither [B] nor [C] can be reached from it. *)
Lemma three_adds_two_orphans :
  ∃ self,
    run 3 three_adds init = Some self
    ∧ root self = Some 0
    ∧ Dict.get "B" (nodes self) = Some 1
    ∧ Dict.get "C" (nodes self) = Some 2
    ∧ ¬ in_subtree (mem self) 0 1
    ∧ ¬ in_subtree (mem self) 0 2.
Proof.
  eexists. split; [reflexivity|]. split_and!; [reflexivity..| |].
  - intros [?|(y & Hy & _)]%rtc_inv; [done|].
    unfold child in Hy. vm_compute in Hy. by apply elem_of_nil in Hy.
  - intros [?|(y & Hy & _)]%rtc_inv; [done|].
    unfold child in Hy. vm_compute in Hy. by apply elem_of_nil in Hy.
Qed.

Lemma add_delete_forest_witness :
  Forall proper adds_and_delete
  ∧ ∃ self,
      (∀ fuel, (4 ≤ fuel)%nat → run fuel adds_and_delete init = Some self)
      ∧ forest self.
Proof.
  assert (H : Forall proper adds_and_delete).
  { repeat constructor. simpl. done. }
  split; [exact H|]. exact (add_delete_forest adds_and_delete H).
Defined.

End ExampleFacts.

(** ** [edit] *)

Module EditFacts.
Import DepartmentHierarchy Tree DictFacts TreeFacts Examples.

Section edit.
Variable int_ : value → PyExn + Z.
Variable float_ : value → PyExn + spec_float.

Lemma edit_absent name new_name head employees budget perf parent self :
  Dict.get name (nodes self) = None →
  edit int_ float_ name new_name head employees budget perf parent self
  = (Return false, self).
Proof. unfold edit. by intros ->. Qed.

Lemma edit_meta_none node self :
  edit_meta int_ float_ node VNone VNone VNone VNone self = (Return (), self).
Proof. done. Qed.

Lemma edit_only_parent name node parent self :
  Dict.get name (nodes self) = Some node →
  edit int_ float_ name None VNone VNone VNone VNone parent self
  = (Return true, edit_reparent node parent self).
Proof. unfold edit. by intros ->. Qed.

(** Attaching [x] under the node named [P]: every children list of the
    dictionary loses [x], then [P]'s list gets [x] at its end. *)
Lemma edit_reparent_attach self X x P p :
  wf self → (X, x) ∈ nodes self → Dict.get P (nodes self) = Some p → P ≠ "" →
  let self' := edit_reparent x (Some P) self in
  root self' = root self ∧ nodes self' = nodes self
  ∧ (∀ c, name_of (mem self') c = name_of (mem self) c)
  ∧ ∀ a, children_of (mem self') a =
      (if decide (a ∈ Dict.values (nodes self))
       then filter (λ c, c ≠ x) (children_of (mem self) a)
       else children_of (mem self) a)
      ++ (if decide (a = p) then [x] else []).
Proof.
  intros Hwf HX HP HPne. unfold edit_reparent.
  rewrite decide_False by done.
  rewrite (wf_name_of self Hwf X x HX).
  pose proof (find_parent_and_remove_spec X self) as (Hr & Hn & Hnm & Hm).
  pose proof (find_parent_and_remove_children X self) as Hch.
  pose proof (find_parent_and_remove_length X self) as Hlen.
  set (self1 := find_parent_and_remove X self) in *.
  rewrite Hn, HP. cbn [append_child setattr root nodes mem].
  assert (Hp : p ∈ Dict.values (nodes self)) by (by eapply get_Some_value).
  split_and!; [done|done| |].
  - intros c. by rewrite name_of_alter.
  - intros a. destruct (decide (a = p)) as [->|Hne].
    + assert (Hlt : p < length (mem self1)).
      { rewrite Hlen. by apply wf_value_lt. }
      apply lookup_lt_is_Some_2 in Hlt as [n Hn1].
      unfold children_of at 1. rewrite list_lookup_alter_eq, Hn1. simpl.
      f_equal. rewrite <- (children_of_lookup _ _ _ Hn1), Hch.
      destruct (decide (p ∈ Dict.values (nodes self))); [|done].
      by apply wf_filter_name.
    + rewrite children_of_alter_ne by done. rewrite Hch, app_nil_r.
      destruct (decide (a ∈ Dict.values (nodes self))); [|done].
      by apply wf_filter_name.
Qed.

(** C9: with the empty string as the new name, [edit] on an existing node
    renames nothing and returns [True]: the state is unchanged, and for any
    other arguments the call behaves as if [new_name] had been omitted. *)
Theorem edit_empty_new_name self name node :
  Dict.get name (nodes self) = Some node →
  edit int_ float_ name (Some "") VNone VNone VNone VNone None self
  = (Return true, self)
  ∧ ∀ head employees budget perf parent,
      edit int_ float_ name (Some "") head employees budget perf parent self
      = edit int_ float_ name None head employees budget perf parent self.
Proof.
  intros Hget. split.
  - unfold edit. by rewrite Hget.
  - intros. unfold edit. rewrite Hget.
    destruct (edit_meta _ _ _ _ _ _ _ _) as [[?|?] ?]; [|done].
    unfold edit_rename. by rewrite decide_False by naive_solver.
Qed.

(** C10, amended: when the root [X] is reparented under a node [P] of the
    dictionary whose name is not empty, [X] is appended to [P]'s children
    and the root reference still points to [X]. *)
Theorem reparent_root_keeps_root self X P x p :
  wf self → root self = Some x →
  Dict.get X (nodes self) = Some x → Dict.get P (nodes self) = Some p →
  P ≠ "" →
  ∃ self',
    edit int_ float_ X None VNone VNone VNone VNone (Some P) self
    = (Return true, self')
    ∧ root self' = Some x
    ∧ children_of (mem self') p
      = filter (λ c, c ≠ x) (children_of (mem self) p) ++ [x].
Proof.
  intros Hwf Hroot HX HP HPne. eexists. split; [by apply edit_only_parent|].
  apply get_Some_elem in HX.
  destruct (edit_reparent_attach self X x P p Hwf HX HP HPne)
    as (Hr & _ & _ & Hch).
  split; [by rewrite Hr|]. rewrite Hch.
  destruct (decide (p ∈ Dict.values (nodes self))) as [|Hn];
    [|by destruct Hn; eapply get_Some_value].
  by destruct (decide (p = p)).
Qed.

(** C3, amended: reparenting [X] under a node [P] of its own subtree is not
    detected.  [edit] returns [True] and leaves the root reference and the
    dictionary as they are; [X] is taken out of the children of every node
    of the dictionary, those of its former parent among them, and becomes
    the last child of [P]; no children list changes otherwise.  [X] is then
    a proper descendant of itself. *)
Theorem reparent_into_subtree_makes_cycle self X P x p :
  wf self →
  Dict.get X (nodes self) = Some x → Dict.get P (nodes self) = Some p →
  P ≠ "" → in_subtree (mem self) x p →
  ∃ self',
    edit int_ float_ X None VNone VNone VNone VNone (Some P) self
    = (Return true, self')
    ∧ root self' = root self ∧ nodes self' = nodes self
    ∧ (∀ q, q ∈ Dict.values (nodes self) → q ≠ p →
         children_of (mem self') q
         = filter (λ c, c ≠ x) (children_of (mem self) q))
    ∧ (∀ q, q ≠ p → child (mem self) q x → q ∈ Dict.values (nodes self) →
         ¬ child (mem self') q x)
    ∧ children_of (mem self') p
      = filter (λ c, c ≠ x) (children_of (mem self) p) ++ [x]
    ∧ (∀ a, a ∉ Dict.values (nodes self) →
         children_of (mem self') a = children_of (mem self) a)
    ∧ last (children_of (mem self') p) = Some x
    ∧ tc (child (mem self')) x x.
Proof.
  intros Hwf HX HP HPne Hsub. eexists. split; [by apply edit_only_parent|].
  pose proof (get_Some_value _ _ _ HX) as Hxv.
  apply get_Some_elem in HX.
  destruct (edit_reparent_attach self X x P p Hwf HX HP HPne)
    as (Hr & Hn & _ & Hch).
  set (self' := edit_reparent x (Some P) self) in *.
  assert (Hchp : children_of (mem self') p
                 = filter (λ c, c ≠ x) (children_of (mem self) p) ++ [x]).
  { rewrite Hch.
    destruct (decide (p ∈ Dict.values (nodes self))) as [|Hnp];
      [|by destruct Hnp; eapply get_Some_value].
    by destruct (decide (p = p)). }
  assert (Hchq : ∀ q, q ∈ Dict.values (nodes self) → q ≠ p →
            children_of (mem self') q
            = filter (λ c, c ≠ x) (children_of (mem self) q)).
  { intros q Hq Hqp. rewrite Hch, decide_True, decide_False by done.
    apply app_nil_r. }
  assert (Hpx : child (mem self') p x).
  { unfold child. rewrite Hchp, elem_of_app. right. left. }
  split; [exact Hr|]. split; [exact Hn|]. split; [exact Hchq|].
  split.
  { intros q Hqp _ Hq. unfold child. rewrite (Hchq q Hq Hqp).
    by intros [Hne _]%list_elem_of_filter. }
  split; [exact Hchp|].
  split.
  { intros a Ha. rewrite Hch, decide_False by done.
    destruct (decide (a = p)) as [->|?]; [|apply app_nil_r].
    by destruct Ha; eapply get_Some_value. }
  split.
  { by rewrite Hchp, last_snoc. }
  eapply tc_rtc_l; [|by apply tc_once].
  assert (Hgen : ∀ a, rtc (child (mem self)) x a →
            a ∈ Dict.values (nodes self) ∧ rtc (child (mem self')) x a).
  { apply rtc_ind_r; [done|]. intros y z Hxy Hyz [Hyv IH].
    - split; [by eapply wf_closed|].
      destruct (decide (z = x)) as [->|Hne]; [done|].
      eapply rtc_r; [exact IH|].
      unfold child. rewrite Hch, elem_of_app. left.
      destruct (decide (y ∈ Dict.values (nodes self))); [|done].
      by apply list_elem_of_filter. }
  by apply Hgen.
Qed.

(** *** The attribute updates *)

Lemma attrs_alter f b (m : memory) a :
  (∀ n, attrs (f n) = attrs n) →
  attrs <$> alter f b m !! a = attrs <$> m !! a.
Proof.
  intros Hf. destruct (decide (b = a)) as [->|Hne].
  - rewrite list_lookup_alter_eq. destruct (m !! a); simpl; [|done].
    by rewrite Hf.
  - by rewrite list_lookup_alter_ne.
Qed.

Lemma find_parent_and_remove_attrs name self a :
  attrs <$> mem (find_parent_and_remove name self) !! a
  = attrs <$> mem self !! a.
Proof.
  destruct (find_parent_and_remove_spec name self) as (_ & _ & _ & Hm).
  rewrite Hm. destruct (mem self !! a); simpl; [|done].
  by destruct (decide _).
Qed.

Lemma fix_child_names_attrs name new_name self a :
  attrs <$> mem (fix_child_names name new_name self) !! a
  = attrs <$> mem self !! a.
Proof.
  unfold fix_child_names.
  generalize (Dict.values (nodes self)) as l. intros l. revert self.
  induction l as [|b l IH]; intros self; simpl; [done|].
  rewrite IH. clear IH.
  generalize (children_of (mem self) b) as cs. intros cs. revert self.
  induction cs as [|c cs IH]; intros self; simpl; [done|].
  rewrite IH. destruct (decide _); [|done].
  by apply attrs_alter.
Qed.

Lemma edit_rename_attrs name new_name node self self' a :
  edit_rename name new_name node self = Some self' →
  attrs <$> mem self' !! a = attrs <$> mem self !! a.
Proof.
  unfold edit_rename. destruct new_name as [new_name|]; [|by intros [= <-]].
  destruct (decide _); [|by intros [= <-]].
  destruct (Dict.mem _ _); [done|]. intros [= <-].
  rewrite fix_child_names_attrs. simpl. by apply attrs_alter.
Qed.

Lemma root_if_unset_mem node self : mem (root_if_unset node self) = mem self.
Proof. unfold root_if_unset. by destruct (root self). Qed.

Lemma edit_reparent_attrs node parent self a :
  attrs <$> mem (edit_reparent node parent self) !! a
  = attrs <$> mem self !! a.
Proof.
  unfold edit_reparent. destruct parent as [parent|]; [|done].
  set (self1 := find_parent_and_remove _ self).
  assert (H1 : attrs <$> mem self1 !! a = attrs <$> mem self !! a)
    by apply find_parent_and_remove_attrs.
  destruct (decide _); [by rewrite root_if_unset_mem|].
  destruct (Dict.get _ _); [|by rewrite root_if_unset_mem].
  simpl. rewrite <- H1. by apply attrs_alter.
Qed.

(** The attribute written by [if v is not None: node.attr = coerce(v)]. *)
Definition upd (coerce : value → PyExn + value)
    (store : value → DepartmentNode.t → DepartmentNode.t) (v : value)
    (n : DepartmentNode.t) : DepartmentNode.t :=
  match v with
  | VNone => n
  | _ => match coerce v with inr x => store x n | inl _ => n end
  end.

Lemma upd_omitted coerce store n : upd coerce store VNone n = n.
Proof. done. Qed.

Lemma upd_supplied coerce store v x n :
  v ≠ VNone → coerce v = inr x → upd coerce store v n = store x n.
Proof. intros Hv Hx. unfold upd. rewrite Hx. by destruct v. Qed.

Lemma upd_cases coerce store v n :
  accepts coerce v →
  upd coerce store v n = n ∨ ∃ x, upd coerce store v n = store x n.
Proof.
  intros [->|[x Hx]]; [by left|]. unfold upd. rewrite Hx.
  destruct v; eauto.
Qed.

Lemma value_is_none (v : value) : v = VNone ∨ v ≠ VNone.
Proof. destruct v; auto. Qed.

Lemma assign_accepts coerce store node v self n :
  mem self !! node = Some n → accepts coerce v →
  ∃ self1,
    assign coerce store node v self = (Return (), self1)
    ∧ root self1 = root self ∧ nodes self1 = nodes self
    ∧ mem self1 !! node = Some (upd coerce store v n).
Proof.
  intros Hn Hacc. destruct (value_is_none v) as [->|Hv].
  { by exists self. }
  destruct Hacc as [->|[x Hx]]; [done|].
  exists (setattr node (store x) self).
  rewrite (upd_supplied _ _ _ x) by done.
  unfold assign. rewrite Hx. simpl.
  rewrite list_lookup_alter_eq, Hn. by destruct v.
Qed.

Lemma assign_rejects coerce store node v self e :
  rejects coerce v e → assign coerce store node v self = (Raise e, self).
Proof. intros [Hv He]. unfold assign. rewrite He. by destruct v. Qed.

Lemma to_int_accepts v : accepts int_ v → accepts (to_int int_) v.
Proof.
  intros [->|[z Hz]]; [by left|]. right. unfold to_int. rewrite Hz. eauto.
Qed.

Lemma to_float_accepts v : accepts float_ v → accepts (to_float float_) v.
Proof.
  intros [->|[z Hz]]; [by left|]. right. unfold to_float. rewrite Hz. eauto.
Qed.

Lemma to_int_rejects v e : rejects int_ v e → rejects (to_int int_) v e.
Proof. intros [? He]. split; [done|]. unfold to_int. by rewrite He. Qed.

Lemma to_float_rejects v e : rejects float_ v e → rejects (to_float float_) v e.
Proof. intros [? He]. split; [done|]. unfold to_float. by rewrite He. Qed.

Lemma head_accepts v : accepts (@inr PyExn value) v.
Proof. destruct v; [by left|right; eauto..]. Qed.

(** The state after the [# update meta] block when no coercion raises. *)
Lemma edit_meta_accepts node head employees budget perf self n :
  mem self !! node = Some n →
  accepts int_ employees → accepts float_ budget → accepts float_ perf →
  ∃ self1,
    edit_meta int_ float_ node head employees budget perf self
    = (Return (), self1)
    ∧ root self1 = root self ∧ nodes self1 = nodes self
    ∧ mem self1 !! node
      = Some (upd (to_float float_) DepartmentNode.with_perf perf
               (upd (to_float float_) DepartmentNode.with_budget budget
                 (upd (to_int int_) DepartmentNode.with_employees employees
                   (upd inr DepartmentNode.with_head head n)))).
Proof.
  intros Hn He Hb Hp. unfold edit_meta.
  destruct (assign_accepts inr DepartmentNode.with_head node head self n
              Hn (head_accepts head)) as (s1 & -> & Hr1 & Hn1 & Hm1).
  cbn [and_then].
  destruct (assign_accepts _ DepartmentNode.with_employees node employees s1 _
              Hm1 (to_int_accepts _ He)) as (s2 & -> & Hr2 & Hn2 & Hm2).
  cbn [and_then].
  destruct (assign_accepts _ DepartmentNode.with_budget node budget s2 _
              Hm2 (to_float_accepts _ Hb)) as (s3 & -> & Hr3 & Hn3 & Hm3).
  cbn [and_then].
  destruct (assign_accepts _ DepartmentNode.with_perf node perf s3 _
              Hm3 (to_float_accepts _ Hp)) as (s4 & -> & Hr4 & Hn4 & Hm4).
  exists s4. split_and!; [done|congruence|congruence|done].
Qed.

Lemma edit_meta_rejects node head employees budget perf self :
  (∀ e, rejects int_ employees e →
     (edit_meta int_ float_ node head employees budget perf self).1 = Raise e)
  ∧ (∀ e, accepts int_ employees → rejects float_ budget e →
     (edit_meta int_ float_ node head employees budget perf self).1 = Raise e)
  ∧ (∀ e, accepts int_ employees → accepts float_ budget →
     rejects float_ perf e →
     (edit_meta int_ float_ node head employees budget perf self).1 = Raise e).
Proof.
  assert (Hacc : ∀ coerce store v self, accepts coerce v →
            ∃ self1, assign coerce store node v self = (Return (), self1)).
  { intros coerce store v s [->|[x Hx]]; [by eexists|].
    unfold assign. rewrite Hx. destruct v; by eexists. }
  unfold edit_meta.
  destruct (Hacc inr DepartmentNode.with_head head self (head_accepts head))
    as [s1 ->]. cbn [and_then].
  split_and!.
  - intros e He%to_int_rejects.
    by rewrite (assign_rejects _ _ _ employees _ e).
  - intros e He%to_int_accepts Hb%to_float_rejects.
    destruct (Hacc _ DepartmentNode.with_employees employees s1 He) as [s2 ->].
    cbn [and_then]. by rewrite (assign_rejects _ _ _ budget _ e).
  - intros e He%to_int_accepts Hb%to_float_accepts Hp%to_float_rejects.
    destruct (Hacc _ DepartmentNode.with_employees employees s1 He) as [s2 ->].
    cbn [and_then].
    destruct (Hacc _ DepartmentNode.with_budget budget s2 Hb) as [s3 ->].
    cbn [and_then]. by rewrite (assign_rejects _ _ _ perf _ e).
Qed.

(** C8: on an existing node, a value that [int] rejects for [employees], or
    that [float] rejects for [budget] or [perf], makes [edit] raise that
    exception to its caller; and when a coercion succeeds the attribute is
    assigned the coerced number, an integer for [employees] and a float
    for [budget] and [perf]. *)
Theorem edit_coerces_numeric_fields self name node n new_name head parent
    employees budget perf :
  Dict.get name (nodes self) = Some node → mem self !! node = Some n →
  let result :=
    edit int_ float_ name new_name head employees budget perf parent self in
  (∀ e, rejects int_ employees e → result.1 = Raise e)
  ∧ (∀ e, accepts int_ employees → rejects float_ budget e →
       result.1 = Raise e)
  ∧ (∀ e, accepts int_ employees → accepts float_ budget →
       rejects float_ perf e → result.1 = Raise e)
  ∧ (accepts int_ employees → accepts float_ budget → accepts float_ perf →
     ∃ b n',
       result.1 = Return b ∧ mem result.2 !! node = Some n'
       ∧ (∀ z, employees ≠ VNone → int_ employees = inr z →
          DepartmentNode.employees n' = VInt z)
       ∧ (∀ f, budget ≠ VNone → float_ budget = inr f →
          DepartmentNode.budget n' = VFloat f)
       ∧ (∀ f, perf ≠ VNone → float_ perf = inr f →
          DepartmentNode.perf n' = VFloat f)).
Proof.
  intros Hget Hn result. subst result. unfold edit. rewrite Hget.
  destruct (edit_meta_rejects node head employees budget perf self)
    as (R1 & R2 & R3).
  split_and!.
  - intros e He. specialize (R1 e He).
    by destruct (edit_meta _ _ _ _ _ _ _ _) as [[?|?] ?]; simplify_eq/=.
  - intros e He Hb. specialize (R2 e He Hb).
    by destruct (edit_meta _ _ _ _ _ _ _ _) as [[?|?] ?]; simplify_eq/=.
  - intros e He Hb Hp. specialize (R3 e He Hb Hp).
    by destruct (edit_meta _ _ _ _ _ _ _ _) as [[?|?] ?]; simplify_eq/=.
  - intros He Hb Hp.
    destruct (edit_meta_accepts node head employees budget perf self n
                Hn He Hb Hp) as (self1 & -> & _ & _ & Hn1).
    assert (Hattrs : ∀ self2,
              attrs <$> mem self2 !! node = attrs <$> mem self1 !! node →
              ∃ n', mem self2 !! node = Some n'
                ∧ (∀ z, employees ≠ VNone → int_ employees = inr z →
                   DepartmentNode.employees n' = VInt z)
                ∧ (∀ f, budget ≠ VNone → float_ budget = inr f →
                   DepartmentNode.budget n' = VFloat f)
                ∧ (∀ f, perf ≠ VNone → float_ perf = inr f →
                   DepartmentNode.perf n' = VFloat f)).
    { intros self2. rewrite Hn1.
      destruct (mem self2 !! node) as [n'|]; [|done].
      unfold attrs. simpl. intros [= Hh Hem Hbu Hpe]. exists n'.
      rewrite Hem, Hbu, Hpe. split_and!; [done|..].
      - intros z Hv Hz.
        match goal with |- context [upd ?c ?s perf ?n] =>
          destruct (upd_cases c s perf n (to_float_accepts _ Hp))
            as [->|[? ->]] end;
        match goal with |- context [upd ?c ?s budget ?n] =>
          destruct (upd_cases c s budget n (to_float_accepts _ Hb))
            as [->|[? ->]] end;
        rewrite (upd_supplied _ _ employees (VInt z))
          by (done || (unfold to_int; by rewrite Hz)); done.
      - intros f Hv Hf.
        match goal with |- context [upd ?c ?s perf ?n] =>
          destruct (upd_cases c s perf n (to_float_accepts _ Hp))
            as [->|[? ->]] end;
        rewrite (upd_supplied _ _ budget (VFloat f))
          by (done || (unfold to_float; by rewrite Hf)); done.
      - intros g Hv Hg.
        rewrite (upd_supplied _ _ perf (VFloat g))
          by (done || (unfold to_float; by rewrite Hg)); done. }
    destruct (edit_rename name new_name node self1) as [self2|] eqn:Hren.
    + exists true. simpl.
      destruct (Hattrs (edit_reparent node parent self2)) as (n' & ?).
      { rewrite edit_reparent_attrs. by eapply edit_rename_attrs. }
      by exists n'.
    + exists false. simpl. destruct (Hattrs self1) as (n' & ?); [done|].
      by exists n'.
Qed.

End edit.

End EditFacts.

(** ** Renaming *)

Module RenameFacts.
Import DepartmentHierarchy Tree DictFacts TreeFacts EditFacts.

(** *** [to_dict] reads only the nodes of the dictionary *)

Lemma to_dict_node_S fuel (m : memory) a :
  to_dict_node (S fuel) m a =
    n ← m !! a;
    cs ← mapM (to_dict_node fuel m) (DepartmentNode.children n);
    Some (VNode (DepartmentNode.name n) (DepartmentNode.head n)
            (DepartmentNode.employees n) (DepartmentNode.budget n)
            (DepartmentNode.perf n) cs).
Proof. done. Qed.

Lemma mapM_fmap_r {A B C} (f : A → option B) (g : B → C) (l : list A) :
  mapM (λ x, g <$> f x) l = fmap g <$> mapM f l.
Proof.
  induction l as [|x l IH]; [done|]. simpl. rewrite IH.
  destruct (f x); simpl; [|done]. by destruct (mapM f l).
Qed.

Lemma to_dict_node_names self fuel a v :
  wf self → a ∈ Dict.values (nodes self) →
  to_dict_node fuel (mem self) a = Some v →
  ∀ k, k ∈ view_names v → k ∈ Dict.keys (nodes self).
Proof.
  intros Hwf. revert a v. induction fuel as [|fuel IH]; intros a v Ha; [done|].
  rewrite to_dict_node_S.
  destruct (mem self !! a) as [n|] eqn:Hn; [|done]. simpl.
  destruct (mapM _ _) as [cs|] eqn:Hcs; [|done]. simpl. intros [= <-] k.
  simpl. intros [->|Hk]%elem_of_cons.
  - apply (wf_value self Hwf) in Ha.
    rewrite (name_of_lookup _ _ _ Hn) in Ha.
    unfold Dict.keys. apply list_elem_of_fmap. by eexists (_, _).
  - apply list_elem_of_bind in Hk as (c' & Hk & Hc').
    apply mapM_Some_1 in Hcs.
    apply list_elem_of_lookup in Hc' as [i Hi].
    destruct (Forall2_lookup_r _ _ _ _ _ Hcs Hi) as (c & Hc & Hcv).
    eapply (IH c c'); [|done|done].
    eapply wf_closed; [done|exact Ha|].
    rewrite (children_of_lookup _ _ _ Hn). by eapply list_elem_of_lookup_2.
Qed.

(** *** The rewriting of child names finds nothing to rewrite *)

Lemma fix_child_names_id name new_name self :
  (∀ n c, n ∈ Dict.values (nodes self) → c ∈ children_of (mem self) n →
          name_of (mem self) c ≠ name) →
  fix_child_names name new_name self = self.
Proof.
  unfold fix_child_names. intros H.
  assert (Hgen : ∀ l, (∀ n, n ∈ l → n ∈ Dict.values (nodes self)) →
            foldl (λ self n,
                     foldl (λ self c,
                              if decide (name_of (mem self) c = name)
                              then setattr c (DepartmentNode.with_name new_name)
                                     self
                              else self) self (children_of (mem self) n))
              self l = self).
  { induction l as [|n l IH]; intros Hl; [done|]. simpl.
    assert (Hinner : ∀ cs, (∀ c, c ∈ cs → c ∈ children_of (mem self) n) →
              foldl (λ self c,
                       if decide (name_of (mem self) c = name)
                       then setattr c (DepartmentNode.with_name new_name) self
                       else self) self cs = self).
    { induction cs as [|c cs IHc]; intros Hcs; [done|]. simpl.
      rewrite decide_False.
      - apply IHc. intros c' Hc'. apply Hcs. by right.
      - apply (H n c); [apply Hl; left|apply Hcs; left]. }
    rewrite Hinner by done. apply IH. intros n' Hn'. apply Hl. by right. }
  by apply Hgen.
Qed.

(** *** The state after a rename to a fresh name *)

Section rename.
Context (self : t) (Hwf : wf self) (X Y : string) (x : addr).
Context (HX : Dict.get X (nodes self) = Some x).
Context (HY : Dict.get Y (nodes self) = None).

(** The node carries the new name and the dictionary entry has moved. *)
Definition renamed : t :=
  mk (root self) (Dict.del X (Dict.set Y x (nodes self)))
    (alter (DepartmentNode.with_name Y) x (mem self)).

Lemma rename_distinct : Y ≠ X.
Proof. intros ->. by rewrite HX in HY. Qed.

Lemma renamed_nodes : nodes renamed = Dict.del X (nodes self) ++ [(Y, x)].
Proof.
  simpl. rewrite set_fresh by done. unfold Dict.del.
  rewrite filter_app. f_equal.
  rewrite filter_cons_True; [done|]. simpl. apply rename_distinct.
Qed.

Lemma renamed_elem k a :
  (k, a) ∈ nodes renamed ↔ ((k, a) ∈ nodes self ∧ k ≠ X) ∨ (k = Y ∧ a = x).
Proof.
  rewrite renamed_nodes, elem_of_app, elem_del, list_elem_of_singleton.
  naive_solver.
Qed.

Lemma renamed_values a :
  a ∈ Dict.values (nodes renamed) ↔ a ∈ Dict.values (nodes self).
Proof.
  rewrite !value_elem. split.
  - intros [k [[Hk _]|[_ ->]]%renamed_elem]; [eauto|].
    exists X. by apply get_Some_elem.
  - intros [k Hk]. destruct (decide (k = X)) as [->|Hne].
    + exists Y. apply renamed_elem. right. split; [done|].
      apply (wf_addr_eq self Hwf X); [done|by apply get_Some_elem].
    + exists k. apply renamed_elem. by left.
Qed.

Lemma renamed_children a :
  children_of (mem renamed) a = children_of (mem self) a.
Proof. simpl. by apply children_of_alter. Qed.

Lemma renamed_lookup a :
  mem renamed !! a
  = (λ n, if decide (a = x) then DepartmentNode.with_name Y n else n)
      <$> mem self !! a.
Proof.
  simpl. destruct (decide (a = x)) as [->|Hne].
  - by rewrite list_lookup_alter_eq.
  - rewrite list_lookup_alter_ne by done. by destruct (mem self !! a).
Qed.

Lemma renamed_name a :
  a ∈ Dict.values (nodes self) →
  name_of (mem renamed) a = if decide (a = x) then Y else name_of (mem self) a.
Proof.
  intros Ha. unfold name_of. rewrite renamed_lookup.
  pose proof (wf_value_lt self Hwf a Ha) as Hlt.
  apply lookup_lt_is_Some_2 in Hlt as [n ->]. simpl.
  by destruct (decide (a = x)).
Qed.

Lemma renamed_name_not_old a :
  a ∈ Dict.values (nodes self) → name_of (mem renamed) a ≠ X.
Proof.
  intros Ha. rewrite renamed_name by done.
  destruct (decide (a = x)) as [->|Hne]; [apply rename_distinct|].
  intros Heq. apply Hne. apply (wf_addr_eq self Hwf X); [|by apply get_Some_elem].
  rewrite <- Heq. by apply wf_value.
Qed.

Lemma edit_rename_fresh :
  Y ≠ "" → edit_rename X (Some Y) x self = Some renamed.
Proof.
  intros HYne. unfold edit_rename.
  rewrite decide_True by (split; [done|apply rename_distinct]).
  rewrite (proj2 (mem_false _ _) HY). f_equal.
  apply fix_child_names_id. intros n c Hn Hc.
  fold renamed in Hn, Hc |- *.
  apply renamed_values in Hn. rewrite renamed_children in Hc.
  apply renamed_name_not_old. by eapply wf_closed.
Qed.

Lemma renamed_values_perm :
  Dict.values (nodes renamed) ≡ₚ Dict.values (nodes self).
Proof.
  apply NoDup_Permutation; [|by apply wf_values_NoDup|apply renamed_values].
  rewrite renamed_nodes. unfold Dict.values. rewrite fmap_app.
  apply NoDup_app. split_and!.
  - eapply sublist_NoDup; [by apply wf_values_NoDup|].
    apply fmap_sublist, sublist_filter.
  - intros a Ha Hx. simpl in Hx. apply list_elem_of_singleton in Hx as ->.
    apply list_elem_of_fmap in Ha as ([k a'] & Heq & [Hin Hne]%elem_del).
    simpl in Heq. subst a'. apply Hne.
    transitivity (name_of (mem self) x).
    + symmetry. by apply wf_name_of.
    + apply wf_name_of; [done|]. by apply get_Some_elem.
  - apply NoDup_singleton.
Qed.

Lemma renamed_child_refs : child_refs renamed ≡ₚ child_refs self.
Proof.
  unfold child_refs. rewrite renamed_values_perm.
  rewrite (bind_ext_in (children_of (mem renamed)) (children_of (mem self)));
    [done|].
  intros a _. apply renamed_children.
Qed.

Lemma renamed_wf : Y ≠ "" → wf renamed.
Proof.
  intros HYne. pose proof Hwf as (Hk & Hn & Hc & Hp & He).
  unfold wf. rewrite renamed_child_refs. split_and!.
  - rewrite renamed_nodes. unfold Dict.keys. rewrite fmap_app.
    apply NoDup_app. split_and!.
    + by apply keys_del_NoDup.
    + intros k Hk' Hk''. simpl in Hk''.
      apply list_elem_of_singleton in Hk'' as ->.
      apply get_None in HY. apply HY.
      apply list_elem_of_fmap in Hk' as ([k a] & -> & [Hin _]%elem_del).
      unfold Dict.keys. apply list_elem_of_fmap. by exists (k, a).
    + apply NoDup_singleton.
  - apply Forall_forall. intros [k a] Hka. cbn [fst snd].
    assert (Hav : a ∈ Dict.values (nodes self)).
    { apply renamed_values. apply value_elem. eauto. }
    rewrite renamed_lookup.
    pose proof (wf_value_lt self Hwf a Hav) as Hlt.
    apply lookup_lt_is_Some_2 in Hlt as [n Hn']. rewrite Hn'.
    simpl. f_equal.
    assert (HXx : name_of (mem self) x = X).
    { apply wf_name_of; [done|]. by apply get_Some_elem. }
    apply renamed_elem in Hka as [[Hka Hne]|[-> ->]].
    + pose proof (wf_name_of self Hwf k a Hka) as Hk'.
      rewrite decide_False by (intros ->; congruence).
      by rewrite <- (name_of_lookup _ _ _ Hn').
    + by rewrite decide_True.
  - eapply Forall_impl; [exact Hc|]. intros c Hcv. simpl in Hcv.
    by apply renamed_values.
  - done.
  - apply Forall_forall. intros [k a] Hka Hemp. cbn [fst snd] in *.
    rewrite renamed_children.
    apply renamed_elem in Hka as [[Hka Hne]|[-> ->]]; [|done].
    rewrite Forall_forall in He. by apply (He _ Hka).
Qed.

(** [to_dict] on the renamed tree is [to_dict] on the tree, with the old
    name shown as the new one. *)
Lemma to_dict_node_renamed fuel a :
  a ∈ Dict.values (nodes self) →
  to_dict_node fuel (mem renamed) a
  = rename_view X Y <$> to_dict_node fuel (mem self) a.
Proof.
  revert a. induction fuel as [|fuel IH]; intros a Ha; [done|].
  rewrite !to_dict_node_S, renamed_lookup.
  destruct (mem self !! a) as [n|] eqn:Hn; [|done]. cbn [fmap option_fmap
    option_map mbind option_bind].
  assert (Hch : DepartmentNode.children
                  (if decide (a = x) then DepartmentNode.with_name Y n else n)
                = DepartmentNode.children n) by (by destruct (decide _)).
  rewrite Hch.
  rewrite (Forall_mapM_ext _ (λ c, rename_view X Y
                                     <$> to_dict_node fuel (mem self) c)).
  2:{ apply Forall_forall. intros c Hc. apply IH.
      eapply wf_closed; [done|exact Ha|].
      by rewrite (children_of_lookup _ _ _ Hn). }
  rewrite mapM_fmap_r.
  destruct (mapM _ _) as [cs|]; [|done]. simpl. f_equal.
  pose proof (wf_value self Hwf a Ha) as Hka.
  rewrite (name_of_lookup _ _ _ Hn) in Hka.
  destruct (decide (a = x)) as [->|Hne]; simpl.
  - rewrite decide_True; [done|].
    rewrite <- (name_of_lookup _ _ _ Hn).
    apply wf_name_of; [done|]. by apply get_Some_elem.
  - rewrite decide_False; [done|]. intros Heq. apply Hne.
    rewrite Heq in Hka. apply (wf_addr_eq self Hwf X); [done|].
    by apply get_Some_elem.
Qed.

End rename.

Section rename_theorem.
Variable int_ : value → PyExn + Z.
Variable float_ : value → PyExn + spec_float.

(** C5, amended: renaming a node [X] of a well-formed tree (whose root, if
    any, is in the dictionary) to a non-empty name [Y] that is not in the
    dictionary returns [True]; the dictionary then maps [Y], and no longer
    [X], to the node and keeps every other entry; [to_dict] shows the same
    structure with [Y] where [X] was, [Y] occurring nowhere before and [X]
    nowhere after; and no node of the dictionary is still named [X]. *)
Theorem rename_keeps_position self X Y x :
  wf self → root_mapped self →
  Dict.get X (nodes self) = Some x → Dict.get Y (nodes self) = None →
  Y ≠ "" →
  ∃ self',
    edit int_ float_ X (Some Y) VNone VNone VNone VNone None self
    = (Return true, self')
    ∧ Dict.get Y (nodes self') = Some x
    ∧ Dict.get X (nodes self') = None
    ∧ (∀ k, k ≠ X → k ≠ Y →
         Dict.get k (nodes self') = Dict.get k (nodes self))
    ∧ (∀ fuel, to_dict fuel self' = rename_view X Y <$> to_dict fuel self)
    ∧ (∀ fuel v, to_dict fuel self = Some v → Y ∉ view_names v)
    ∧ (∀ fuel v, to_dict fuel self' = Some v → X ∉ view_names v)
    ∧ (∀ a, a ∈ Dict.values (nodes self') → name_of (mem self') a ≠ X).
Proof.
  intros Hwf Hroot HX HY HYne. exists (renamed self X Y x).
  pose proof (rename_distinct self X Y x HX HY) as Hne.
  pose proof (renamed_wf self Hwf X Y x HX HY HYne) as Hwf'.
  pose proof (renamed_nodes self X Y x HX HY) as Hnodes.
  assert (Hnames : ∀ (s : t) fuel v k,
            wf s → root_mapped s → to_dict fuel s = Some v →
            k ∈ view_names v → k ∈ Dict.keys (nodes s)).
  { intros s fuel v k Hs Hr. unfold to_dict, root_mapped in *.
    destruct (root s) as [r|].
    - intros Hv Hk. by eapply to_dict_node_names.
    - intros [= <-] Hk. by apply elem_of_nil in Hk. }
  assert (Hroot' : root_mapped (renamed self X Y x)).
  { unfold root_mapped in *. cbn [root renamed].
    destruct (root self); [|done]. by apply renamed_values. }
  split_and!.
  - unfold edit. rewrite HX, edit_meta_none.
    by rewrite edit_rename_fresh.
  - rewrite Hnodes, get_app, get_del, decide_False by done.
    rewrite HY. simpl. by rewrite decide_True.
  - rewrite Hnodes, get_app, get_del, decide_True by done.
    simpl. by rewrite decide_False.
  - intros k HkX HkY. rewrite Hnodes, get_app, get_del.
    rewrite decide_False by done. simpl. rewrite decide_False by done.
    by destruct (Dict.get k (nodes self)).
  - intros fuel. unfold to_dict, root_mapped in *. cbn [root renamed].
    destruct (root self) as [r|]; [|done].
    by apply to_dict_node_renamed.
  - intros fuel v Hv Hk. apply (Hnames self fuel v Y Hwf Hroot Hv) in Hk.
    by apply get_None in HY.
  - intros fuel v Hv Hk.
    apply (Hnames _ fuel v X Hwf' Hroot' Hv) in Hk.
    unfold Dict.keys in Hk. rewrite Hnodes, fmap_app, elem_of_app in Hk.
    destruct Hk as [Hk|Hk].
    + apply list_elem_of_fmap in Hk as ([k a] & -> & [_ Hk]%elem_del). done.
    + simpl in Hk. by apply list_elem_of_singleton in Hk.
  - intros a Ha. apply renamed_name_not_old; [done..|].
    by apply (renamed_values self Hwf X Y x HX HY).
Qed.

End rename_theorem.

End RenameFacts.

(** ** [edit] on the example trees *)

Module EditExamples.
Import DepartmentHierarchy Tree DictFacts TreeFacts Examples EditFacts.
Import ExampleFacts RenameFacts.

(** C1, at the failing inputs: [edit] can report a failure after it has
    already assigned attributes.  A rename that collides with an existing
    name returns [False], and a value that [int] rejects raises, yet in both
    calls the [head] supplied alongside has been stored in the node. *)
Theorem edit_failure_after_partial_update :
  let conflict :=
    edit Builtins.int_ Builtins.float_ "A" (Some "B") (VStr "boss")
      VNone VNone VNone None tree_AB in
  let invalid :=
    edit Builtins.int_ Builtins.float_ "A" None (VStr "boss")
      (VStr "many") VNone VNone None tree_AB in
  DepartmentNode.head <$> mem tree_AB !! 0 = Some (VStr "")
  ∧ conflict.1 = Return false
  ∧ DepartmentNode.head <$> mem conflict.2 !! 0 = Some (VStr "boss")
  ∧ invalid.1 = Raise ValueError
  ∧ DepartmentNode.head <$> mem invalid.2 !! 0 = Some (VStr "boss").
Proof. by vm_compute. Qed.

Lemma edit_empty_new_name_witness :
  Dict.get "A" (nodes tree_AB) = Some 0
  ∧ edit Builtins.int_ Builtins.float_ "A" (Some "") VNone VNone VNone VNone
      None tree_AB = (Return true, tree_AB).
Proof.
  split; [reflexivity|].
  apply (edit_empty_new_name Builtins.int_ Builtins.float_ tree_AB "A" 0).
  reflexivity.
Defined.

(** C10 as stated fails when the other node's name is the empty string:
    [edit("X", parent="")] takes the no-parent branch, so the root [X] is not
    appended to the children of the node named [""]. *)
Lemma reparent_root_under_empty_name :
  wf tree_X_empty ∧ root tree_X_empty = Some 0
  ∧ Dict.get "X" (nodes tree_X_empty) = Some 0
  ∧ Dict.get "" (nodes tree_X_empty) = Some 1
  ∧ ∃ self',
      edit Builtins.int_ Builtins.float_ "X" None VNone VNone VNone VNone
        (Some "") tree_X_empty = (Return true, self')
      ∧ root self' = Some 0
      ∧ 0 ∉ children_of (mem self') 1.
Proof.
  split; [apply tree_X_empty_wf|].
  split_and!; [reflexivity..|].
  eexists. split_and!; [reflexivity|reflexivity|].
  vm_compute. apply not_elem_of_nil.
Qed.

Lemma reparent_root_keeps_root_witness :
  wf tree_AB ∧ root tree_AB = Some 0
  ∧ ∃ self',
      edit Builtins.int_ Builtins.float_ "A" None VNone VNone VNone VNone
        (Some "B") tree_AB = (Return true, self')
      ∧ root self' = Some 0
      ∧ children_of (mem self') 1
        = filter (λ c, c ≠ 0) (children_of (mem tree_AB) 1) ++ [0].
Proof.
  split; [apply tree_AB_wf|]. split; [reflexivity|].
  apply (reparent_root_keeps_root Builtins.int_ Builtins.float_
           tree_AB "A" "B" 0 1);
    [apply tree_AB_wf|reflexivity|reflexivity|reflexivity|done].
Defined.

(** C3 as stated fails: [B] is a child of [A], and [edit("A", parent="B")]
    returns [True] and changes the tree, hanging [A] under [B]. *)
Lemma reparent_into_subtree_accepted :
  in_subtree (mem tree_AB) 0 1
  ∧ ∃ self',
      edit Builtins.int_ Builtins.float_ "A" None VNone VNone VNone VNone
        (Some "B") tree_AB = (Return true, self')
      ∧ self' ≠ tree_AB
      ∧ children_of (mem self') 1 = [0]
      ∧ children_of (mem self') 0 = [1].
Proof.
  split.
  { apply rtc_once. unfold child. vm_compute. left. }
  eexists. split; [reflexivity|]. split; [|by vm_compute].
  vm_compute. intros [=].
Qed.

Lemma chain_ABC_wf : wf chain_ABC.
Proof. apply (bool_decide_unpack _). by vm_compute. Qed.

(** [edit("B", parent="C")] on the chain [A], [B], [C]: [B] leaves the
    children of [A] and becomes the child of its own child [C]. *)
Lemma reparent_into_subtree_makes_cycle_witness :
  wf chain_ABC ∧ in_subtree (mem chain_ABC) 1 2
  ∧ children_of (mem chain_ABC) 0 = [1]
  ∧ ∃ self',
      edit Builtins.int_ Builtins.float_ "B" None VNone VNone VNone VNone
        (Some "C") chain_ABC = (Return true, self')
      ∧ root self' = Some 0
      ∧ children_of (mem self') 0 = []
      ∧ children_of (mem self') 1 = [2]
      ∧ children_of (mem self') 2 = [1]
      ∧ tc (child (mem self')) 1 1.
Proof.
  assert (Hsub : in_subtree (mem chain_ABC) 1 2).
  { apply rtc_once. unfold child. vm_compute. left. }
  assert (Hne : "C" ≠ "") by done.
  split; [apply chain_ABC_wf|]. split; [exact Hsub|]. split; [reflexivity|].
  destruct (reparent_into_subtree_makes_cycle Builtins.int_ Builtins.float_
              chain_ABC "B" "C" 1 2 chain_ABC_wf eq_refl eq_refl Hne Hsub)
    as (self' & Hedit & Hr & _ & Hq & _ & Hp & _ & _ & Htc).
  exists self'. split; [exact Hedit|]. split; [exact Hr|].
  split; [|split; [|split; [exact Hp|exact Htc]]].
  - rewrite Hq; [reflexivity| |done]. vm_compute. left.
  - rewrite Hq; [reflexivity| |done]. vm_compute. right. left.
Defined.

Lemma edit_coerces_numeric_fields_witness :
  Dict.get "A" (nodes tree_AB) = Some 0
  ∧ (edit Builtins.int_ Builtins.float_ "A" None VNone (VStr "many") VNone
       VNone None tree_AB).1 = Raise ValueError
  ∧ ∃ b n',
      (edit Builtins.int_ Builtins.float_ "A" None VNone (VInt 7) (VInt 3)
         VNone None tree_AB).1 = Return b
      ∧ mem (edit Builtins.int_ Builtins.float_ "A" None VNone (VInt 7)
               (VInt 3) VNone None tree_AB).2 !! 0 = Some n'
      ∧ DepartmentNode.employees n' = VInt 7
      ∧ DepartmentNode.budget n'
        = VFloat (S754_finite false 6755399441055744 (-51)).
Proof.
  split; [reflexivity|]. split.
  - refine (proj1 (edit_coerces_numeric_fields Builtins.int_ Builtins.float_
             tree_AB "A" 0 _ None VNone None (VStr "many") VNone VNone
             eq_refl eq_refl) ValueError _).
    split; [done|reflexivity].
  - destruct (proj2 (proj2 (proj2 (edit_coerces_numeric_fields
             Builtins.int_ Builtins.float_
             tree_AB "A" 0 _ None VNone None (VInt 7) (VInt 3) VNone
             eq_refl eq_refl))))
      as (b & n' & Hb & Hn' & He & Hbu & _).
    + right. by eexists.
    + right. by eexists.
    + by left.
    + exists b, n'. split_and!; [done|done|by apply He|by apply Hbu].
Defined.

(** C5 as stated fails for the empty string, which is not in the
    dictionary of [tree_AB]: [edit("A", new_name="")] returns [True] but the
    dictionary still maps [A], not the empty name, and [to_dict] still shows
    [A]. *)
Lemma rename_to_empty_name_keeps_old_name :
  Dict.get "" (nodes tree_AB) = None
  ∧ ∃ self',
      edit Builtins.int_ Builtins.float_ "A" (Some "") VNone VNone VNone VNone
        None tree_AB = (Return true, self')
      ∧ Dict.get "" (nodes self') = None
      ∧ Dict.get "A" (nodes self') = Some 0
      ∧ to_dict 2 self'
        = Some (VNode "A" (VStr "") (VInt 0) (VInt 0) (VInt 0)
                  [VNode "B" (VStr "") (VInt 0) (VInt 0) (VInt 0) []]).
Proof. split; [reflexivity|]. eexists. by split_and!. Qed.

(** The scenario [add("A"); add("B", parent="A"); edit("A", new_name="C")]:
    the root is shown as [C] with child [B], and [A] has left the
    dictionary. *)
Lemma rename_keeps_position_witness :
  wf tree_AB ∧ root_mapped tree_AB
  ∧ ∃ self',
      edit Builtins.int_ Builtins.float_ "A" (Some "C") VNone VNone VNone
        VNone None tree_AB = (Return true, self')
      ∧ Dict.get "C" (nodes self') = Some 0
      ∧ Dict.get "A" (nodes self') = None
      ∧ to_dict 2 self'
        = Some (VNode "C" (VStr "") (VInt 0) (VInt 0) (VInt 0)
                  [VNode "B" (VStr "") (VInt 0) (VInt 0) (VInt 0) []]).
Proof.
  split; [apply tree_AB_wf|].
  assert (Hroot : root_mapped tree_AB).
  { apply (bool_decide_unpack _). by vm_compute. }
  split; [exact Hroot|].
  destruct (rename_keeps_position Builtins.int_ Builtins.float_
              tree_AB "A" "C" 0 tree_AB_wf Hroot eq_refl eq_refl)
    as (self' & Hedit & HC & HA & _ & Hview & _); [done|].
  exists self'. split_and!; [done..|].
  by rewrite Hview.
Defined.

End EditExamples.

(** ** [to_dict] and [load_data] *)

Module RoundTripFacts.
Import DepartmentHierarchy Tree DictFacts TreeFacts ForestFacts RenameFacts.

Lemma dict_view_ind' (P : dict_view → Prop) :
  P VEmpty →
  (∀ name head employees budget perf cs,
     Forall P cs → P (VNode name head employees budget perf cs)) →
  ∀ v, P v.
Proof.
  intros HE HN. fix IH 1. intros [|name head employees budget perf cs].
  - exact HE.
  - apply HN. induction cs as [|c cs IHcs]; constructor; [apply IH|exact IHcs].
Qed.

(** *** [to_dict] and [shows_from] *)

Lemma to_dict_node_shows fuel (m : memory) a v :
  to_dict_node fuel m a = Some v → shows_from 0 m a v.
Proof.
  revert a v. induction fuel as [|fuel IH]; intros a v; [done|].
  rewrite to_dict_node_S.
  destruct (m !! a) as [n|] eqn:Hn; [|done]. simpl.
  destruct (mapM _ _) as [cs|] eqn:Hcs; [|done]. simpl. intros [= <-].
  apply shows_node; [lia|done|].
  apply mapM_Some_1 in Hcs.
  eapply Forall2_impl; [exact Hcs|]. intros c v' Hc. by apply IH.
Qed.

Lemma to_dict_node_depth fuel (m : memory) a v :
  to_dict_node fuel m a = Some v → (view_depth v ≤ fuel)%nat.
Proof.
  revert a v. induction fuel as [|fuel IH]; intros a v; [done|].
  rewrite to_dict_node_S.
  destruct (m !! a) as [n|] eqn:Hn; [|done]. simpl.
  destruct (mapM _ _) as [cs|] eqn:Hcs; [|done]. simpl. intros [= <-].
  simpl. apply le_n_S. apply mapM_Some_1 in Hcs.
  induction Hcs as [|c v' l cs Hc _ IHl]; simpl; [lia|].
  apply IH in Hc. lia.
Qed.

Lemma shows_to_dict_node lo (m : memory) a v fuel :
  shows_from lo m a v → (view_depth v ≤ fuel)%nat →
  to_dict_node fuel m a = Some v.
Proof.
  revert lo a fuel. induction v as [|name head employees budget perf cs IH]
    using dict_view_ind'; intros lo a fuel Hs Hd; [inversion Hs|].
  inversion Hs as [a' n cs' Hlo Hn Hcs]; subst.
  destruct fuel as [|fuel]; [simpl in Hd; lia|].
  rewrite to_dict_node_S, Hn. simpl.
  assert (Hm : mapM (to_dict_node fuel m) (DepartmentNode.children n) = Some cs).
  { apply mapM_Some_2. simpl in Hd. apply le_S_n in Hd.
    clear Hs Hn. induction Hcs as [|c v l vs Hc Hcs IHcs]; [constructor|].
    apply Forall_cons in IH as [IHv IHvs]. simpl in Hd.
    constructor.
    - eapply IHv; [exact Hc|lia].
    - apply IHcs; [done|lia]. }
  by rewrite Hm.
Qed.

Lemma shows_from_weaken lo lo' (m : memory) a v :
  (lo' ≤ lo)%nat → shows_from lo m a v → shows_from lo' m a v.
Proof.
  intros Hle. revert a.
  induction v as [|name head employees budget perf cs IH]
    using dict_view_ind'; intros a Hs; [inversion Hs|].
  inversion Hs as [a' n cs' Hlo Hn Hcs]; subst.
  apply shows_node; [lia|done|].
  clear Hs Hn. induction Hcs as [|c v l vs Hc Hcs IHcs]; [constructor|].
  apply Forall_cons in IH as [IHv IHvs].
  constructor; [by apply IHv|by apply IHcs].
Qed.

(** [shows_from lo] reads the memory from [lo] on only. *)
Lemma shows_from_frame lo (m m' : memory) a v :
  (∀ b, (lo ≤ b)%nat → b < length m → m' !! b = m !! b) →
  shows_from lo m a v → shows_from lo m' a v.
Proof.
  intros Hframe. revert a.
  induction v as [|name head employees budget perf cs IH]
    using dict_view_ind'; intros a Hs; [inversion Hs|].
  inversion Hs as [a' n cs' Hlo Hn Hcs]; subst.
  apply shows_node; [done| |].
  - rewrite Hframe; [done..|]. by eapply lookup_lt_Some.
  - clear Hs Hn. induction Hcs as [|c v l vs Hc Hcs IHcs]; [constructor|].
    apply Forall_cons in IH as [IHv IHvs].
    constructor; [by apply IHv|by apply IHcs].
Qed.

(** *** [build] *)

Lemma add_under_parent name pn head employees budget perf self pa :
  Dict.get name (nodes self) = None → pn ≠ "" →
  Dict.get pn (nodes self) = Some pa →
  (add name (Some pn) head employees budget perf self).2
  = append_child pa (length (mem self))
      (alloc name head employees budget perf self).
Proof.
  intros Hfresh Hne Hpn. rewrite add_fresh by done. cbn [snd]. cbv zeta.
  rewrite decide_False by done. rewrite alloc_get by done.
  rewrite decide_False by (intros ->; congruence). by rewrite Hpn.
Qed.

(** What building the structure [v] under an existing parent does: it
    allocates the nodes of [v] from the end of the memory on, appends the
    first of them to the parent's children and touches nothing else. *)
Definition builds (v : dict_view) : Prop :=
  ∀ self pn pa np,
    pn ≠ "" → Dict.get pn (nodes self) = Some pa → mem self !! pa = Some np →
    NoDup (view_names v) →
    (∀ k, k ∈ view_names v → Dict.get k (nodes self) = None) →
    root (build v (Some pn) self) = root self
    ∧ (∀ k, k ∉ view_names v →
         Dict.get k (nodes (build v (Some pn) self)) = Dict.get k (nodes self))
    ∧ length (mem self) < length (mem (build v (Some pn) self))
    ∧ (∀ a, a < length (mem self) → a ≠ pa →
         mem (build v (Some pn) self) !! a = mem self !! a)
    ∧ mem (build v (Some pn) self) !! pa
      = Some (DepartmentNode.with_children
                (DepartmentNode.children np ++ [length (mem self)]) np)
    ∧ shows_from (length (mem self)) (mem (build v (Some pn) self))
        (length (mem self)) v.

Lemma build_children cs :
  Forall builds cs →
  ∀ self name n0 nn,
    (cs ≠ [] → name ≠ "") →
    Dict.get name (nodes self) = Some n0 → mem self !! n0 = Some nn →
    NoDup (cs ≫= view_names) →
    (∀ k, k ∈ cs ≫= view_names → Dict.get k (nodes self) = None) →
    let self' := foldl (λ s c, build c (Some name) s) self cs in
    root self' = root self
    ∧ (∀ k, k ∉ cs ≫= view_names →
         Dict.get k (nodes self') = Dict.get k (nodes self))
    ∧ (length (mem self) ≤ length (mem self'))%nat
    ∧ (∀ a, a < length (mem self) → a ≠ n0 → mem self' !! a = mem self !! a)
    ∧ ∃ addrs,
        mem self' !! n0
        = Some (DepartmentNode.with_children
                  (DepartmentNode.children nn ++ addrs) nn)
        ∧ Forall2 (shows_from (length (mem self)) (mem self')) addrs cs.
Proof.
  induction 1 as [|c cs Hc Hcs IH]; intros self name n0 nn Hname Hget Hn0 Hnd
    Hfresh self'.
  { subst self'. simpl. split_and!; [done|done|lia|done|].
    exists []. rewrite app_nil_r. split; [by destruct nn|constructor]. }
  assert (Hne : name ≠ "") by (by apply Hname).
  rewrite bind_cons in Hnd, Hfresh.
  apply NoDup_app in Hnd as (Hndc & Hdisj & Hndcs).
  destruct (Hc self name n0 nn Hne Hget Hn0 Hndc)
    as (R1 & K1 & L1 & F1 & P1 & S1).
  { intros k Hk. apply Hfresh. rewrite elem_of_app. by left. }
  set (self1 := build c (Some name) self) in *.
  assert (Hget1 : Dict.get name (nodes self1) = Some n0).
  { rewrite K1; [done|]. intros Hin.
    rewrite Hfresh in Hget; [done|]. rewrite elem_of_app. by left. }
  destruct (IH self1 name n0 _ (λ _, Hne) Hget1 P1 Hndcs)
    as (R2 & K2 & L2 & F2 & addrs & P2 & S2).
  { intros k Hk. rewrite K1.
    - apply Hfresh. rewrite elem_of_app. by right.
    - intros Hkc. by apply (Hdisj k). }
  subst self'. cbn [foldl]. fold self1.
  set (self2 := foldl (λ s c, build c (Some name) s) self1 cs) in *.
  pose proof (lookup_lt_Some _ _ _ Hn0) as Hn0lt.
  split_and!.
  - by rewrite R2.
  - intros k Hk. rewrite bind_cons, elem_of_app in Hk.
    rewrite K2, K1; [done|..]; intros ?; apply Hk; auto.
  - lia.
  - intros a Ha Hne0. rewrite F2, F1; [done..|lia|done].
  - exists (length (mem self) :: addrs). split.
    + rewrite P2. f_equal. unfold DepartmentNode.with_children. simpl.
      by rewrite <- app_assoc.
    + constructor.
      * eapply shows_from_frame; [|exact S1].
        intros b Hb Hblt. apply F2; [done|lia].
      * eapply Forall2_impl; [exact S2|]. intros a v.
        apply shows_from_weaken. lia.
Qed.

Lemma build_builds v : proper_view v → builds v.
Proof.
  induction v as [|name head employees budget perf cs IH]
    using dict_view_ind'; intros Hproper; [inversion Hproper|].
  inversion Hproper as [? ? ? ? ? ? Hname Hcs]; subst.
  assert (Hbuilds : Forall builds cs).
  { rewrite Forall_forall in IH, Hcs |- *. auto. }
  intros self pn pa np Hpn Hget Hpa Hnd Hfresh.
  cbn [view_names] in Hnd, Hfresh. apply NoDup_cons in Hnd as [Hnn Hnd].
  assert (Hfn : Dict.get name (nodes self) = None) by (apply Hfresh; left).
  cbn [build].
  rewrite (add_under_parent name pn head employees budget perf self pa)
    by done.
  set (new := length (mem self)).
  set (self0 := append_child pa new
                  (alloc name head employees budget perf self)).
  pose proof (lookup_lt_Some _ _ _ Hpa) as Hpalt. fold new in Hpalt.
  assert (Hmem0 : mem self0
                  = alter (λ n, DepartmentNode.with_children
                                  (DepartmentNode.children n ++ [new]) n) pa
                      (mem self
                       ++ [DepartmentNode.init name head employees budget perf]))
    by done.
  assert (Hlen0 : length (mem self0) = S new).
  { rewrite Hmem0, length_alter, length_app. simpl. unfold new. lia. }
  assert (Hget0 : ∀ k, Dict.get k (nodes self0)
                       = if decide (name = k) then Some new
                         else Dict.get k (nodes self)).
  { intros k. by apply get_snoc. }
  assert (Hnew0 : mem self0 !! new
                  = Some (DepartmentNode.init name head employees budget perf)).
  { rewrite Hmem0, list_lookup_alter_ne by lia.
    by rewrite list_lookup_middle. }
  assert (Hgetn : Dict.get name (nodes self0) = Some new).
  { by rewrite Hget0, decide_True. }
  destruct (build_children cs Hbuilds self0 name new _ Hname Hgetn Hnew0 Hnd)
    as (R & K & L & F & addrs & P & S).
  { intros k Hk. rewrite Hget0, decide_False by (by intros <-).
    apply Hfresh. by right. }
  set (self' := foldl (λ s c, build c (Some name) s) self0 cs) in *.
  split_and!.
  - by rewrite R.
  - intros k Hk. apply not_elem_of_cons in Hk as [Hk1 Hk2].
    rewrite K, Hget0, decide_False; done.
  - fold new. lia.
  - intros a Ha Hne. fold new in Ha. rewrite F by lia.
    rewrite Hmem0, list_lookup_alter_ne by done.
    by rewrite lookup_app_l.
  - rewrite F by lia. rewrite Hmem0, list_lookup_alter_eq.
    by rewrite lookup_app_l, Hpa.
  - fold new. rewrite app_nil_l in P.
    pose proof (shows_node new (mem self') new _ cs (le_n _) P) as Hs.
    simpl in Hs. apply Hs.
    eapply Forall2_impl; [exact S|]. intros a v.
    apply shows_from_weaken. lia.
Qed.

Lemma load_data_shows v fuel :
  proper_view v → NoDup (view_names v) → (view_depth v ≤ fuel)%nat →
  to_dict fuel (load_data v) = Some v.
Proof.
  intros Hproper Hnd Hfuel.
  inversion Hproper as [name head employees budget perf cs Hname Hcs]; subst.
  cbn [view_names] in Hnd. apply NoDup_cons in Hnd as [Hnn Hnd].
  assert (Hbuilds : Forall builds cs).
  { eapply Forall_impl; [exact Hcs|]. apply build_builds. }
  unfold load_data. cbn [build].
  set (self0 := (add name None head employees budget perf init).2).
  assert (Hself0 : self0
                   = mk (Some 0) [(name, 0)]
                       [DepartmentNode.init name head employees budget perf])
    by done.
  destruct (build_children cs Hbuilds self0 name 0
              (DepartmentNode.init name head employees budget perf) Hname)
    as (R & K & L & F & addrs & P & S).
  { rewrite Hself0. simpl. by rewrite decide_True. }
  { by rewrite Hself0. }
  { done. }
  { intros k Hk. rewrite Hself0. simpl.
    rewrite decide_False; [done|]. by intros <-. }
  set (self' := foldl (λ s c, build c (Some name) s) self0 cs) in *.
  unfold to_dict. rewrite R, Hself0. cbn [root].
  apply (shows_to_dict_node 0); [|done].
  rewrite app_nil_l in P.
  pose proof (shows_node 0 (mem self') 0 _ cs (le_n _) P) as Hs.
  simpl in Hs. apply Hs.
  eapply Forall2_impl; [exact S|]. intros a v.
  apply shows_from_weaken. lia.
Qed.

(** *** What [to_dict] returns on a well-formed tree *)

Lemma to_dict_node_children fuel (m : memory) a v :
  to_dict_node (S fuel) m a = Some v →
  ∃ n cs,
    m !! a = Some n
    ∧ Forall2 (λ c v', to_dict_node fuel m c = Some v')
        (DepartmentNode.children n) cs
    ∧ v = VNode (DepartmentNode.name n) (DepartmentNode.head n)
            (DepartmentNode.employees n) (DepartmentNode.budget n)
            (DepartmentNode.perf n) cs.
Proof.
  rewrite to_dict_node_S.
  destruct (m !! a) as [n|]; [|done]. simpl.
  destruct (mapM _ _) as [cs|] eqn:Hcs; [|done]. simpl. intros [= <-].
  exists n, cs. split_and!; [done| |done]. by apply mapM_Some_1.
Qed.

Lemma to_dict_node_mono fuel (m : memory) a v :
  to_dict_node fuel m a = Some v → to_dict_node (S fuel) m a = Some v.
Proof.
  revert a v. induction fuel as [|fuel IH]; intros a v; [done|].
  intros (n & cs & Hn & Hcs & ->)%to_dict_node_children.
  rewrite to_dict_node_S, Hn. cbn [mbind option_bind].
  assert (Hm : mapM (to_dict_node (S fuel) m) (DepartmentNode.children n)
               = Some cs).
  { apply mapM_Some_2.
    eapply Forall2_impl; [exact Hcs|]. intros c v. apply IH. }
  by rewrite Hm.
Qed.

Lemma to_dict_node_subtree fuel (m : memory) a b :
  is_Some (to_dict_node fuel m a) → in_subtree m a b →
  is_Some (to_dict_node fuel m b).
Proof.
  intros Ha Hab. induction Hab as [|a c b Hac _ IH]; [done|].
  apply IH. destruct fuel as [|fuel]; [by destruct Ha|].
  destruct Ha as [v Hv].
  apply to_dict_node_children in Hv as (n & cs & Hn & Hcs & _).
  unfold child in Hac. rewrite (children_of_lookup _ _ _ Hn) in Hac.
  apply list_elem_of_lookup in Hac as [i Hi].
  destruct (Forall2_lookup_l _ _ _ _ _ Hcs Hi) as (v' & _ & Hv').
  exists v'. by apply to_dict_node_mono.
Qed.

(** A node on a cycle has no finite display. *)
Lemma to_dict_node_cycle fuel (m : memory) a :
  tc (child m) a a → to_dict_node fuel m a = None.
Proof.
  revert a. induction fuel as [|fuel IH]; intros a Hcyc; [done|].
  destruct (to_dict_node (S fuel) m a) as [v|] eqn:Hv; [|done]. exfalso.
  assert (Hstep : ∃ c, child m a c ∧ in_subtree m c a).
  { inversion Hcyc as [? ? Hac|? c ? Hac Hca]; subst.
    - exists a. split; [done|constructor].
    - exists c. split; [done|]. by apply tc_rtc. }
  destruct Hstep as (c & Hac & Hca).
  apply to_dict_node_children in Hv as (n & cs & Hn & Hcs & _).
  unfold child in Hac. rewrite (children_of_lookup _ _ _ Hn) in Hac.
  apply list_elem_of_lookup in Hac as [i Hi].
  destruct (Forall2_lookup_l _ _ _ _ _ Hcs Hi) as (v' & _ & Hv').
  assert (Hsome : is_Some (to_dict_node fuel m a)).
  { eapply to_dict_node_subtree; [|exact Hca]. eauto. }
  rewrite (IH a Hcyc) in Hsome. by destruct Hsome.
Qed.

Section region_view.
Context (m : memory) (D : addr → Prop) (HD : region m D).

Lemma region_subtree x a : D x → in_subtree m x a → D a.
Proof.
  intros Hx Hxa. induction Hxa as [|x y z Hxy _ IH]; [done|].
  apply IH. by eapply region_closed.
Qed.

Lemma to_dict_node_proper fuel a v :
  D a → to_dict_node fuel m a = Some v → proper_view v.
Proof.
  revert a v. induction fuel as [|fuel IH]; intros a v Ha; [done|].
  intros (n & cs & Hn & Hcs & ->)%to_dict_node_children.
  constructor.
  - intros Hne Hemp. apply Hne.
    pose proof (region_empty m D HD a Ha) as Hka.
    rewrite (name_of_lookup _ _ _ Hn), (children_of_lookup _ _ _ Hn) in Hka.
    rewrite (Hka Hemp) in Hcs. by inversion Hcs.
  - apply Forall_forall. intros v' [i Hi]%list_elem_of_lookup.
    destruct (Forall2_lookup_r _ _ _ _ _ Hcs Hi) as (c & Hc & Hv').
    apply (IH c); [|done]. apply (region_closed m D HD a c Ha).
    unfold child. rewrite (children_of_lookup _ _ _ Hn).
    by eapply list_elem_of_lookup_2.
Qed.

(** Every name shown is the name of a node of the subtree. *)
Lemma to_dict_node_names_subtree fuel a v k :
  to_dict_node fuel m a = Some v →
  k ∈ view_names v → ∃ b, in_subtree m a b ∧ name_of m b = k.
Proof.
  revert a v. induction fuel as [|fuel IH]; intros a v; [done|].
  intros (n & cs & Hn & Hcs & ->)%to_dict_node_children.
  cbn [view_names]. intros [->|Hk]%elem_of_cons.
  - exists a. split; [constructor|]. by apply name_of_lookup.
  - apply list_elem_of_bind in Hk as (v' & Hk & [i Hi]%list_elem_of_lookup).
    destruct (Forall2_lookup_r _ _ _ _ _ Hcs Hi) as (c & Hc & Hv').
    assert (Hac : child m a c).
    { unfold child. rewrite (children_of_lookup _ _ _ Hn).
      by eapply list_elem_of_lookup_2. }
    destruct (IH c v') as (b & Hcb & Hb); [done|done|].
    exists b. split; [|done]. by eapply rtc_l.
Qed.

(** Two nodes with a common descendant lie on one chain. *)
Lemma common_descendant u v d :
  D u → D v → in_subtree m u d → in_subtree m v d →
  in_subtree m u v ∨ in_subtree m v u.
Proof.
  intros Hu Hv Hud. revert d Hud v Hv. unfold in_subtree.
  apply (rtc_ind_r (λ d, ∀ v, D v → rtc (child m) v d →
                          rtc (child m) u v ∨ rtc (child m) v u)).
  - intros v Hv Hvu. by right.
  - intros y z Huy Hyz IH v Hv Hvz.
    apply rtc_inv_r in Hvz as [->|(y' & Hvy' & Hy'z)].
    + left. by eapply rtc_r.
    + assert (y = y') as <-.
      { apply (region_parent m D HD y y' z); [| |done|done].
        - exact (region_subtree u y Hu Huy).
        - exact (region_subtree v y' Hv Hvy'). }
      by apply IH.
Qed.

(** Distinct children of a displayed node show no common name. *)
Lemma to_dict_node_children_apart fuel a n cs i j vi vj k :
  D a → is_Some (to_dict_node (S fuel) m a) →
  m !! a = Some n →
  Forall2 (λ c v', to_dict_node fuel m c = Some v')
    (DepartmentNode.children n) cs →
  cs !! i = Some vi → cs !! j = Some vj →
  k ∈ view_names vi → k ∈ view_names vj → i = j.
Proof.
  intros Ha Hsome Hn Hcs Hi Hj Hki Hkj.
  destruct (Forall2_lookup_r _ _ _ _ _ Hcs Hi) as (ci & Hci & Hvi).
  destruct (Forall2_lookup_r _ _ _ _ _ Hcs Hj) as (cj & Hcj & Hvj).
  assert (Hchild : ∀ c i, DepartmentNode.children n !! i = Some c →
            child m a c ∧ D c).
  { intros c i' Hc.
    assert (child m a c).
    { unfold child. rewrite (children_of_lookup _ _ _ Hn).
      by eapply list_elem_of_lookup_2. }
    split; [done|]. by apply (region_closed m D HD a c). }
  destruct (Hchild ci i Hci) as [Haci Hciv].
  destruct (Hchild cj j Hcj) as [Hacj Hcjv].
  destruct (to_dict_node_names_subtree fuel ci vi k Hvi Hki)
    as (bi & Hbi & Hni).
  destruct (to_dict_node_names_subtree fuel cj vj k Hvj Hkj)
    as (bj & Hbj & Hnj).
  assert (bi = bj) as <-.
  { apply (region_names m D HD); [| |congruence].
    - exact (region_subtree ci bi Hciv Hbi).
    - exact (region_subtree cj bj Hcjv Hbj). }
  destruct (decide (ci = cj)) as [<-|Hne].
  { pose proof (region_children m D HD a Ha) as Hnd.
    rewrite (children_of_lookup _ _ _ Hn) in Hnd.
    by eapply NoDup_lookup. }
  exfalso.
  assert (Hcyc : ∀ c c', child m a c → child m a c' → c ≠ c' → D c →
            in_subtree m c c' → tc (child m) a a).
  { intros c c' Hac Hac' Hcc' Hcv Hsub.
    apply rtc_inv_r in Hsub as [?|(y & Hcy & Hyc')]; [done|].
    assert (y = a) as ->.
    { apply (region_parent m D HD y a c'); [|done|done|done].
      exact (region_subtree c y Hcv Hcy). }
    apply tc_rtc_r with c; [by apply tc_once|done]. }
  assert (Hloop : tc (child m) a a).
  { destruct (common_descendant ci cj bi Hciv Hcjv Hbi Hbj) as [H|H].
    - by apply (Hcyc ci cj).
    - by apply (Hcyc cj ci). }
  rewrite (to_dict_node_cycle (S fuel) m a Hloop) in Hsome.
  by destruct Hsome.
Qed.

Lemma to_dict_node_names_NoDup fuel a v :
  D a → to_dict_node fuel m a = Some v → NoDup (view_names v).
Proof.
  revert a v. induction fuel as [|fuel IH]; intros a v Ha; [done|].
  intros Hv. pose proof Hv as (n & cs & Hn & Hcs & ->)%to_dict_node_children.
  assert (Hsome : is_Some (to_dict_node (S fuel) m a)) by eauto.
  assert (Hview : ∀ i v', cs !! i = Some v' →
            ∃ c, child m a c ∧ D c ∧ to_dict_node fuel m c = Some v').
  { intros i v' Hi.
    destruct (Forall2_lookup_r _ _ _ _ _ Hcs Hi) as (c & Hc & Hv').
    assert (child m a c).
    { unfold child. rewrite (children_of_lookup _ _ _ Hn).
      by eapply list_elem_of_lookup_2. }
    exists c. split_and!; [done| |done]. by apply (region_closed m D HD a c). }
  cbn [view_names]. apply NoDup_cons. split.
  - intros (v' & Hk & [i Hi]%list_elem_of_lookup)%list_elem_of_bind.
    destruct (Hview i v' Hi) as (c & Hac & Hcv & Hv').
    destruct (to_dict_node_names_subtree fuel c v' _ Hv' Hk)
      as (b & Hcb & Hb).
    assert (b = a) as ->.
    { apply (region_names m D HD);
        [exact (region_subtree c b Hcv Hcb)|done|].
      rewrite Hb. symmetry. by apply name_of_lookup. }
    assert (Hloop : tc (child m) a a).
    { eapply tc_rtc_r; [by apply tc_once|done]. }
    rewrite (to_dict_node_cycle (S fuel) m a Hloop) in Hsome.
    by destruct Hsome.
  - assert (Hroot : ∀ i v', cs !! i = Some v' → ∃ k, k ∈ view_names v').
    { intros i v' Hi. destruct (Hview i v' Hi) as (c & _ & _ & Hv').
      destruct fuel as [|fuel']; [done|].
      apply to_dict_node_children in Hv' as (n' & cs' & _ & _ & ->).
      eexists. left. }
    apply NoDup_bind.
    + intros v1 v2 k [i Hi]%list_elem_of_lookup [j Hj]%list_elem_of_lookup
        Hk1 Hk2.
      assert (i = j) as ->
        by (by eapply (to_dict_node_children_apart fuel a n cs i j v1 v2 k)).
      congruence.
    + intros v' [i Hi]%list_elem_of_lookup.
      destruct (Hview i v' Hi) as (c & _ & Hcv & Hv'). by eapply IH.
    + apply NoDup_alt. intros i j v' Hi Hj.
      destruct (Hroot i v' Hi) as [k Hk].
      by eapply (to_dict_node_children_apart fuel a n cs i j v' v' k).
Qed.

(** What [to_dict] shows of a node of [D] is rebuilt by [load_data] as it
    is. *)
Lemma region_roundtrip fuel a v :
  D a → to_dict_node fuel m a = Some v →
  ∀ fuel', (fuel ≤ fuel')%nat → to_dict fuel' (load_data v) = Some v.
Proof.
  intros Ha Hv fuel' Hfuel. apply load_data_shows.
  - by eapply to_dict_node_proper.
  - by eapply to_dict_node_names_NoDup.
  - apply to_dict_node_depth in Hv. lia.
Qed.

End region_view.

(** The nodes of the dictionary of a well-formed tree. *)
Lemma wf_region self :
  wf self → region (mem self) (λ a, a ∈ Dict.values (nodes self)).
Proof.
  intros Hwf. split.
  - intros a c. apply (wf_closed self Hwf).
  - apply (wf_name_inj self Hwf).
  - intros p q c. apply (wf_unique_parent self Hwf).
  - apply (wf_children_NoDup self Hwf).
  - intros a Ha Hemp. apply (wf_empty_name self Hwf).
    rewrite <- Hemp. by apply wf_value.
Qed.

(** A part of such a set that holds the children of its nodes. *)
Lemma region_sub (m : memory) (D D' : addr → Prop) :
  region m D → (∀ a, D' a → D a) → (∀ a c, D' a → child m a c → D' c) →
  region m D'.
Proof.
  intros HD Hsub Hcl. split.
  - exact Hcl.
  - intros a b Ha Hb. apply (region_names _ _ HD); auto.
  - intros p q c Hp Hq. apply (region_parent _ _ HD); auto.
  - intros a Ha. apply (region_children _ _ HD); auto.
  - intros a Ha. apply (region_empty _ _ HD); auto.
Qed.

End RoundTripFacts.

(** ** Every reachable state is well formed *)

Module ReachableFacts.
Import DepartmentHierarchy Tree DictFacts TreeFacts DeleteFacts ForestFacts.
Import EditFacts RenameFacts RoundTripFacts.

Lemma root_if_unset_wf node self : wf self → wf (root_if_unset node self).
Proof. unfold root_if_unset. by destruct (root self). Qed.

Lemma root_if_unset_nodes node self : nodes (root_if_unset node self) = nodes self.
Proof. unfold root_if_unset. by destruct (root self). Qed.

Lemma add_wf name parent head employees budget perf self :
  wf self → wf (add name parent head employees budget perf self).2.
Proof.
  intros Hwf.
  destruct (Dict.get name (nodes self)) as [a|] eqn:Hget.
  { by rewrite add_existing. }
  rewrite add_fresh by done. cbn [snd]. cbv zeta.
  pose proof (alloc_wf self Hwf name head employees budget perf Hget) as Hwf0.
  destruct parent as [parent|]; [|by apply root_if_unset_wf].
  destruct (decide (parent = "")) as [|Hne]; [by apply root_if_unset_wf|].
  destruct (Dict.get parent _) as [p|] eqn:Hp; [|by apply root_if_unset_wf].
  apply attach_wf; [done|by eapply get_Some_value| | |].
  - apply alloc_new_value.
  - by apply alloc_new_no_parent.
  - rewrite (wf_name_of _ Hwf0 parent p); [done|]. by apply get_Some_elem.
Qed.

(** *** [delete] with more fuel *)

Lemma delete_loop_mono fuel fuel' self to_delete i r :
  delete_loop fuel self to_delete i = Some r → (fuel ≤ fuel')%nat →
  delete_loop fuel' self to_delete i = Some r.
Proof.
  revert fuel' to_delete i.
  induction fuel as [|fuel IH]; intros fuel' to_delete i Hr Hle.
  - destruct fuel'; simpl in *; by destruct (to_delete !! i).
  - destruct fuel' as [|fuel']; [lia|]. simpl in *.
    destruct (to_delete !! i); [|done]. apply IH; [done|lia].
Qed.

Lemma delete_mono fuel fuel' name self r :
  delete fuel name self = Some r → (fuel ≤ fuel')%nat →
  delete fuel' name self = Some r.
Proof.
  unfold delete. destruct (negb _); [done|]. intros Hr Hle.
  destruct (delete_loop fuel _ _ _) as [l|] eqn:Hl; [|done].
  by rewrite (delete_loop_mono _ _ _ _ _ _ Hl Hle).
Qed.

Lemma delete_result_wf fuel name self result self' :
  wf self → delete fuel name self = Some (result, self') → wf self'.
Proof.
  intros Hwf Hdel.
  destruct (Dict.get name (nodes self)) as [x|] eqn:HX.
  - apply (delete_mono _ (fuel `max` length (nodes self))) in Hdel; [|lia].
    destruct (delete_present self Hwf name x HX
                (fuel `max` length (nodes self))) as (q & Hq & Hdel'); [lia|].
    rewrite Hdel' in Hdel. injection Hdel as _ <-.
    by apply (delete_wf self Hwf name x HX).
  - rewrite delete_absent in Hdel by done. by injection Hdel as _ <-.
Qed.

(** *** [edit] *)

Section edit_wf.
Variable int_ : value → PyExn + Z.
Variable float_ : value → PyExn + spec_float.

Lemma setattr_wf node f self :
  (∀ n, DepartmentNode.name (f n) = DepartmentNode.name n) →
  (∀ n, DepartmentNode.children (f n) = DepartmentNode.children n) →
  wf self → wf (setattr node f self).
Proof.
  intros Hname Hch (Hk & Hn & Hc & Hp & He).
  assert (Hrefs : child_refs (setattr node f self) = child_refs self).
  { unfold child_refs. simpl. apply bind_ext_in. intros a _.
    by apply children_of_alter. }
  unfold wf. rewrite Hrefs. split_and!; [done| |done|done|].
  - eapply Forall_impl; [exact Hn|]. intros kv Hkv. simpl.
    destruct (decide (node = kv.2)) as [->|Hne].
    + rewrite list_lookup_alter_eq. rewrite <- Hkv.
      destruct (mem self !! kv.2); simpl; [|done]. by rewrite Hname.
    + by rewrite list_lookup_alter_ne.
  - eapply Forall_impl; [exact He|]. intros kv Hkv Hemp. simpl.
    rewrite children_of_alter by done. by apply Hkv.
Qed.

Lemma assign_wf coerce store node v self :
  (∀ x n, DepartmentNode.name (store x n) = DepartmentNode.name n) →
  (∀ x n, DepartmentNode.children (store x n) = DepartmentNode.children n) →
  wf self →
  wf (assign coerce store node v self).2
  ∧ nodes (assign coerce store node v self).2 = nodes self.
Proof.
  intros Hname Hch Hwf. unfold assign.
  destruct v; try done; destruct (coerce _); try done;
    (split; [by apply setattr_wf|done]).
Qed.

Lemma edit_meta_wf node head employees budget perf self :
  wf self →
  wf (edit_meta int_ float_ node head employees budget perf self).2
  ∧ nodes (edit_meta int_ float_ node head employees budget perf self).2
    = nodes self.
Proof.
  intros Hwf. unfold edit_meta.
  destruct (assign_wf inr DepartmentNode.with_head node head self)
    as [W1 N1]; [done..|].
  destruct (assign inr DepartmentNode.with_head node head self)
    as [[[]|e1] s1]; cbn [and_then snd] in *; [|done].
  destruct (assign_wf (to_int int_) DepartmentNode.with_employees node
              employees s1) as [W2 N2]; [done..|].
  destruct (assign (to_int int_) DepartmentNode.with_employees node
              employees s1) as [[[]|e2] s2]; cbn [and_then snd] in *;
    [|split; [done|congruence]].
  destruct (assign_wf (to_float float_) DepartmentNode.with_budget node
              budget s2) as [W3 N3]; [done..|].
  destruct (assign (to_float float_) DepartmentNode.with_budget node
              budget s2) as [[[]|e3] s3]; cbn [and_then snd] in *;
    [|split; [done|congruence]].
  destruct (assign_wf (to_float float_) DepartmentNode.with_perf node
              perf s3) as [W4 N4]; [done..|].
  split; [done|congruence].
Qed.

Lemma edit_rename_wf name new_name node self self' :
  wf self → Dict.get name (nodes self) = Some node →
  edit_rename name new_name node self = Some self' →
  wf self' ∧ node ∈ Dict.values (nodes self').
Proof.
  intros Hwf Hget. pose proof (get_Some_value _ _ _ Hget) as Hv.
  unfold edit_rename. destruct new_name as [Y|]; [|by intros [= <-]].
  destruct (decide (Y ≠ "" ∧ Y ≠ name)) as [[HY Hne]|]; [|by intros [= <-]].
  destruct (Dict.mem Y (nodes self)) eqn:Hmem; [done|].
  apply mem_false in Hmem.
  pose proof (edit_rename_fresh self Hwf name Y node Hget Hmem HY) as Hfresh.
  unfold edit_rename in Hfresh.
  rewrite decide_True, (proj2 (mem_false _ _) Hmem) in Hfresh by done.
  rewrite Hfresh. intros [= <-]. split.
  - by apply renamed_wf.
  - by apply (renamed_values self Hwf name Y node Hget Hmem).
Qed.

Lemma edit_reparent_wf node parent self :
  wf self → node ∈ Dict.values (nodes self) →
  wf (edit_reparent node parent self).
Proof.
  intros Hwf Hnode. unfold edit_reparent.
  destruct parent as [parent|]; [|done].
  pose proof (wf_value self Hwf node Hnode) as HX.
  set (X := name_of (mem self) node) in *.
  pose proof (detach_wf self Hwf X node HX) as Hwf1.
  pose proof (detach_nodes self X) as Hn1.
  pose proof (detach_no_parent self Hwf X node HX) as Hfree.
  set (self1 := find_parent_and_remove X self) in *.
  destruct (decide (parent = "")); [by apply root_if_unset_wf|].
  destruct (Dict.get parent (nodes self1)) as [p|] eqn:Hp;
    [|by apply root_if_unset_wf].
  apply attach_wf; [done|by eapply get_Some_value|by rewrite Hn1|done|].
  rewrite (wf_name_of _ Hwf1 parent p); [done|]. by apply get_Some_elem.
Qed.

Lemma edit_wf name new_name head employees budget perf parent self :
  wf self →
  wf (edit int_ float_ name new_name head employees budget perf parent self).2.
Proof.
  intros Hwf. unfold edit.
  destruct (Dict.get name (nodes self)) as [node|] eqn:Hget; [|done].
  destruct (edit_meta_wf node head employees budget perf self Hwf)
    as [Hwf1 Hn1].
  destruct (edit_meta _ _ _ _ _ _ _ _) as [[[]|e] self1];
    cbn [snd] in *; [|done].
  destruct (edit_rename name new_name node self1) as [self2|] eqn:Hren;
    [|done].
  destruct (edit_rename_wf name new_name node self1 self2 Hwf1) as [Hwf2 Hv2];
    [by rewrite Hn1|done|].
  cbn [snd]. by apply edit_reparent_wf.
Qed.

Lemma init_wf : wf init.
Proof. apply (bool_decide_unpack _). by vm_compute. Qed.

(** Well-formedness is an invariant of the program: whatever calls were
    made, with whatever arguments and outcomes, the state is well formed. *)
Theorem reachable_wf self : reachable int_ float_ self → wf self.
Proof.
  induction 1 as [|self name parent head employees budget perf _ IH
                  |self fuel name result self' _ IH Hdel
                  |self name new_name head employees budget perf parent _ IH].
  - apply init_wf.
  - by apply add_wf.
  - by eapply delete_result_wf.
  - by apply edit_wf.
Qed.

End edit_wf.

(** *** The root object *)

(** [self'] has left alone the objects that the dictionary of [self] does
    not refer to, and its dictionary refers to none of them. *)
Definition frame (self self' : t) : Prop :=
  (∀ a, a < length (mem self) → a ∉ Dict.values (nodes self) →
     mem self' !! a = mem self !! a)
  ∧ (∀ a, a ∈ Dict.values (nodes self') →
       a ∈ Dict.values (nodes self) ∨ (length (mem self) ≤ a)%nat)
  ∧ (length (mem self) ≤ length (mem self'))%nat.

Lemma frame_dropped self self' D :
  frame self self' → region (mem self) D → dropped self D →
  region (mem self') D ∧ dropped self' D.
Proof.
  intros (Hmem & Hvals & Hlen) HD Hdrop.
  assert (Hsame : ∀ a, D a → mem self' !! a = mem self !! a).
  { intros a [Hlt Hnot]%Hdrop. by apply Hmem. }
  assert (Hn : ∀ a, D a → name_of (mem self') a = name_of (mem self) a).
  { intros a Ha. unfold name_of. by rewrite Hsame. }
  assert (Hc : ∀ a, D a →
            children_of (mem self') a = children_of (mem self) a).
  { intros a Ha. unfold children_of. by rewrite Hsame. }
  split; [split|].
  - intros a c Ha. unfold child. rewrite Hc by done.
    by apply (region_closed _ _ HD).
  - intros a b Ha Hb. rewrite !Hn by done. by apply (region_names _ _ HD).
  - intros p q c Hp Hq. unfold child. rewrite !Hc by done.
    by apply (region_parent _ _ HD).
  - intros a Ha. rewrite Hc by done. by apply (region_children _ _ HD).
  - intros a Ha. rewrite Hn, Hc by done. by apply (region_empty _ _ HD).
  - intros a Ha. destruct (Hdrop a Ha) as [Hlt Hnot]. split; [lia|].
    intros [?|?]%Hvals; [done|lia].
Qed.

(** What [add] and [edit] do to the dictionary and to the root reference:
    the dictionary loses no node, and the root reference is left as it is
    or set to a node of the dictionary. *)
Definition keeps_root (self self' : t) : Prop :=
  frame self self'
  ∧ (∀ a, a ∈ Dict.values (nodes self) → a ∈ Dict.values (nodes self'))
  ∧ (root self' = root self
     ∨ ∃ r, root self' = Some r ∧ r ∈ Dict.values (nodes self')).

Lemma keeps_root_refl self : keeps_root self self.
Proof. split_and!; [split_and!|..]; auto. Qed.

Lemma keeps_root_trans s1 s2 s3 :
  keeps_root s1 s2 → keeps_root s2 s3 → keeps_root s1 s3.
Proof.
  intros ((Hm1 & Hv1 & Hl1) & Hs1 & Hr1) ((Hm2 & Hv2 & Hl2) & Hs2 & Hr2).
  split_and!; [split_and!|..].
  - intros a Hlt Hnot. rewrite Hm2; [by apply Hm1|lia|].
    intros [?|?]%Hv1; [done|lia].
  - intros a [[?|?]%Hv1|?]%Hv2; [by left|right; lia|right; lia].
  - lia.
  - auto.
  - destruct Hr2 as [->|?]; [|by right].
    destruct Hr1 as [->|(r & -> & Hr)]; [by left|]. right. eauto.
Qed.

Lemma keeps_root_rooted self self' :
  keeps_root self self' → rooted self → rooted self'.
Proof.
  intros (Hf & Hs & Hr) Hroot r Hr'.
  destruct Hr as [Heq|(r' & Hr1 & Hr2)].
  - rewrite Heq in Hr'. destruct (Hroot r Hr') as [?|(D & HD & Hdrop & HDr)].
    + left. auto.
    + right. exists D. destruct (frame_dropped _ _ _ Hf HD Hdrop). eauto.
  - left. congruence.
Qed.

Lemma setattr_keeps node f self :
  node ∈ Dict.values (nodes self) → keeps_root self (setattr node f self).
Proof.
  intros Hnode. unfold setattr.
  split_and!; [split_and!|..]; cbn [nodes mem root].
  - intros a _ Hnot. apply list_lookup_alter_ne. by intros ->.
  - auto.
  - by rewrite length_alter.
  - auto.
  - by left.
Qed.

Lemma root_if_unset_keeps node self :
  node ∈ Dict.values (nodes self) → keeps_root self (root_if_unset node self).
Proof.
  intros Hnode. unfold root_if_unset.
  destruct (root self) as [r|] eqn:Hr; [apply keeps_root_refl|].
  split_and!; [split_and!|..]; cbn [nodes mem root]; auto.
  right. eauto.
Qed.

Lemma alloc_keeps name head employees budget perf self :
  keeps_root self (alloc name head employees budget perf self).
Proof.
  unfold alloc. split_and!; [split_and!|..]; cbn [nodes mem root].
  - intros a Hlt _. by apply lookup_app_l.
  - intros a. unfold Dict.values. rewrite fmap_app.
    intros [?|Ha]%elem_of_app; [by left|right].
    apply list_elem_of_singleton in Ha. simpl in Ha. lia.
  - rewrite length_app. lia.
  - intros a Ha. unfold Dict.values. rewrite fmap_app.
    apply elem_of_app. by left.
  - by left.
Qed.

Lemma find_parent_and_remove_keeps name self :
  keeps_root self (find_parent_and_remove name self).
Proof.
  pose proof (find_parent_and_remove_spec name self) as (Hr & Hn & _ & Hm).
  split_and!; [split_and!|..].
  - intros a _ Hnot. rewrite Hm. destruct (decide _); [done|].
    by destruct (mem self !! a).
  - intros a. rewrite Hn. by left.
  - by rewrite find_parent_and_remove_length.
  - intros a. by rewrite Hn.
  - by left.
Qed.

Lemma renamed_keeps self X Y x :
  wf self → Dict.get X (nodes self) = Some x →
  Dict.get Y (nodes self) = None → keeps_root self (renamed self X Y x).
Proof.
  intros Hwf HX HY. pose proof (get_Some_value _ _ _ HX) as Hx.
  split_and!; [split_and!|..].
  - intros a _ Hnot. cbn [renamed mem].
    apply list_lookup_alter_ne. by intros ->.
  - intros a Ha. left. by apply (renamed_values self Hwf X Y x HX HY).
  - cbn [renamed mem]. by rewrite length_alter.
  - intros a Ha. by apply (renamed_values self Hwf X Y x HX HY).
  - by left.
Qed.

Lemma add_keeps name parent head employees budget perf self :
  keeps_root self (add name parent head employees budget perf self).2.
Proof.
  destruct (Dict.get name (nodes self)) as [a|] eqn:Hget.
  { rewrite add_existing by done. apply keeps_root_refl. }
  rewrite add_fresh by done. cbn [snd]. cbv zeta.
  eapply keeps_root_trans; [apply alloc_keeps|].
  pose proof (alloc_new_value self name head employees budget perf) as Hnew.
  destruct parent as [parent|]; [|by apply root_if_unset_keeps].
  destruct (decide (parent = "")); [by apply root_if_unset_keeps|].
  destruct (Dict.get parent _) as [p|] eqn:Hp; [|by apply root_if_unset_keeps].
  apply setattr_keeps. by eapply get_Some_value.
Qed.

Lemma delete_result_rooted fuel name self result self' :
  wf self → rooted self → delete fuel name self = Some (result, self') →
  rooted self'.
Proof.
  intros Hwf Hroot Hdel.
  destruct (Dict.get name (nodes self)) as [x|] eqn:HX.
  2:{ rewrite delete_absent in Hdel by done. by injection Hdel as _ <-. }
  apply (delete_mono _ (fuel `max` length (nodes self))) in Hdel; [|lia].
  destruct (delete_present self Hwf name x HX
              (fuel `max` length (nodes self))) as (q & Hq & Hdel'); [lia|].
  rewrite Hdel' in Hdel. injection Hdel as _ <-.
  assert (Hwf0 : wf (mk (root_after self name) (nodes self) (mem self)))
    by done.
  pose proof (get_Some_elem _ _ _ HX) as HXin.
  pose proof (detach_wf _ Hwf0 name x HXin) as Hwf1.
  pose proof (detach_nodes
                (mk (root_after self name) (nodes self) (mem self)) name)
    as Hn1.
  pose proof (detach_subtree _ Hwf0 name x HXin) as Hsub.
  pose proof (find_parent_and_remove_spec name
                (mk (root_after self name) (nodes self) (mem self)))
    as (_ & _ & _ & Hm1).
  pose proof (find_parent_and_remove_length name
                (mk (root_after self name) (nodes self) (mem self))) as Hl1.
  set (self1 := find_parent_and_remove name
                  (mk (root_after self name) (nodes self) (mem self))) in *.
  cbn [nodes mem] in Hn1, Hsub, Hm1, Hl1.
  assert (Hframe :
    frame self (mk (root_after self name) (kept self q) (mem self1))).
  { split_and!; cbn [nodes mem].
    - intros a _ Hnot. rewrite Hm1. destruct (decide _); [done|].
      by destruct (mem self !! a).
    - intros a Ha. left. eapply elem_of_sublist; [exact Ha|].
      apply fmap_sublist, kept_sublist.
    - by rewrite Hl1. }
  intros r Hr. cbn [root] in Hr.
  assert (Hr0 : root self = Some r).
  { unfold root_after in Hr. destruct (root self) as [r0|]; [|done].
    by destruct (decide _). }
  destruct (Hroot r Hr0) as [Hrv|(D & HD & Hdrop & HDr)].
  - destruct (decide (r ∈ q)) as [Hrq|Hrq].
    + right. exists (in_subtree (mem self1) r).
      assert (Hrv1 : r ∈ Dict.values (nodes self1)) by (by rewrite Hn1).
      split_and!.
      * apply (region_sub _ _ _ (wf_region self1 Hwf1)).
        -- intros a Ha. by eapply wf_subtree_mapped.
        -- intros a c Ha Hac. by eapply rtc_r.
      * intros a Ha. cbn [nodes mem]. split.
        -- apply (wf_value_lt self1 Hwf1). by eapply wf_subtree_mapped.
        -- intros [k Hk]%value_elem.
           apply (kept_elem self Hwf name x HX q k a Hq) in Hk as [_ Hnot].
           apply Hnot, Hsub. unfold in_subtree in *.
           transitivity r; [|exact Ha]. apply Hsub. by apply Hq.
      * constructor.
    + left. cbn [nodes]. apply value_elem in Hrv as [k Hk].
      apply value_elem. exists k.
      apply (kept_elem self Hwf name x HX q k r Hq). split; [done|].
      by rewrite <- Hq.
  - right. exists D. destruct (frame_dropped _ _ _ Hframe HD Hdrop). eauto.
Qed.

Section edit_rooted.
Variable int_ : value → PyExn + Z.
Variable float_ : value → PyExn + spec_float.

Lemma assign_keeps coerce store node v self :
  node ∈ Dict.values (nodes self) →
  keeps_root self (assign coerce store node v self).2.
Proof.
  intros Hnode. unfold assign.
  destruct v; try apply keeps_root_refl; destruct (coerce _);
    first [apply keeps_root_refl | by apply setattr_keeps].
Qed.

Lemma edit_meta_keeps node head employees budget perf self :
  node ∈ Dict.values (nodes self) →
  keeps_root self
    (edit_meta int_ float_ node head employees budget perf self).2.
Proof.
  intros Hnode. unfold edit_meta.
  pose proof (assign_keeps inr DepartmentNode.with_head node head self Hnode)
    as K1.
  destruct (assign inr DepartmentNode.with_head node head self)
    as [[[]|e1] s1]; cbn [and_then snd] in *; [|done].
  assert (Hnode1 : node ∈ Dict.values (nodes s1)) by (by apply K1).
  pose proof (assign_keeps (to_int int_) DepartmentNode.with_employees node
                employees s1 Hnode1) as K2.
  destruct (assign (to_int int_) DepartmentNode.with_employees node
              employees s1) as [[[]|e2] s2]; cbn [and_then snd] in *;
    [|by eapply keeps_root_trans].
  assert (Hnode2 : node ∈ Dict.values (nodes s2)) by (by apply K2).
  pose proof (assign_keeps (to_float float_) DepartmentNode.with_budget node
                budget s2 Hnode2) as K3.
  destruct (assign (to_float float_) DepartmentNode.with_budget node
              budget s2) as [[[]|e3] s3]; cbn [and_then snd] in *;
    [|eapply keeps_root_trans; [exact K1|by eapply keeps_root_trans]].
  assert (Hnode3 : node ∈ Dict.values (nodes s3)) by (by apply K3).
  pose proof (assign_keeps (to_float float_) DepartmentNode.with_perf node
                perf s3 Hnode3) as K4.
  eapply keeps_root_trans; [exact K1|]. eapply keeps_root_trans; [exact K2|].
  by eapply keeps_root_trans.
Qed.

Lemma edit_rename_keeps name new_name node self self' :
  wf self → Dict.get name (nodes self) = Some node →
  edit_rename name new_name node self = Some self' → keeps_root self self'.
Proof.
  intros Hwf Hget. unfold edit_rename.
  destruct new_name as [Y|]; [|intros [= <-]; apply keeps_root_refl].
  destruct (decide (Y ≠ "" ∧ Y ≠ name)) as [[HY Hne]|];
    [|intros [= <-]; apply keeps_root_refl].
  destruct (Dict.mem Y (nodes self)) eqn:Hmem; [done|].
  apply mem_false in Hmem.
  pose proof (edit_rename_fresh self Hwf name Y node Hget Hmem HY) as Hfresh.
  unfold edit_rename in Hfresh.
  rewrite decide_True, (proj2 (mem_false _ _) Hmem) in Hfresh by done.
  rewrite Hfresh. intros [= <-]. by apply renamed_keeps.
Qed.

Lemma edit_reparent_keeps node parent self :
  node ∈ Dict.values (nodes self) →
  keeps_root self (edit_reparent node parent self).
Proof.
  intros Hnode. unfold edit_reparent.
  destruct parent as [parent|]; [|apply keeps_root_refl].
  pose proof (find_parent_and_remove_keeps (name_of (mem self) node) self)
    as K1.
  assert (Hnode1 : node ∈ Dict.values
            (nodes (find_parent_and_remove (name_of (mem self) node) self)))
    by (by apply K1).
  eapply keeps_root_trans; [exact K1|].
  destruct (decide (parent = "")); [by apply root_if_unset_keeps|].
  destruct (Dict.get parent _) as [p|] eqn:Hp; [|by apply root_if_unset_keeps].
  apply setattr_keeps. by eapply get_Some_value.
Qed.

Lemma edit_keeps name new_name head employees budget perf parent self :
  wf self →
  keeps_root self
    (edit int_ float_ name new_name head employees budget perf parent self).2.
Proof.
  intros Hwf. unfold edit.
  destruct (Dict.get name (nodes self)) as [node|] eqn:Hget;
    [|apply keeps_root_refl].
  pose proof (get_Some_value _ _ _ Hget) as Hnode.
  destruct (edit_meta_wf int_ float_ node head employees budget perf self Hwf)
    as [Hwf1 Hn1].
  pose proof (edit_meta_keeps node head employees budget perf self Hnode)
    as K1.
  destruct (edit_meta _ _ _ _ _ _ _ _) as [[[]|e] self1];
    cbn [snd] in *; [|done].
  destruct (edit_rename name new_name node self1) as [self2|] eqn:Hren;
    [|done].
  destruct (edit_rename_wf name new_name node self1 self2 Hwf1) as [Hwf2 Hv2];
    [by rewrite Hn1|done|].
  pose proof (edit_rename_keeps name new_name node self1 self2 Hwf1) as K2.
  cbn [snd]. eapply keeps_root_trans; [exact K1|].
  eapply keeps_root_trans; [apply K2; [by rewrite Hn1|done]|].
  by apply edit_reparent_keeps.
Qed.

(** Whatever calls were made, the root object is a node of the dictionary
    or the top of a subtree that [delete] dropped. *)
Theorem reachable_rooted self : reachable int_ float_ self → rooted self.
Proof.
  induction 1 as [|self name parent head employees budget perf Hreach IH
                  |self fuel name result self' Hreach IH Hdel
                  |self name new_name head employees budget perf parent
                     Hreach IH].
  - by intros r.
  - eapply keeps_root_rooted; [apply add_keeps|done].
  - eapply delete_result_rooted; [|done|done].
    by apply (reachable_wf int_ float_).
  - eapply keeps_root_rooted; [|done]. apply edit_keeps.
    by apply (reachable_wf int_ float_).
Qed.

End edit_rooted.

End ReachableFacts.

(** ** [to_dict] after [load_data] *)

Module RoundTrip.
Import DepartmentHierarchy Tree RoundTripFacts ReachableFacts.

Section roundtrip.
Variable int_ : value → PyExn + Z.
Variable float_ : value → PyExn + spec_float.

(** The tree that [load_data] rebuilds is made by [add] calls only. *)
Lemma build_reachable v parent self :
  reachable int_ float_ self → reachable int_ float_ (build v parent self).
Proof.
  revert parent self.
  induction v as [|name head employees budget perf cs IH] using dict_view_ind';
    intros parent self Hs; [done|].
  simpl.
  pose proof (reach_add int_ float_ self name parent head employees budget
                perf Hs) as Hs'.
  revert Hs'. generalize (add name parent head employees budget perf self).2.
  induction IH as [|c cs Hc _ IHcs]; intros s Hs'; simpl; [done|].
  apply IHcs. by apply Hc.
Qed.

Lemma load_data_reachable v : reachable int_ float_ (load_data v).
Proof. apply build_reachable, reach_init. Qed.

(** C6: in every state the program can be in, when [to_dict] returns a
    structure, rebuilding a tree from that structure with [load_data] and
    calling [to_dict] again returns the same structure, with the same fuel
    or more. *)
Theorem to_dict_load_data_roundtrip self fuel v :
  reachable int_ float_ self → to_dict fuel self = Some v →
  ∀ fuel', (fuel ≤ fuel')%nat → to_dict fuel' (load_data v) = Some v.
Proof.
  intros Hreach Hv fuel' Hfuel.
  pose proof (reachable_wf int_ float_ self Hreach) as Hwf.
  pose proof (reachable_rooted int_ float_ self Hreach) as Hroot.
  unfold to_dict in Hv. destruct (root self) as [r|] eqn:Hr.
  - destruct (Hroot r Hr) as [Hrv|(D & HD & _ & HDr)].
    + by apply (region_roundtrip _ _ (wf_region self Hwf) fuel r v).
    + by apply (region_roundtrip _ _ HD fuel r v).
  - by injection Hv as <-.
Qed.

End roundtrip.

End RoundTrip.

(** ** The round trip on an example tree *)

Module RoundTripExamples.
Import DepartmentHierarchy Tree Examples RoundTrip.

Lemma to_dict_load_data_roundtrip_witness :
  reachable Builtins.int_ Builtins.float_ tree_AB
  ∧ to_dict 2 tree_AB
    = Some (VNode "A" (VStr "") (VInt 0) (VInt 0) (VInt 0)
              [VNode "B" (VStr "") (VInt 0) (VInt 0) (VInt 0) []])
  ∧ to_dict 2
      (load_data (VNode "A" (VStr "") (VInt 0) (VInt 0) (VInt 0)
                    [VNode "B" (VStr "") (VInt 0) (VInt 0) (VInt 0) []]))
    = Some (VNode "A" (VStr "") (VInt 0) (VInt 0) (VInt 0)
              [VNode "B" (VStr "") (VInt 0) (VInt 0) (VInt 0) []]).
Proof.
  assert (Hreach : reachable Builtins.int_ Builtins.float_ tree_AB).
  { unfold tree_AB, add_default. do 2 apply reach_add. apply reach_init. }
  split; [exact Hreach|]. split; [reflexivity|].
  apply (to_dict_load_data_roundtrip Builtins.int_ Builtins.float_
           tree_AB 2 _ Hreach eq_refl 2).
  lia.
Defined.

End RoundTripExamples.

(** ** A root object that has left the dictionary *)

Module DroppedRootExamples.
Import DepartmentHierarchy Tree Examples.

(** [add("R"); add("P"); edit("R", parent="P"); delete("P"); add("R")]:
    [delete("P")] drops [P] and its child, the old [R], from the dictionary,
    but [self.root] still refers to the old [R]; the second [add("R")]
    creates another node of that name.  [edit("R", new_name="Z")] then
    returns [True] and renames the new node, while [to_dict] goes on showing
    the old root under the name [R]. *)
Lemma rename_under_dropped_root :
  let s0 := add_default "P" None (add_default "R" None init) in
  let s1 :=
    (edit Builtins.int_ Builtins.float_ "R" None VNone VNone VNone VNone
       (Some "P") s0).2 in
  ∃ s2,
    delete 2 "P" s1 = Some (true, s2)
    ∧ let s3 := add_default "R" None s2 in
      reachable Builtins.int_ Builtins.float_ s3
      ∧ root s3 = Some 0
      ∧ Dict.get "R" (nodes s3) = Some 2
      ∧ ∃ s4,
          edit Builtins.int_ Builtins.float_ "R" (Some "Z") VNone VNone VNone
            VNone None s3 = (Return true, s4)
          ∧ Dict.get "Z" (nodes s4) = Some 2
          ∧ to_dict 1 s4
            = Some (VNode "R" (VStr "") (VInt 0) (VInt 0) (VInt 0) []).
Proof.
  intros s0 s1. eexists. split; [vm_compute; reflexivity|].
  cbv zeta. split_and!.
  - unfold add_default. apply reach_add.
    apply (reach_delete _ _ s1 2 "P" true); [|vm_compute; reflexivity].
    unfold s1, s0, add_default. apply reach_edit. do 2 apply reach_add.
    apply reach_init.
  - reflexivity.
  - reflexivity.
  - eexists. by split_and!.
Qed.

End DroppedRootExamples.

(** ** What [get_all] shows after each operation of the heap *)

Module DepartmentHeapExtras.
Import DepartmentHeap DepartmentHeapFacts.

Lemma filter_sorted (P : item → Prop) `{∀ x, Decision (P x)} (l : list item) :
  StronglySorted item_le l → StronglySorted item_le (filter P l).
Proof.
  induction 1 as [|x l Hl IH Hx]; [constructor|].
  rewrite filter_cons. destruct (decide (P x)); [|done].
  constructor; [done|]. rewrite Forall_forall in *.
  intros y [_ Hy]%list_elem_of_filter. by apply Hx.
Qed.

Lemma filter_perm (P : item → Prop) `{∀ x, Decision (P x)} (l1 l2 : list item) :
  l1 ≡ₚ l2 → filter P l1 ≡ₚ filter P l2.
Proof. intros Hl. by rewrite Hl. Qed.

Lemma filter_none (P : item → Prop) `{∀ x, Decision (P x)} (l : list item) :
  (∀ x, x ∈ l → ¬ P x) → filter P l = [].
Proof.
  induction l as [|x l IH]; [done|]. intros Hl.
  rewrite filter_cons_False by (apply Hl; left).
  apply IH. intros y Hy. apply Hl. by right.
Qed.

Lemma get_all_remove_eq name self :
  get_all (remove name self) = filter (λ pn, pn.2 ≠ name) (get_all self).
Proof.
  unfold get_all, remove. apply sorted_unique.
  - rewrite sorted_perm, heapify_perm. apply filter_perm. by rewrite sorted_perm.
  - apply sorted_sorted.
  - apply filter_sorted, sorted_sorted.
Qed.

Lemma get_all_add_eq priority name self :
  get_all (add priority name self)
  = insert_sorted (priority, name) (get_all self).
Proof.
  unfold get_all, add. apply sorted_unique.
  - by rewrite sorted_perm, heappush_perm, insert_sorted_perm, sorted_perm.
  - apply sorted_sorted.
  - apply insert_sorted_sorted, sorted_sorted.
Qed.

(** X1: [get_all] after [add] is the former listing with the new pair put
    at its place in the order; the pair is listed once more than before,
    also when it was there already. *)
Theorem get_all_add priority name self :
  get_all (add priority name self)
  = insert_sorted (priority, name) (get_all self)
  ∧ get_all (add priority name self) ≡ₚ (priority, name) :: get_all self.
Proof.
  rewrite get_all_add_eq. split; [done|]. apply insert_sorted_perm.
Qed.

(** X2: [get_all] after [remove] is the former listing without the pairs
    that carry the name, the others in their former order; every pair with
    that name is gone, whatever its priority, and a name that is not there
    changes nothing. *)
Theorem get_all_remove name self :
  get_all (remove name self) = filter (λ pn, pn.2 ≠ name) (get_all self)
  ∧ (∀ priority, (priority, name) ∉ get_all (remove name self))
  ∧ ((∀ priority, (priority, name) ∉ get_all self) →
     get_all (remove name self) = get_all self).
Proof.
  rewrite get_all_remove_eq. split_and!; [done| |].
  - intros priority [Hne _]%list_elem_of_filter. by apply Hne.
  - intros Hno. apply TreeFacts.filter_all. intros [p n] Hin Heq.
    simpl in Heq. subst n. by apply (Hno p).
Qed.

Lemma get_all_edit_priority_eq name new_priority self :
  get_all (edit_priority name new_priority self)
  = insert_sorted (new_priority, name)
      (filter (λ pn, pn.2 ≠ name) (get_all self)).
Proof. unfold edit_priority. by rewrite get_all_add_eq, get_all_remove_eq. Qed.

Lemma edit_priority_one name new_priority self :
  filter (λ pn, pn.2 = name) (get_all (edit_priority name new_priority self))
  = [(new_priority, name)].
Proof.
  rewrite get_all_edit_priority_eq. apply Permutation_singleton_r.
  rewrite (filter_perm _ _ _ (insert_sorted_perm _ _)).
  rewrite filter_cons, decide_True by done.
  rewrite filter_none; [done|].
  intros x [Hx _]%list_elem_of_filter. done.
Qed.

Lemma edit_priority_others name new_priority self :
  filter (λ pn, pn.2 ≠ name) (get_all (edit_priority name new_priority self))
  = filter (λ pn, pn.2 ≠ name) (get_all self).
Proof.
  rewrite get_all_edit_priority_eq. apply sorted_unique.
  - rewrite (filter_perm _ _ _ (insert_sorted_perm _ _)).
    rewrite filter_cons, decide_False by (simpl; tauto).
    by rewrite list_filter_filter_l.
  - apply filter_sorted, insert_sorted_sorted, filter_sorted, sorted_sorted.
  - apply filter_sorted, sorted_sorted.
Qed.

(** X3: after [edit_priority] the listing holds exactly one pair with the
    name, the one with the new priority, whether the name was listed
    before once, several times or not at all; the other pairs are those of
    before, in their former order. *)
Theorem get_all_edit_priority name new_priority self :
  get_all (edit_priority name new_priority self)
  = insert_sorted (new_priority, name)
      (filter (λ pn, pn.2 ≠ name) (get_all self))
  ∧ filter (λ pn, pn.2 = name) (get_all (edit_priority name new_priority self))
    = [(new_priority, name)]
  ∧ filter (λ pn, pn.2 ≠ name) (get_all (edit_priority name new_priority self))
    = filter (λ pn, pn.2 ≠ name) (get_all self).
Proof.
  split_and!.
  - apply get_all_edit_priority_eq.
  - apply edit_priority_one.
  - apply edit_priority_others.
Qed.

End DepartmentHeapExtras.

(** ** The heap invariant of [heapq] *)

Module HeapInvariant.
Import DepartmentHeap DepartmentHeapFacts.

(** [c] is one of the two positions below [k]. *)
Definition below (k c : nat) : Prop := c = 2 * k + 1 ∨ c = 2 * k + 2.

(** The entry at [k] is not above the entry at [c]. *)
Definition edge (l : list item) (k c : nat) : Prop :=
  ∀ x y, l !! k = Some x → l !! c = Some y → item_le x y.

(** [heap[k] <= heap[2*k+1]] and [heap[k] <= heap[2*k+2]] for the
    positions [k] from [lo] on. *)
Definition heap_from (lo : nat) (l : list item) : Prop :=
  ∀ k c, (lo ≤ k)%nat → below k c → edge l k c.

(** The invariant that [heapq] documents. *)
Definition is_heap (l : list item) : Prop := heap_from 0 l.

(** The positions below [lo], [lo] included. *)
Inductive desc (lo : nat) : nat → Prop :=
| desc_refl : desc lo lo
| desc_below k c : desc lo k → below k c → desc lo c.

Lemma below_parent k c : below k c → (c - 1) / 2 = k ∧ k < c.
Proof.
  intros [->| ->]; split; try lia.
  - replace (2 * k + 1 - 1) with (k * 2) by lia. by apply Nat.div_mul.
  - replace (2 * k + 2 - 1) with (1 + k * 2) by lia.
    rewrite Nat.div_add by lia. done.
Qed.

Lemma parent_below c : 0 < c → below ((c - 1) / 2) c.
Proof.
  intros Hc. unfold below.
  pose proof (Nat.div_mod_eq (c - 1) 2) as Heq.
  pose proof (Nat.mod_upper_bound (c - 1) 2). lia.
Qed.

Lemma desc_ge lo pos : desc lo pos → (lo ≤ pos)%nat.
Proof.
  induction 1 as [|k c _ IH Hb]; [done|].
  apply below_parent in Hb. lia.
Qed.

Lemma desc_parent lo pos : desc lo pos → lo < pos → desc lo ((pos - 1) / 2).
Proof.
  intros Hd Hlt. destruct Hd as [|k c Hk Hb]; [lia|].
  apply below_parent in Hb as [-> _]. done.
Qed.

Lemma desc_0 pos : desc 0 pos.
Proof.
  induction (lt_wf pos) as [pos _ IH].
  destruct (decide (pos = 0)) as [->|]; [constructor|].
  pose proof (parent_below pos) as Hb.
  apply (desc_below 0 ((pos - 1) / 2)); [|apply Hb; lia].
  apply IH. destruct Hb as [?|?]; lia.
Qed.

Lemma item_le_refl x : item_le x x.
Proof. apply item_ltb_false. unfold item_ltb.
  rewrite Z.ltb_irrefl, Z.eqb_refl. simpl. unfold String.ltb.
  by rewrite string_compare_refl.
Qed.

(** *** [_siftdown] *)

(** The state of the loop of [_siftdown]: [pos] is the place that waits for
    [newitem].  Away from that place the entries are in order, the entries
    below it are not under [newitem], and they are not under the entry
    above it either. *)
Definition hole_ok (lo : nat) (newitem : item) (heap : list item)
    (pos : nat) : Prop :=
  pos < length heap ∧ desc lo pos
  ∧ (∀ k c, (lo ≤ k)%nat → below k c → c ≠ pos → k ≠ pos → edge heap k c)
  ∧ (∀ c y, below pos c → heap !! c = Some y → item_le newitem y)
  ∧ (∀ g c, (lo ≤ g)%nat → below g pos → below pos c → edge heap g c).

Lemma hole_fill lo newitem heap pos :
  hole_ok lo newitem heap pos →
  (∀ g x, (lo ≤ g)%nat → below g pos → heap !! g = Some x →
     item_le x newitem) →
  heap_from lo (<[pos := newitem]> heap).
Proof.
  intros (Hlen & Hdesc & K1 & K2 & K3) Hup k c Hk Hb x y Hx Hy.
  pose proof (below_parent k c Hb) as [_ Hkc].
  destruct (decide (c = pos)) as [->|Hc].
  - rewrite list_lookup_insert_eq in Hy by done. injection Hy as <-.
    rewrite list_lookup_insert_ne in Hx by lia. by apply (Hup k).
  - rewrite list_lookup_insert_ne in Hy by done.
    destruct (decide (k = pos)) as [->|Hkp].
    + rewrite list_lookup_insert_eq in Hx by done. injection Hx as <-.
      by apply (K2 c).
    + rewrite list_lookup_insert_ne in Hx by done. by apply (K1 k c).
Qed.

Lemma hole_step lo newitem heap pos parent :
  hole_ok lo newitem heap pos → lo < pos →
  heap !! ((pos - 1) / 2) = Some parent → item_ltb newitem parent = true →
  hole_ok lo newitem (<[pos := parent]> heap) ((pos - 1) / 2).
Proof.
  intros (Hlen & Hdesc & K1 & K2 & K3) Hlt Hparent Hless.
  pose proof (parent_below pos) as Hbp.
  assert (Hb : below ((pos - 1) / 2) pos) by (apply Hbp; lia). clear Hbp.
  pose proof (below_parent _ _ Hb) as [_ Hgp].
  pose proof (desc_parent lo pos Hdesc Hlt) as Hdg.
  pose proof (desc_ge lo _ Hdg) as Hlog.
  set (g := (pos - 1) / 2) in *.
  assert (Hnew : item_le newitem parent) by (by apply item_ltb_true).
  split_and!.
  - rewrite length_insert. lia.
  - done.
  - intros k c Hk Hkc Hcg Hkg x y Hx Hy.
    pose proof (below_parent k c Hkc) as [Hpar Hlt'].
    destruct (decide (c = pos)) as [->|Hcp].
    { destruct Hkg. unfold g. by rewrite Hpar. }
    rewrite list_lookup_insert_ne in Hy by done.
    destruct (decide (k = pos)) as [->|Hkp].
    + rewrite list_lookup_insert_eq in Hx by done. injection Hx as <-.
      by apply (K3 g c Hlog Hb Hkc).
    + rewrite list_lookup_insert_ne in Hx by done. by apply (K1 k c).
  - intros c y Hgc Hy.
    destruct (decide (c = pos)) as [->|Hcp].
    + rewrite list_lookup_insert_eq in Hy by done. by injection Hy as <-.
    + rewrite list_lookup_insert_ne in Hy by done.
      apply (item_le_trans _ parent); [done|].
      apply (K1 g c); [done|done|done|lia|done|done].
  - intros gg c Hgg Hggg Hgc x y Hx Hy.
    pose proof (below_parent gg g Hggg) as [_ Hlt'].
    rewrite list_lookup_insert_ne in Hx by lia.
    assert (Hxp : item_le x parent).
    { apply (K1 gg g); [done|done|lia|lia|done|done]. }
    destruct (decide (c = pos)) as [->|Hcp].
    + rewrite list_lookup_insert_eq in Hy by done. by injection Hy as <-.
    + rewrite list_lookup_insert_ne in Hy by done.
      apply (item_le_trans _ parent); [done|].
      apply (K1 g c); [done|done|done|lia|done|done].
Qed.

Lemma siftdown_loop_heap lo newitem heap pos :
  hole_ok lo newitem heap pos →
  heap_from lo (<[(siftdown_loop newitem lo heap pos).2 := newitem]>
                  (siftdown_loop newitem lo heap pos).1).
Proof.
  funelim (siftdown_loop newitem lo heap pos); intros Hok; simpl.
  all: try (match goal with H : hole_ok _ _ _ _ → _ |- _ =>
              apply H; by apply hole_step end).
  all: apply (hole_fill _ _ _ _ Hok); intros g x Hg Hb Hx.
  all: pose proof (below_parent _ _ Hb) as [Hpar Hlt].
  all: destruct Hok as (_ & Hd%desc_ge & _).
  - lia.
  - rewrite Hpar in *. congruence.
  - rewrite Hpar in *.
    match goal with H : heap !! g = Some ?p |- _ =>
      assert (x = p) as -> by congruence end.
    by apply item_ltb_false.
Qed.

(** [_siftdown] puts the entry at [pos] in order with the entries above
    it, down to [startpos]. *)
Lemma _siftdown_heap heap startpos pos newitem :
  heap !! pos = Some newitem → hole_ok startpos newitem heap pos →
  heap_from startpos (_siftdown heap startpos pos).
Proof.
  intros Hpos Hok. unfold _siftdown. rewrite Hpos.
  pose proof (siftdown_loop_heap startpos newitem heap pos Hok) as H.
  by destruct (siftdown_loop newitem startpos heap pos) as [heap' pos'].
Qed.

(** [heappush] keeps the invariant. *)
Lemma heappush_heap heap x : is_heap heap → is_heap (heappush heap x).
Proof.
  intros Hheap. unfold heappush, is_heap.
  rewrite length_app. simpl.
  replace (length heap + 1 - 1) with (length heap) by lia.
  apply (_siftdown_heap _ 0 _ x).
  { by rewrite lookup_app_r, Nat.sub_diag by lia. }
  split_and!.
  - rewrite length_app. simpl. lia.
  - apply desc_0.
  - intros k c _ Hb Hc Hk x' y Hx Hy.
    pose proof (below_parent k c Hb) as [_ Hlt].
    assert (Hclt : c < length heap).
    { apply lookup_lt_Some in Hy. rewrite length_app in Hy. simpl in Hy. lia. }
    rewrite lookup_app_l in Hx, Hy by lia.
    apply (Hheap k c); [lia|done|done|done].
  - intros c y Hb Hy. destruct Hb as [->| ->];
      apply lookup_lt_Some in Hy; rewrite length_app in Hy; simpl in Hy; lia.
  - intros g c _ _ Hb x' y _ Hy. destruct Hb as [->| ->];
      apply lookup_lt_Some in Hy; rewrite length_app in Hy; simpl in Hy; lia.
Qed.

(** *** [_siftup] *)

Lemma smaller_child_below endpos heap pos :
  below pos (smaller_child endpos heap pos).
Proof.
  unfold smaller_child, below. repeat case_match; lia.
Qed.

(** The entry that moves up is not above the other entry below [pos]. *)
Lemma smaller_child_min heap pos cv c y :
  heap !! smaller_child (length heap) heap pos = Some cv →
  below pos c → heap !! c = Some y → item_le cv y.
Proof.
  unfold smaller_child. intros Hcv Hb Hy.
  case_bool_decide as Hright.
  - destruct (heap !! (2 * pos + 1)) as [l|] eqn:Hl.
    2:{ apply lookup_ge_None in Hl. lia. }
    destruct (heap !! (2 * pos + 1 + 1)) as [r|] eqn:Hr.
    2:{ apply lookup_ge_None in Hr. lia. }
    destruct (item_ltb l r) eqn:Hlr; cbn [negb] in Hcv.
    + assert (cv = l) as -> by congruence.
      destruct Hb as [->| ->].
      * assert (y = l) as -> by congruence. apply item_le_refl.
      * replace (2 * pos + 2) with (2 * pos + 1 + 1) in Hy by lia.
        assert (y = r) as -> by congruence. by apply item_ltb_true.
    + assert (cv = r) as -> by congruence.
      destruct Hb as [->| ->].
      * assert (y = l) as -> by congruence. by apply item_ltb_false.
      * replace (2 * pos + 2) with (2 * pos + 1 + 1) in Hy by lia.
        assert (y = r) as -> by congruence. apply item_le_refl.
  - destruct Hb as [->| ->].
    + assert (y = cv) as -> by congruence. apply item_le_refl.
    + apply lookup_lt_Some in Hy. lia.
Qed.

(** The state of the loop of [_siftup] that started at [i]: once an entry
    has moved up, the entries from [i] on are in order (the place [pos]
    still holds the entry that moved up from it). *)
Definition rising (i endpos : nat) (heap : list item) (pos : nat) : Prop :=
  length heap = endpos ∧ pos < endpos ∧ desc i pos
  ∧ ∀ k c, (i ≤ k)%nat → below k c → (k = i → pos ≠ i) → edge heap k c.

Lemma rising_step i endpos heap pos cv :
  rising i endpos heap pos → 2 * pos + 1 < endpos →
  heap !! smaller_child endpos heap pos = Some cv →
  rising i endpos (<[pos := cv]> heap) (smaller_child endpos heap pos).
Proof.
  intros (Hlen & Hpos & Hdesc & Hedges) Hchild Hcv.
  pose proof (smaller_child_below endpos heap pos) as Hb.
  pose proof (smaller_child_lt endpos heap pos Hchild) as Hlt.
  pose proof (below_parent _ _ Hb) as [_ Hgt].
  pose proof (desc_ge i pos Hdesc) as Hi.
  set (c' := smaller_child endpos heap pos) in *.
  split_and!.
  - by rewrite length_insert.
  - done.
  - by apply (desc_below i pos).
  - intros k c Hk Hkc _ x y Hx Hy.
    pose proof (below_parent k c Hkc) as [Hpar Hkc'].
    destruct (decide (k = pos)) as [->|Hkp].
    + rewrite list_lookup_insert_eq in Hx by lia. injection Hx as <-.
      rewrite list_lookup_insert_ne in Hy by lia.
      subst endpos. by apply (smaller_child_min heap pos cv c y).
    + rewrite list_lookup_insert_ne in Hx by done.
      destruct (decide (c = pos)) as [->|Hcp].
      * rewrite list_lookup_insert_eq in Hy by lia. injection Hy as <-.
        destruct (lookup_lt_is_Some_2 heap pos) as [v Hv]; [lia|].
        apply (item_le_trans _ v).
        -- apply (Hedges k pos); [done|done|lia|done|done].
        -- apply (Hedges pos c'); [done|done|lia|done|done].
      * rewrite list_lookup_insert_ne in Hy by done.
        apply (Hedges k c); [done|done| |done|done]. intros -> ->. done.
Qed.

Lemma siftup_loop_rising i endpos heap pos :
  rising i endpos heap pos →
  rising i endpos (siftup_loop endpos heap pos).1 (siftup_loop endpos heap pos).2
  ∧ (endpos ≤ 2 * (siftup_loop endpos heap pos).2 + 1)%nat.
Proof.
  funelim (siftup_loop endpos heap pos); intros Hok; cbn [fst snd].
  - split; [done|lia].
  - match goal with H : ∀ i, rising _ _ _ _ → _ |- _ => apply H end.
    by apply rising_step.
  - destruct Hok as (Hlen & _).
    match goal with H : heap !! _ = None |- _ =>
      apply lookup_ge_None in H end.
    pose proof (smaller_child_lt endpos heap pos). lia.
Qed.

(** [_siftup] at [i] puts the entries from [i] on in order when those
    after [i] are. *)
Lemma _siftup_heap heap i : heap_from (S i) heap → heap_from i (_siftup heap i).
Proof.
  intros Hheap. unfold _siftup.
  destruct (heap !! i) as [newitem|] eqn:Hi.
  2:{ intros k c Hk Hb x y Hx Hy. destruct (decide (k = i)) as [->|];
        [congruence|]. apply (Hheap k c); [lia|done..]. }
  pose proof (lookup_lt_Some _ _ _ Hi) as Hlt.
  destruct (siftup_loop_rising i (length heap) heap i)
    as [(Hlen & Hpos & Hdesc & Hedges) Hleaf].
  { split_and!; [done|done|constructor|].
    intros k c Hk Hb Hne. apply (Hheap k c); [|done].
    destruct (decide (k = i)) as [->|]; [by destruct Hne|lia]. }
  destruct (siftup_loop (length heap) heap i) as [heap' pos'].
  simpl in *.
  apply (_siftdown_heap _ i pos' newitem).
  { apply list_lookup_insert_eq. lia. }
  split_and!.
  - rewrite length_insert. lia.
  - done.
  - intros k c Hk Hb Hc Hkp x y Hx Hy.
    rewrite list_lookup_insert_ne in Hx, Hy by done.
    apply (Hedges k c); [done|done| |done|done]. intros -> ->. done.
  - intros c y Hb Hy. apply lookup_lt_Some in Hy.
    rewrite length_insert in Hy. destruct Hb as [->| ->]; lia.
  - intros g c _ _ Hb x y _ Hy. apply lookup_lt_Some in Hy.
    rewrite length_insert in Hy. destruct Hb as [->| ->]; lia.
Qed.

(** [heapify] establishes the invariant on any list. *)
Lemma heapify_heap x : is_heap (heapify x).
Proof.
  unfold heapify, is_heap.
  assert (Hfold : ∀ m l, heap_from m l →
            heap_from 0 (fold_left _siftup (rev (seq 0 m)) l)).
  { induction m as [|m IH]; intros l Hl; [done|].
    rewrite seq_S, rev_app_distr. simpl. apply IH. by apply _siftup_heap. }
  apply Hfold. intros k c Hk Hb a b _ Hb'.
  apply lookup_lt_Some in Hb'.
  pose proof (Nat.div_mod_eq (length x) 2).
  pose proof (Nat.mod_upper_bound (length x) 2).
  destruct Hb as [->| ->]; lia.
Qed.

(** *** The class *)

Lemma step_heap self o : is_heap self → is_heap (step self o).
Proof.
  intros Hheap. destruct o as [priority name|name|name new_priority]; simpl.
  - by apply heappush_heap.
  - apply heapify_heap.
  - apply heappush_heap, heapify_heap.
Qed.

(** The first entry of a heap is not above any entry. *)
Lemma heap_first_least l i m x :
  is_heap l → l !! 0 = Some m → l !! i = Some x → item_le m x.
Proof.
  intros Hheap Hm. revert x. induction (lt_wf i) as [i _ IH]. intros x Hx.
  destruct (decide (i = 0)) as [->|Hne].
  { assert (x = m) as -> by congruence. apply item_le_refl. }
  pose proof (parent_below i) as Hb.
  assert (Hb' : below ((i - 1) / 2) i) by (apply Hb; lia).
  pose proof (below_parent _ _ Hb') as [_ Hlt].
  destruct (lookup_lt_is_Some_2 l ((i - 1) / 2)) as [p Hp].
  { apply lookup_lt_Some in Hx. lia. }
  apply (item_le_trans _ p).
  - by apply (IH ((i - 1) / 2)).
  - apply (Hheap ((i - 1) / 2) i); [lia|done|done|done].
Qed.

(** X25: after any sequence of [add], [remove] and [edit_priority] calls
    the list [self.heap] satisfies the invariant of [heapq]: the entry at
    [k] is not above the entries at [2*k+1] and [2*k+2].  Its first entry
    is therefore the least pair, the one [get_all] lists first. *)
Theorem heap_invariant_kept ops :
  (∀ k c x y, c = 2 * k + 1 ∨ c = 2 * k + 2 →
     run ops !! k = Some x → run ops !! c = Some y → item_le x y)
  ∧ head (get_all (run ops)) = head (run ops).
Proof.
  assert (Hheap : is_heap (run ops)).
  { unfold run. assert (Hinit : is_heap init).
    { intros k c _ _ x y Hx. by destruct k. }
    revert Hinit. generalize init. induction ops as [|o ops IH]; intros l Hl;
      [done|]. simpl. apply IH. by apply step_heap. }
  split.
  - intros k c x y Hb Hx Hy. apply (Hheap k c); [lia|done|done|done].
  - unfold get_all.
    pose proof (sorted_perm (run ops)) as Hperm.
    pose proof (sorted_sorted (run ops)) as Hsorted.
    destruct (run ops) as [|m l] eqn:Hrun.
    { by apply Permutation_nil_r in Hperm as ->. }
    destruct (sorted (m :: l)) as [|s l'] eqn:Hs.
    { by apply Permutation_nil_cons in Hperm. }
    simpl. f_equal. apply item_le_antisym.
    + assert (Hm : m ∈ s :: l') by (rewrite Hperm; left).
      apply elem_of_cons in Hm as [->|Hm]; [apply item_le_refl|].
      apply StronglySorted_inv in Hsorted as [_ Hall].
      rewrite Forall_forall in Hall. by apply Hall.
    + assert (Hsin : s ∈ m :: l) by (rewrite <- Hperm; left).
      apply list_elem_of_lookup in Hsin as [i Hi].
      by apply (heap_first_least (m :: l) i m s).
Qed.

End HeapInvariant.

(** ** More on [add] *)

Module AddExtras.
Import DepartmentHierarchy Tree DictFacts TreeFacts DeleteFacts ForestFacts.
Import EditFacts RenameFacts RoundTripFacts ReachableFacts.

(** The three ways a call with a new name ends. *)
Lemma add_fresh_cases name parent head employees budget perf self :
  Dict.get name (nodes self) = None →
  let self0 := alloc name head employees budget perf self in
  let new := length (mem self) in
  let self' := (add name parent head employees budget perf self).2 in
  ((parent = None ∨ parent = Some ""
    ∨ ∃ P, parent = Some P ∧ P ≠ name ∧ Dict.get P (nodes self) = None)
   ∧ self' = root_if_unset new self0)
  ∨ (∃ P p, parent = Some P ∧ P ≠ "" ∧ P ≠ name
            ∧ Dict.get P (nodes self) = Some p
            ∧ self' = append_child p new self0)
  ∨ (parent = Some name ∧ name ≠ "" ∧ self' = append_child new new self0).
Proof.
  intros Hfresh. cbv zeta. rewrite add_fresh by done. cbn [snd]. cbv zeta.
  destruct parent as [P|]; [|left; eauto].
  destruct (decide (P = "")) as [->|HP]; [left; eauto|].
  rewrite (alloc_get self name head employees budget perf Hfresh).
  destruct (decide (name = P)) as [<-|Hne].
  { right. right. eauto. }
  destruct (Dict.get P (nodes self)) as [p|] eqn:Hp.
  - right. left. exists P, p. eauto.
  - left. split; [|done]. right. right. exists P. eauto.
Qed.

Lemma add_get_name name parent head employees budget perf self :
  is_Some (Dict.get name (nodes (add name parent head employees budget perf
                                   self).2)).
Proof.
  destruct (Dict.get name (nodes self)) as [a|] eqn:Hget.
  { rewrite add_existing by done. cbn [snd]. by rewrite Hget. }
  assert (Hn : nodes (add name parent head employees budget perf self).2
               = nodes (alloc name head employees budget perf self)).
  { destruct (add_fresh_cases name parent head employees budget perf self Hget)
      as [[_ ->]|[(P & p & _ & _ & _ & _ & ->)|(_ & _ & ->)]];
      [apply root_if_unset_nodes|done..]. }
  rewrite Hn, (alloc_get self name head employees budget perf Hget).
  by rewrite decide_True.
Qed.

(** X4: a second [add] of a name returns [False] and leaves the tree as the
    first call left it, whatever parent and attributes the two calls
    carry. *)
Theorem add_twice name parent head employees budget perf
    parent' head' employees' budget' perf' self :
  let self1 := (add name parent head employees budget perf self).2 in
  add name parent' head' employees' budget' perf' self1 = (false, self1).
Proof. cbv zeta. apply add_existing, add_get_name. Qed.

Lemma add_fresh_nodes name parent head employees budget perf self :
  Dict.get name (nodes self) = None →
  nodes (add name parent head employees budget perf self).2
  = nodes self ++ [(name, length (mem self))].
Proof.
  intros Hget.
  destruct (add_fresh_cases name parent head employees budget perf self Hget)
    as [[_ ->]|[(P & p & _ & _ & _ & _ & ->)|(_ & _ & ->)]];
    [apply root_if_unset_nodes|done..].
Qed.

Lemma append_child_lookup p c self a :
  mem (append_child p c self) !! a
  = (λ n, if decide (a = p)
          then DepartmentNode.with_children (DepartmentNode.children n ++ [c]) n
          else n) <$> mem self !! a.
Proof.
  unfold append_child, setattr. cbn [mem].
  destruct (decide (a = p)) as [->|Hne].
  - by rewrite list_lookup_alter_eq.
  - rewrite list_lookup_alter_ne by done. by destruct (mem self !! a).
Qed.

(** Whatever the parent, the call with a new name changes the children list
    of at most one object and nothing else in it. *)
Lemma add_fresh_lookup name parent head employees budget perf self a :
  Dict.get name (nodes self) = None →
  ∃ f : DepartmentNode.t → DepartmentNode.t,
    (∀ n, DepartmentNode.name (f n) = DepartmentNode.name n
          ∧ attrs (f n) = attrs n)
    ∧ mem (add name parent head employees budget perf self).2 !! a
      = f <$> (mem self ++ [DepartmentNode.init name head employees budget
                              perf]) !! a.
Proof.
  intros Hget.
  destruct (add_fresh_cases name parent head employees budget perf self Hget)
    as [[_ ->]|[(P & p & _ & _ & _ & _ & ->)|(_ & _ & ->)]].
  - exists id. split; [done|]. rewrite root_if_unset_mem. cbn [alloc mem].
    by rewrite option_fmap_id.
  - eexists. split; [|apply append_child_lookup].
    intros n. by destruct (decide _).
  - eexists. split; [|apply append_child_lookup].
    intros n. by destruct (decide _).
Qed.

(** X5: [add] of a name that is not in the dictionary returns [True] and
    maps the name to a new node that carries the name and the attributes as
    they were passed (no coercion takes place); the other names map to the
    nodes they mapped to, and every node that existed keeps its name and
    its attributes. *)
Theorem add_registers name parent head employees budget perf self :
  Dict.get name (nodes self) = None →
  let new := length (mem self) in
  let result := add name parent head employees budget perf self in
  result.1 = true
  ∧ Dict.get name (nodes result.2) = Some new
  ∧ (∀ k, k ≠ name → Dict.get k (nodes result.2) = Dict.get k (nodes self))
  ∧ (∃ n, mem result.2 !! new = Some n ∧ DepartmentNode.name n = name
          ∧ attrs n = (head, employees, budget, perf))
  ∧ ∀ a n, mem self !! a = Some n →
      ∃ n', mem result.2 !! a = Some n'
            ∧ DepartmentNode.name n' = DepartmentNode.name n
            ∧ attrs n' = attrs n.
Proof.
  intros Hget. cbv zeta. split_and!.
  - by rewrite add_fresh.
  - rewrite add_fresh_nodes, get_snoc by done. by rewrite decide_True.
  - intros k Hk. rewrite add_fresh_nodes, get_snoc by done.
    by rewrite decide_False.
  - destruct (add_fresh_lookup name parent head employees budget perf self
                (length (mem self)) Hget) as (f & Hf & ->).
    rewrite lookup_app_r, Nat.sub_diag by lia. simpl.
    eexists. split; [done|]. destruct (Hf (DepartmentNode.init name head
      employees budget perf)) as [-> ->]. done.
  - intros a n Hn.
    destruct (add_fresh_lookup name parent head employees budget perf self
                a Hget) as (f & Hf & ->).
    rewrite lookup_app_l by (by eapply lookup_lt_Some). rewrite Hn. simpl.
    eexists. split; [done|]. apply Hf.
Qed.

(** X6: where [add] puts a new node.  With a parent that is in the
    dictionary the node becomes the last child of that parent and the root
    is left alone.  Without a parent, with the empty string or with a
    parent that is not in the dictionary, no children list changes: the
    node becomes the root when there is none and stays unattached when
    there is one. *)
Theorem add_places name parent head employees budget perf self :
  wf self → Dict.get name (nodes self) = None →
  let new := length (mem self) in
  let self' := (add name parent head employees budget perf self).2 in
  (∀ P p, parent = Some P → P ≠ "" → Dict.get P (nodes self) = Some p →
     root self' = root self
     ∧ children_of (mem self') p = children_of (mem self) p ++ [new]
     ∧ children_of (mem self') new = []
     ∧ ∀ a, a ≠ p → children_of (mem self') a = children_of (mem self) a)
  ∧ ((parent = None ∨ parent = Some ""
      ∨ ∃ P, parent = Some P ∧ P ≠ name ∧ Dict.get P (nodes self) = None) →
     root self' = Some (default new (root self))
     ∧ ∀ a, children_of (mem self') a = children_of (mem self) a).
Proof.
  intros Hwf Hget. cbv zeta.
  assert (Hnew : ∀ a, children_of
            (mem (alloc name head employees budget perf self)) a
            = children_of (mem self) a).
  { intros a. cbn [alloc mem]. destruct (decide (a < length (mem self))).
    - by apply children_of_app_l.
    - unfold children_of.
      destruct (decide (a = length (mem self))) as [->|].
      + rewrite lookup_app_r, Nat.sub_diag by lia. simpl.
        by rewrite lookup_ge_None_2.
      + by rewrite !lookup_ge_None_2 by (rewrite ?length_app; simpl; lia). }
  split.
  - intros P p -> HP Hp.
    assert (HPn : P ≠ name) by (intros ->; congruence).
    assert (Hplt : p < length (mem self)).
    { apply (wf_value_lt self Hwf). by eapply get_Some_value. }
    rewrite (add_under_parent name P head employees budget perf self p
               Hget HP Hp).
    assert (Hch : ∀ a, children_of
              (mem (append_child p (length (mem self))
                      (alloc name head employees budget perf self))) a
              = children_of (mem self) a
                ++ (if decide (a = p) then [length (mem self)] else [])).
    { intros a. unfold children_of at 1. rewrite append_child_lookup.
      fold (children_of (mem (alloc name head employees budget perf self)) a).
      destruct (decide (a = p)) as [->|].
      - cbn [alloc mem]. rewrite lookup_app_l by done.
        destruct (lookup_lt_is_Some_2 _ _ Hplt) as [n Hn]. rewrite Hn. simpl.
        by rewrite (children_of_lookup _ _ _ Hn).
      - rewrite app_nil_r, <- Hnew. unfold children_of.
        by destruct (mem _ !! a). }
    split_and!.
    + done.
    + rewrite Hch. by rewrite decide_True.
    + rewrite Hch, decide_False by lia. rewrite app_nil_r.
      unfold children_of. by rewrite lookup_ge_None_2.
    + intros a Ha. rewrite Hch, decide_False by done. by rewrite app_nil_r.
  - intros Hcase.
    assert (Heq : (add name parent head employees budget perf self).2
                  = root_if_unset (length (mem self))
                      (alloc name head employees budget perf self)).
    { destruct (add_fresh_cases name parent head employees budget perf self
                  Hget) as [[_ ->]|[(P & p & -> & HP & HPn & Hp & _)
                                   |(-> & Hne & _)]]; [done| |].
      - destruct Hcase as [?|[[= ->]|(P' & [= <-] & _ & Hnone)]];
          [done|done|congruence].
      - destruct Hcase as [?|[[= ->]|(P' & [= <-] & Hnn & _)]]; done. }
    rewrite Heq. split.
    + unfold root_if_unset, alloc. cbn [root].
      by destruct (root self).
    + intros a. by rewrite root_if_unset_mem.
Qed.

(** X7: [add] registers the new name before it looks the parent up, so a
    new node that is named as its own parent is found and becomes its own
    only child.  It is not made the root, not even in an empty tree, and
    [to_dict] on that node never returns. *)
Theorem add_own_parent name head employees budget perf self :
  Dict.get name (nodes self) = None → name ≠ "" →
  let new := length (mem self) in
  let result := add name (Some name) head employees budget perf self in
  result.1 = true
  ∧ root result.2 = root self
  ∧ Dict.get name (nodes result.2) = Some new
  ∧ children_of (mem result.2) new = [new]
  ∧ ∀ fuel, to_dict_node fuel (mem result.2) new = None.
Proof.
  intros Hget Hne. cbv zeta.
  assert (Heq : (add name (Some name) head employees budget perf self).2
                = append_child (length (mem self)) (length (mem self))
                    (alloc name head employees budget perf self)).
  { destruct (add_fresh_cases name (Some name) head employees budget perf self
                Hget) as [[Hcase _]|[(P & p & [= <-] & _ & HPn & _)
                                    |(_ & _ & ->)]]; [|done|done].
    destruct Hcase as [?|[[= ->]|(P' & [= <-] & Hnn & _)]]; done. }
  assert (Hch : children_of
            (mem (add name (Some name) head employees budget perf self).2)
            (length (mem self)) = [length (mem self)]).
  { rewrite Heq. unfold children_of. rewrite append_child_lookup.
    cbn [alloc mem]. rewrite lookup_app_r, Nat.sub_diag by lia. simpl.
    by rewrite decide_True. }
  split_and!.
  - by rewrite add_fresh.
  - by rewrite Heq.
  - rewrite add_fresh_nodes, get_snoc by done. by rewrite decide_True.
  - done.
  - intros fuel. apply to_dict_node_cycle, tc_once. unfold child.
    rewrite Hch. left.
Qed.

End AddExtras.

(** ** More on [delete] *)

Module DeleteExtras.
Import DepartmentHierarchy Tree DictFacts TreeFacts DeleteFacts ForestFacts.
Import EditFacts RenameFacts RoundTripFacts ReachableFacts AddExtras.

(** The state a successful [delete] returns, for every fuel that suffices. *)
Lemma delete_result self X x :
  wf self → Dict.get X (nodes self) = Some x →
  ∃ q,
    (∀ b, b ∈ q ↔ in_subtree (mem self) x b)
    ∧ ∀ fuel, (length (nodes self) ≤ fuel)%nat →
        delete fuel X self
        = Some (true,
                mk (root_after self X) (kept self q)
                  (mem (find_parent_and_remove X
                          (mk (root_after self X) (nodes self) (mem self))))).
Proof.
  intros Hwf HX.
  destruct (delete_present self Hwf X x HX (length (nodes self)))
    as (q & Hq & Hdel); [done|].
  exists q. split; [done|]. intros fuel Hfuel.
  destruct (delete_present self Hwf X x HX fuel Hfuel) as (q' & Hq' & ->).
  by rewrite (kept_ext self Hwf X x HX q' q).
Qed.

(** X8: a successful [delete] creates and destroys no object and changes no
    name and no attribute.  Among the children lists it changes those of
    the nodes of the dictionary only, and only by dropping the deleted
    node from them: the nodes that leave the dictionary keep the children
    they had. *)
Theorem delete_unlinks self X x :
  wf self → Dict.get X (nodes self) = Some x →
  ∃ self',
    (∀ fuel, (length (nodes self) ≤ fuel)%nat →
       delete fuel X self = Some (true, self'))
    ∧ length (mem self') = length (mem self)
    ∧ (∀ a, DepartmentNode.name <$> mem self' !! a
            = DepartmentNode.name <$> mem self !! a
            ∧ attrs <$> mem self' !! a = attrs <$> mem self !! a)
    ∧ (∀ a, a ∈ Dict.values (nodes self) →
         children_of (mem self') a
         = filter (λ c, c ≠ x) (children_of (mem self) a))
    ∧ (∀ a, a ∉ Dict.values (nodes self) →
         children_of (mem self') a = children_of (mem self) a).
Proof.
  intros Hwf HX.
  destruct (delete_result self X x Hwf HX) as (q & Hq & Hdel).
  eexists. split; [exact Hdel|]. cbn [mem].
  assert (Hwf0 : wf (mk (root_after self X) (nodes self) (mem self))) by done.
  pose proof (get_Some_elem _ _ _ HX) as HXin.
  pose proof (detach_children _ Hwf0 X x HXin) as Hch. cbn [nodes mem] in Hch.
  pose proof (find_parent_and_remove_spec X
                (mk (root_after self X) (nodes self) (mem self)))
    as (_ & _ & _ & Hm). cbn [nodes mem] in Hm.
  split_and!.
  - apply (find_parent_and_remove_length X
             (mk (root_after self X) (nodes self) (mem self))).
  - intros a. split.
    + rewrite Hm. destruct (mem self !! a); simpl; [|done].
      by destruct (decide _).
    + apply (find_parent_and_remove_attrs X
               (mk (root_after self X) (nodes self) (mem self)) a).
  - intros a Ha. rewrite Hch. by rewrite decide_True.
  - intros a Ha. rewrite Hch. by rewrite decide_False.
Qed.

(** *** [delete] after [add] *)

Lemma with_children_same (n : DepartmentNode.t) :
  DepartmentNode.with_children (DepartmentNode.children n) n = n.
Proof. by destruct n. Qed.

Lemma filter_nothing {A} (P : A → Prop) `{∀ x, Decision (P x)} (l : list A) :
  (∀ x, x ∈ l → ¬ P x) → filter P l = [].
Proof.
  induction l as [|x l IH]; [done|]. intros Hl.
  rewrite filter_cons_False by (apply Hl; left).
  apply IH. intros y Hy. apply Hl. by right.
Qed.

(** What [add] with a new name leaves in an object that existed. *)
Lemma add_fresh_node name parent head employees budget perf self a n :
  Dict.get name (nodes self) = None → mem self !! a = Some n →
  ∃ l, (∀ c, c ∈ l → c = length (mem self) ∧ a ∈ Dict.values (nodes self))
       ∧ mem (add name parent head employees budget perf self).2 !! a
         = Some (DepartmentNode.with_children
                   (DepartmentNode.children n ++ l) n).
Proof.
  intros Hget Hn. pose proof (lookup_lt_Some _ _ _ Hn) as Hlt.
  assert (Hn0 : mem (alloc name head employees budget perf self) !! a = Some n).
  { cbn [alloc mem]. by rewrite lookup_app_l. }
  destruct (add_fresh_cases name parent head employees budget perf self Hget)
    as [[_ ->]|[(P & p & _ & _ & _ & Hp & ->)|(_ & _ & ->)]].
  - exists []. split; [by intros c ?%elem_of_nil|].
    rewrite root_if_unset_mem, Hn0, app_nil_r. by rewrite with_children_same.
  - rewrite append_child_lookup, Hn0. simpl.
    destruct (decide (a = p)) as [->|].
    + eexists. split; [|done]. intros c ->%list_elem_of_singleton.
      split; [done|]. by eapply get_Some_value.
    + exists []. split; [by intros c ?%elem_of_nil|].
      by rewrite app_nil_r, with_children_same.
  - rewrite append_child_lookup, Hn0. simpl.
    rewrite decide_False by lia.
    exists []. split; [by intros c ?%elem_of_nil|].
    by rewrite app_nil_r, with_children_same.
Qed.

(** The new object. *)
Lemma add_fresh_new name parent head employees budget perf self :
  Dict.get name (nodes self) = None →
  ∃ l, (∀ c, c ∈ l → c = length (mem self))
       ∧ mem (add name parent head employees budget perf self).2
           !! length (mem self)
         = Some (DepartmentNode.mk name head employees budget perf l).
Proof.
  intros Hget.
  assert (Hn0 : mem (alloc name head employees budget perf self)
                  !! length (mem self)
                = Some (DepartmentNode.init name head employees budget perf)).
  { cbn [alloc mem]. by rewrite lookup_app_r, Nat.sub_diag by lia. }
  destruct (add_fresh_cases name parent head employees budget perf self Hget)
    as [[_ ->]|[(P & p & _ & _ & _ & Hp & ->)|(_ & _ & ->)]].
  - exists []. split; [by intros c ?%elem_of_nil|].
    by rewrite root_if_unset_mem, Hn0.
  - rewrite append_child_lookup, Hn0. simpl.
    destruct (decide (length (mem self) = p)) as [<-|].
    + eexists. split; [|done]. by intros c ->%list_elem_of_singleton.
    + exists []. split; [by intros c ?%elem_of_nil|done].
  - rewrite append_child_lookup, Hn0. simpl. rewrite decide_True by done.
    eexists. split; [|done]. by intros c ->%list_elem_of_singleton.
Qed.

Lemma add_fresh_length name parent head employees budget perf self :
  Dict.get name (nodes self) = None →
  length (mem (add name parent head employees budget perf self).2)
  = S (length (mem self)).
Proof.
  intros Hget.
  destruct (add_fresh_cases name parent head employees budget perf self Hget)
    as [[_ ->]|[(P & p & _ & _ & _ & Hp & ->)|(_ & _ & ->)]].
  - rewrite root_if_unset_mem. cbn [alloc mem]. rewrite length_app. simpl. lia.
  - unfold append_child, setattr. cbn [alloc mem].
    rewrite length_alter, length_app. simpl. lia.
  - unfold append_child, setattr. cbn [alloc mem].
    rewrite length_alter, length_app. simpl. lia.
Qed.

Lemma add_fresh_root name parent head employees budget perf self :
  Dict.get name (nodes self) = None →
  root (add name parent head employees budget perf self).2 = root self
  ∨ (root self = None
     ∧ root (add name parent head employees budget perf self).2
       = Some (length (mem self))).
Proof.
  intros Hget.
  destruct (add_fresh_cases name parent head employees budget perf self Hget)
    as [[_ ->]|[(P & p & _ & _ & _ & Hp & ->)|(_ & _ & ->)]];
    [|by left..].
  unfold root_if_unset, alloc. cbn [root].
  destruct (root self); [by left|by right].
Qed.

(** X9: [delete] of a name right after the [add] that introduced it undoes
    the [add]: the root reference, the dictionary and every object that
    existed are as before, and the new object is left behind unreferenced
    and without children.  The root object must not carry the name
    itself. *)
Theorem add_then_delete name parent head employees budget perf self :
  wf self → Dict.get name (nodes self) = None →
  (∀ r, root self = Some r →
     r < length (mem self) ∧ name_of (mem self) r ≠ name) →
  ∃ self',
    (∀ fuel, (S (length (nodes self)) ≤ fuel)%nat →
       delete fuel name (add name parent head employees budget perf self).2
       = Some (true, self'))
    ∧ root self' = root self
    ∧ nodes self' = nodes self
    ∧ mem self'
      = mem self ++ [DepartmentNode.init name head employees budget perf].
Proof.
  intros Hwf Hget Hroot.
  set (new := length (mem self)).
  set (self1 := (add name parent head employees budget perf self).2).
  pose proof (add_wf name parent head employees budget perf self Hwf) as Hwf1.
  pose proof (add_fresh_nodes name parent head employees budget perf self
                Hget) as Hnodes1.
  pose proof (add_fresh_length name parent head employees budget perf self
                Hget) as Hlen1.
  destruct (add_fresh_new name parent head employees budget perf self Hget)
    as (lnew & Hlnew & Hnew).
  fold self1 in Hwf1, Hnodes1, Hlen1, Hnew. fold new in Hnodes1, Hnew, Hlnew.
  assert (HX : Dict.get name (nodes self1) = Some new).
  { rewrite Hnodes1, get_snoc by done. by rewrite decide_True. }
  assert (Hname_new : name_of (mem self1) new = name).
  { by rewrite (name_of_lookup _ _ _ Hnew). }
  assert (Hname_old : ∀ a, a < new →
            name_of (mem self1) a = name_of (mem self) a).
  { intros a Ha. destruct (lookup_lt_is_Some_2 _ _ Ha) as [n Hn].
    destruct (add_fresh_node name parent head employees budget perf self a n
                Hget Hn) as (l & _ & Hn1). fold self1 in Hn1.
    by rewrite (name_of_lookup _ _ _ Hn1), (name_of_lookup _ _ _ Hn). }
  assert (Hsub : ∀ b, in_subtree (mem self1) new b → b = new).
  { apply (rtc_ind_r (λ b, b = new)); [done|]. intros y z _ Hyz ->.
    unfold child in Hyz. rewrite (children_of_lookup _ _ _ Hnew) in Hyz.
    by apply Hlnew. }
  assert (Hold_lt : ∀ k a, (k, a) ∈ nodes self → a < new ∧ k ≠ name).
  { intros k a Hka. split.
    - apply (wf_value_lt self Hwf), value_elem. eauto.
    - intros ->. apply (elem_get _ _ _ (wf_keys self Hwf)) in Hka.
      congruence. }
  destruct (delete_result self1 name new Hwf1 HX) as (q & Hq & Hdel).
  eexists. split_and!.
  - intros fuel Hfuel. apply Hdel. rewrite Hnodes1, length_app. simpl. lia.
  - cbn [root]. unfold root_after.
    destruct (add_fresh_root name parent head employees budget perf self Hget)
      as [Hr|[Hr0 Hr]]; fold self1 in Hr; rewrite Hr.
    + destruct (root self) as [r|] eqn:Hrs; [|done].
      destruct (Hroot r eq_refl) as [Hlt Hne].
      rewrite decide_False; [done|]. by rewrite Hname_old.
    + fold new. by rewrite decide_True, Hr0.
  - cbn [nodes]. unfold kept. rewrite Hnodes1, filter_app.
    rewrite filter_cons_False, filter_nil, app_nil_r.
    2:{ intros Hnot. apply Hnot. simpl. apply list_elem_of_fmap.
        exists new. split; [done|]. apply Hq. constructor. }
    apply filter_all. intros [k a] Hka. simpl.
    intros (b & -> & Hb%Hq%Hsub)%list_elem_of_fmap. subst b.
    destruct (Hold_lt _ _ Hka) as [_ Hne]. by apply Hne.
  - cbn [mem].
    pose proof (find_parent_and_remove_spec name
                  (mk (root_after self1 name) (nodes self1) (mem self1)))
      as (_ & _ & _ & Hm). cbn [nodes mem] in Hm.
    pose proof (find_parent_and_remove_length name
                  (mk (root_after self1 name) (nodes self1) (mem self1)))
      as Hl. cbn [mem] in Hl.
    apply list_eq. intros a. rewrite Hm.
    destruct (decide (a < new)) as [Hlt|Hge].
    + rewrite lookup_app_l by done.
      destruct (lookup_lt_is_Some_2 _ _ Hlt) as [n Hn].
      destruct (add_fresh_node name parent head employees budget perf self a n
                  Hget Hn) as (l & Hl' & Hn1). fold self1 in Hn1.
      rewrite Hn1, Hn. simpl. f_equal.
      destruct (decide (a ∈ Dict.values (nodes self1))) as [Hav|Hav].
      * assert (Hav0 : a ∈ Dict.values (nodes self)).
        { rewrite Hnodes1 in Hav. unfold Dict.values in Hav.
          rewrite fmap_app in Hav.
          apply elem_of_app in Hav as [?|Hav]; [done|].
          apply list_elem_of_singleton in Hav. simpl in Hav. lia. }
        unfold strip. cbn [DepartmentNode.children
          DepartmentNode.with_children DepartmentNode.name DepartmentNode.head
          DepartmentNode.employees DepartmentNode.budget DepartmentNode.perf].
        rewrite filter_app.
        rewrite (filter_all _ (DepartmentNode.children n)).
        2:{ intros c Hc.
            assert (Hcv : c ∈ Dict.values (nodes self)).
            { eapply (wf_closed self Hwf); [exact Hav0|].
              by rewrite (children_of_lookup _ _ _ Hn). }
            pose proof (wf_value self Hwf c Hcv) as Hkc.
            destruct (Hold_lt _ _ Hkc) as [Hclt Hcne].
            by rewrite Hname_old. }
        rewrite (filter_nothing _ l).
        2:{ intros c [-> _]%Hl' Hc. by apply Hc. }
        rewrite app_nil_r. by destruct n.
      * destruct l as [|c l]; [by rewrite app_nil_r, with_children_same|].
        destruct (Hl' c) as [_ Hin]; [left|]. destruct Hav.
        rewrite Hnodes1. unfold Dict.values. rewrite fmap_app.
        apply elem_of_app. by left.
    + destruct (decide (a = new)) as [->|Hne].
      * rewrite Hnew. rewrite lookup_app_r, Nat.sub_diag by done. simpl.
        f_equal. rewrite decide_True by (by eapply get_Some_value).
        unfold strip, DepartmentNode.init, DepartmentNode.with_children.
        simpl. f_equal.
        apply filter_nothing. intros c ->%Hlnew Hc. by apply Hc.
      * rewrite !lookup_ge_None_2; [done| |].
        -- rewrite length_app. simpl. unfold new in *. lia.
        -- rewrite Hlen1. unfold new in *. lia.
Qed.

End DeleteExtras.

(** ** When [to_dict] returns *)

Module ToDictExtras.
Import DepartmentHierarchy Tree DictFacts TreeFacts DeleteFacts ForestFacts.
Import EditFacts RenameFacts RoundTripFacts ReachableFacts AddExtras.
Import DeleteExtras.

(** *** After [add] and [delete] calls *)

(** What every sequence of [add] and [delete] calls maintains: a child is
    allocated no earlier than its parent (a node that [add] made its own
    child is the only case of equality), and the root is a parentless node
    of the dictionary. *)
Definition ordered (self : t) : Prop :=
  wf self
  ∧ (∀ a c, child (mem self) a c → (a ≤ c)%nat)
  ∧ ∀ r, root self = Some r → top self r.

Lemma init_ordered : ordered init.
Proof.
  split_and!.
  - apply init_wf.
  - intros a c Hac. unfold child, children_of in Hac. simpl in Hac.
    by apply elem_of_nil in Hac.
  - done.
Qed.

Lemma child_refs_elem self c :
  c ∈ child_refs self
  ↔ ∃ a, a ∈ Dict.values (nodes self) ∧ child (mem self) a c.
Proof.
  unfold child_refs, child. rewrite list_elem_of_bind. naive_solver.
Qed.

Lemma add_ordered name parent head employees budget perf self :
  ordered self → ordered (add name parent head employees budget perf self).2.
Proof.
  intros (Hwf & Hinc & Hroot).
  pose proof (add_wf name parent head employees budget perf self Hwf) as Hwf1.
  destruct (Dict.get name (nodes self)) as [a0|] eqn:Hget.
  { by rewrite add_existing. }
  pose proof (add_fresh_nodes name parent head employees budget perf self
                Hget) as Hnodes1.
  destruct (add_fresh_new name parent head employees budget perf self Hget)
    as (lnew & Hlnew & Hnew).
  set (self1 := (add name parent head employees budget perf self).2) in *.
  assert (Hch : ∀ a c, child (mem self1) a c →
            (a < length (mem self) ∧ child (mem self) a c)
            ∨ (c = length (mem self)
               ∧ (a = length (mem self) ∨ a ∈ Dict.values (nodes self)))).
  { intros a c Hac. unfold child in Hac.
    destruct (decide (a < length (mem self))) as [Hlt|Hge].
    - destruct (lookup_lt_is_Some_2 _ _ Hlt) as [n Hn].
      destruct (add_fresh_node name parent head employees budget perf self a n
                  Hget Hn) as (l & Hl & Hn1). fold self1 in Hn1.
      rewrite (children_of_lookup _ _ _ Hn1) in Hac. simpl in Hac.
      apply elem_of_app in Hac as [Hac|Hac].
      + left. split; [done|]. unfold child.
        by rewrite (children_of_lookup _ _ _ Hn).
      + right. destruct (Hl c Hac) as [-> ?]. auto.
    - destruct (decide (a = length (mem self))) as [->|Hne].
      + rewrite (children_of_lookup _ _ _ Hnew) in Hac. simpl in Hac.
        right. split; [by apply Hlnew|by left].
      + unfold children_of in Hac. rewrite lookup_ge_None_2 in Hac.
        * by apply elem_of_nil in Hac.
        * unfold self1.
          rewrite (add_fresh_length name parent head employees budget perf
                     self Hget). lia. }
  split_and!; [done| |].
  - intros a c [[_ Hac]|[-> [->|Ha]]]%Hch; [by apply Hinc|done|].
    apply (wf_value_lt self Hwf) in Ha. lia.
  - intros r Hr.
    destruct (add_fresh_cases name parent head employees budget perf self Hget)
      as [[_ Heq]|[(P & p & _ & _ & _ & Hp & Heq)|(_ & _ & Heq)]];
      fold self1 in Heq.
    + (* no parent found: the new node is unattached *)
      assert (Hrefs : ∀ c, c ∈ child_refs self1 → c ∈ child_refs self).
      { intros c (a & Ha & Hac)%child_refs_elem. apply child_refs_elem.
        assert (Hsame : children_of (mem self1) a = children_of (mem self) a).
        { rewrite Heq, root_if_unset_mem. cbn [alloc mem].
          unfold children_of.
          destruct (decide (a < length (mem self))).
          - by rewrite lookup_app_l.
          - destruct (decide (a = length (mem self))) as [->|].
            + rewrite lookup_app_r, Nat.sub_diag by lia. simpl.
              by rewrite lookup_ge_None_2.
            + by rewrite !lookup_ge_None_2
                by (rewrite ?length_app; simpl; lia). }
        unfold child in Hac. rewrite Hsame in Hac.
        exists a. split; [|done].
        rewrite Hnodes1 in Ha. unfold Dict.values in Ha.
        rewrite fmap_app in Ha. apply elem_of_app in Ha as [?|Ha]; [done|].
        apply list_elem_of_singleton in Ha. simpl in Ha. subst a.
        unfold children_of in Hac. rewrite lookup_ge_None_2 in Hac by lia.
        by apply elem_of_nil in Hac. }
      rewrite Heq in Hr. unfold root_if_unset, alloc in Hr. cbn [root] in Hr.
      destruct (root self) as [r0|] eqn:Hr0.
      * injection Hr as <-. destruct (Hroot r0 eq_refl) as [Hv Hc]. split.
        -- rewrite Hnodes1. unfold Dict.values. rewrite fmap_app.
           apply elem_of_app. by left.
        -- intros Hin. by apply Hc, Hrefs.
      * cbn [root] in Hr. injection Hr as <-. split.
        -- rewrite Hnodes1. unfold Dict.values. rewrite fmap_app.
           apply elem_of_app. right. simpl. left.
        -- intros Hin%Hrefs. apply (child_refs_lt self _ Hwf) in Hin. lia.
    + rewrite Heq in Hr. cbn [append_child setattr alloc root] in Hr.
      destruct (Hroot r Hr) as [Hv Hc]. split.
      * rewrite Hnodes1. unfold Dict.values. rewrite fmap_app.
        apply elem_of_app. by left.
      * intros (a & Ha & [[_ Hac]|[-> _]]%Hch)%child_refs_elem.
        -- apply Hc, child_refs_elem. exists a. split; [|done].
           rewrite Hnodes1 in Ha. unfold Dict.values in Ha.
           rewrite fmap_app in Ha. apply elem_of_app in Ha as [?|Ha]; [done|].
           apply list_elem_of_singleton in Ha. simpl in Ha. subst a.
           unfold child, children_of in Hac.
           rewrite lookup_ge_None_2 in Hac by lia.
           by apply elem_of_nil in Hac.
        -- apply (wf_value_lt self Hwf) in Hv. lia.
    + rewrite Heq in Hr. cbn [append_child setattr alloc root] in Hr.
      destruct (Hroot r Hr) as [Hv Hc]. split.
      * rewrite Hnodes1. unfold Dict.values. rewrite fmap_app.
        apply elem_of_app. by left.
      * intros (a & Ha & [[Hlt Hac]|[-> _]]%Hch)%child_refs_elem.
        -- apply Hc, child_refs_elem. exists a. split; [|done].
           rewrite Hnodes1 in Ha. unfold Dict.values in Ha.
           rewrite fmap_app in Ha. apply elem_of_app in Ha as [?|Ha]; [done|].
           apply list_elem_of_singleton in Ha. simpl in Ha. lia.
        -- apply (wf_value_lt self Hwf) in Hv. lia.
Qed.

Lemma delete_ordered fuel X self result self' :
  ordered self → delete fuel X self = Some (result, self') → ordered self'.
Proof.
  intros (Hwf & Hinc & Hroot) Hdel.
  destruct (Dict.get X (nodes self)) as [x|] eqn:HX.
  2:{ rewrite delete_absent in Hdel by done. by injection Hdel as _ <-. }
  apply (delete_mono _ (fuel `max` length (nodes self))) in Hdel; [|lia].
  destruct (delete_result self X x Hwf HX) as (q & Hq & Hdel').
  rewrite Hdel' in Hdel by lia. injection Hdel as _ <-.
  assert (Hwf0 : wf (mk (root_after self X) (nodes self) (mem self))) by done.
  pose proof (get_Some_elem _ _ _ HX) as HXin.
  pose proof (detach_children _ Hwf0 X x HXin) as Hch. simpl in Hch.
  assert (Hsubch : ∀ a c,
            child (mem (find_parent_and_remove X
                    (mk (root_after self X) (nodes self) (mem self)))) a c →
            child (mem self) a c).
  { intros a c. unfold child. rewrite Hch. destruct (decide _); [|done].
    by intros [_ ?]%list_elem_of_filter. }
  split_and!.
  - apply (delete_wf self Hwf X x HX q Hq).
  - intros a c Hac. by apply Hinc, Hsubch.
  - cbn [root]. intros r Hr. unfold root_after in Hr.
    destruct (root self) as [r'|] eqn:Hr'; [|done].
    destruct (decide _) as [|Hne]; [done|]. injection Hr as ->.
    destruct (Hroot r eq_refl) as [Hrv Hrc].
    apply (wf_value self Hwf) in Hrv.
    split.
    + cbn [nodes]. apply value_elem. exists (name_of (mem self) r).
      apply (kept_elem self Hwf X x HX q _ _ Hq). split; [done|].
      intros [<-|(y & Hxy & Hyr)]%rtc_inv_r.
      * apply Hne. by apply wf_name_of.
      * apply Hrc. eapply link_child_refs. split; [|exact Hyr].
        eapply wf_subtree_mapped; [done| |exact Hxy].
        by eapply get_Some_value.
    + intros (a & Hra & Ha)%list_elem_of_bind. cbn [nodes mem] in *.
      apply Hrc. eapply link_child_refs. split; [|by apply Hsubch].
      apply value_elem in Ha as [k Hk].
      apply (kept_elem self Hwf X x HX q _ _ Hq) in Hk as [Hk _].
      apply value_elem. eauto.
Qed.

(** Below a parentless node no node is its own child. *)
Lemma ordered_below_top self r b c :
  ordered self → top self r → in_subtree (mem self) r b →
  child (mem self) b c → b < c ∧ c < length (mem self).
Proof.
  intros (Hwf & Hinc & _) [Hrv Hrc] Hrb Hbc.
  assert (Hbv : b ∈ Dict.values (nodes self))
    by (by eapply wf_subtree_mapped).
  split; [|by eapply (wf_value_lt self Hwf), wf_closed].
  assert (Hloop : ¬ child (mem self) b b).
  { clear c Hbc Hbv. revert b Hrb. apply rtc_ind_r.
    - intros Hrr. apply Hrc, child_refs_elem. eauto.
    - intros y z Hry Hyz Hy Hzz. apply Hy.
      assert (Hyv : y ∈ Dict.values (nodes self))
        by (by eapply wf_subtree_mapped).
      assert (Hzv : z ∈ Dict.values (nodes self)) by (by eapply wf_closed).
      assert (y = z) as ->
        by exact (wf_unique_parent self Hwf y z z Hyv Hzv Hyz Hzz).
      done. }
  pose proof (Hinc b c Hbc). destruct (decide (b = c)) as [->|]; [done|lia].
Qed.

(** *** Termination of the recursion *)

Lemma to_dict_node_total (m : memory) fuel a :
  (∀ b c, in_subtree m a b → child m b c → b < c ∧ c < length m) →
  a < length m → length m - a < fuel →
  is_Some (to_dict_node fuel m a).
Proof.
  revert a. induction fuel as [|fuel IH]; intros a Hsub Ha Hfuel; [lia|].
  rewrite to_dict_node_S.
  destruct (lookup_lt_is_Some_2 _ _ Ha) as [n Hn]. rewrite Hn. simpl.
  assert (Hcs : is_Some (mapM (to_dict_node fuel m)
                           (DepartmentNode.children n))).
  { apply mapM_is_Some, Forall_forall. intros c Hc. simpl.
    assert (Hac : child m a c).
    { unfold child. by rewrite (children_of_lookup _ _ _ Hn). }
    destruct (Hsub a c) as [Hlt Hclt]; [constructor|done|].
    apply IH; [|done|lia].
    intros b d Hcb Hbd. apply Hsub; [|done]. by eapply rtc_l. }
  destruct Hcs as [cs ->]. simpl. eauto.
Qed.

Lemma to_dict_node_mono_le fuel fuel' (m : memory) a v :
  to_dict_node fuel m a = Some v → (fuel ≤ fuel')%nat →
  to_dict_node fuel' m a = Some v.
Proof.
  intros Hv Hle. induction Hle as [|fuel' _ IH]; [done|].
  by apply to_dict_node_mono.
Qed.

Lemma run_ordered fuel ops self self' :
  ordered self → run fuel ops self = Some self' → ordered self'.
Proof.
  revert self. induction ops as [|o ops IH]; intros self Hord Hrun.
  { by injection Hrun as <-. }
  cbn [run] in Hrun. destruct (step fuel self o) as [self1|] eqn:Hstep; [|done].
  simpl in Hrun. apply (IH self1); [|done].
  destruct o as [name parent head employees budget perf|X]; simpl in Hstep.
  - injection Hstep as <-. by apply add_ordered.
  - destruct (delete fuel X self) as [[result s]|] eqn:Hdel; [|done].
    injection Hstep as <-. by eapply delete_ordered.
Qed.

Lemma run_total ops : ∀ self n,
  wf self → (length (nodes self) ≤ n)%nat →
  ∃ self', ∀ fuel, (n + length ops ≤ fuel)%nat →
    run fuel ops self = Some self'.
Proof.
  induction ops as [|o ops IH]; intros self n Hwf Hn.
  { by exists self. }
  destruct o as [name parent head employees budget perf|X].
  - destruct (IH (add name parent head employees budget perf self).2 (S n))
      as (self' & Hrun); [by apply add_wf| |].
    { pose proof (add_nodes_length name parent head employees budget perf self).
      lia. }
    exists self'. intros fuel Hfuel. simpl. apply Hrun. simpl in Hfuel. lia.
  - destruct (Dict.get X (nodes self)) as [x|] eqn:HX.
    + destruct (delete_result self X x Hwf HX) as (q & Hq & Hdel).
      destruct (IH _ n (delete_wf self Hwf X x HX q Hq)) as (self' & Hrun).
      { cbn [nodes]. pose proof (kept_length self q). lia. }
      exists self'. intros fuel Hfuel. cbn [run step]. simpl in Hfuel.
      rewrite Hdel by lia.
      cbn [fmap option_fmap option_map mbind option_bind snd].
      apply Hrun. lia.
    + destruct (IH self n) as (self' & Hrun); [done..|].
      exists self'. intros fuel Hfuel. cbn [run step].
      rewrite delete_absent by done.
      cbn [fmap option_fmap option_map mbind option_bind snd].
      apply Hrun. simpl in Hfuel. lia.
Qed.

(** X10: after any sequence of [add] and [delete] calls on an empty tree,
    [to_dict] returns, with a recursion no deeper than the number of objects
    ever created; every name it shows is a name of the dictionary, and it
    shows no name twice. *)
Theorem to_dict_after_adds_and_deletes ops :
  ∃ self v,
    (∀ fuel, (length ops ≤ fuel)%nat → run fuel ops init = Some self)
    ∧ (∀ fuel, length (mem self) < fuel → to_dict fuel self = Some v)
    ∧ NoDup (view_names v)
    ∧ ∀ k, k ∈ view_names v → is_Some (Dict.get k (nodes self)).
Proof.
  destruct (run_total ops init 0 init_wf) as (self & Hrun); [simpl; lia|].
  assert (Hord : ordered self).
  { apply (run_ordered (length ops) ops init self init_ordered).
    apply Hrun. simpl. lia. }
  pose proof Hord as (Hwf & _ & Hroot).
  exists self. unfold to_dict. destruct (root self) as [r|] eqn:Hr.
  - destruct (Hroot r eq_refl) as [Hrv Hrc].
    pose proof (wf_value_lt self Hwf r Hrv) as Hrlt.
    destruct (to_dict_node_total (mem self) (S (length (mem self))) r)
      as [v Hv]; [|done|lia|].
    { intros b c Hb Hbc. by apply (ordered_below_top self r). }
    exists v. split_and!.
    + intros fuel Hfuel. by apply Hrun.
    + intros fuel Hfuel.
      destruct (to_dict_node_total (mem self) fuel r) as [v' Hv'];
        [|done|lia|].
      { intros b c Hb Hbc. by apply (ordered_below_top self r). }
      rewrite Hv'. f_equal.
      destruct (decide (fuel ≤ S (length (mem self)))%nat).
      * apply (to_dict_node_mono_le _ (S (length (mem self)))) in Hv';
          [congruence|done].
      * apply (to_dict_node_mono_le _ fuel) in Hv; [congruence|lia].
    + by apply (to_dict_node_names_NoDup _ _ (wf_region self Hwf)
                  (S (length (mem self))) r).
    + intros k Hk.
      pose proof (to_dict_node_names self _ r v Hwf Hrv Hv k Hk) as Hkeys.
      destruct (Dict.get k (nodes self)) eqn:Hget; [done|].
      by apply get_None in Hget.
  - exists VEmpty. split_and!; [by intros; apply Hrun|done|constructor|].
    intros k Hk. by apply elem_of_nil in Hk.
Qed.

End ToDictExtras.

(** ** More on [edit] *)

Module EditExtras.
Import DepartmentHierarchy Tree DictFacts TreeFacts DeleteFacts ForestFacts.
Import EditFacts RenameFacts RoundTripFacts ReachableFacts.

Section edit.
Variable int_ : value → PyExn + Z.
Variable float_ : value → PyExn + spec_float.

(** *** Attributes only *)

Lemma assign_other coerce store node v self a :
  a ≠ node →
  mem (assign coerce store node v self).2 !! a = mem self !! a
  ∧ length (mem (assign coerce store node v self).2) = length (mem self).
Proof.
  intros Hne. unfold assign.
  destruct v; try done; destruct (coerce _); try done;
    cbn [snd setattr mem]; by rewrite list_lookup_alter_ne, length_alter.
Qed.

Lemma assign_length coerce store node v self :
  length (mem (assign coerce store node v self).2) = length (mem self).
Proof.
  unfold assign.
  destruct v; try done; destruct (coerce _); try done;
    cbn [snd setattr mem]; by rewrite length_alter.
Qed.

Lemma edit_meta_other node head employees budget perf self a :
  a ≠ node →
  mem (edit_meta int_ float_ node head employees budget perf self).2 !! a
  = mem self !! a.
Proof.
  intros Hne. unfold edit_meta.
  pose proof (assign_other inr DepartmentNode.with_head node head self a Hne)
    as [E1 _].
  destruct (assign inr DepartmentNode.with_head node head self)
    as [[[]|e1] s1]; cbn [and_then snd] in *; [|done].
  pose proof (assign_other (to_int int_) DepartmentNode.with_employees node
                employees s1 a Hne) as [E2 _].
  destruct (assign (to_int int_) DepartmentNode.with_employees node
              employees s1) as [[[]|e2] s2]; cbn [and_then snd] in *;
    [|congruence].
  pose proof (assign_other (to_float float_) DepartmentNode.with_budget node
                budget s2 a Hne) as [E3 _].
  destruct (assign (to_float float_) DepartmentNode.with_budget node
              budget s2) as [[[]|e3] s3]; cbn [and_then snd] in *;
    [|congruence].
  pose proof (assign_other (to_float float_) DepartmentNode.with_perf node
                perf s3 a Hne) as [E4 _].
  congruence.
Qed.

Lemma edit_meta_length node head employees budget perf self :
  length (mem (edit_meta int_ float_ node head employees budget perf self).2)
  = length (mem self).
Proof.
  unfold edit_meta.
  pose proof (assign_length inr DepartmentNode.with_head node head self) as E1.
  destruct (assign inr DepartmentNode.with_head node head self)
    as [[[]|e1] s1]; cbn [and_then snd] in *; [|done].
  pose proof (assign_length (to_int int_) DepartmentNode.with_employees node
                employees s1) as E2.
  destruct (assign (to_int int_) DepartmentNode.with_employees node
              employees s1) as [[[]|e2] s2]; cbn [and_then snd] in *;
    [|congruence].
  pose proof (assign_length (to_float float_) DepartmentNode.with_budget node
                budget s2) as E3.
  destruct (assign (to_float float_) DepartmentNode.with_budget node
              budget s2) as [[[]|e3] s3]; cbn [and_then snd] in *;
    [|congruence].
  pose proof (assign_length (to_float float_) DepartmentNode.with_perf node
                perf s3) as E4.
  congruence.
Qed.

Lemma upd_keeps {A} (g : DepartmentNode.t → A) coerce store v n :
  (∀ x n, g (store x n) = g n) → g (upd coerce store v n) = g n.
Proof.
  intros Hg. unfold upd. destruct v; try done; by destruct (coerce _).
Qed.

(** X11: an [edit] that carries attributes only (no new name, no parent)
    and whose numbers [int] and [float] accept returns [True] and changes
    one object only, the node it names: the root reference, the
    dictionary and every other object are as before, the node keeps its
    name and its children, an attribute passed as [None] keeps its value,
    and a [head] that is passed is stored as it is. *)
Theorem edit_attributes_only self name node n head employees budget perf :
  Dict.get name (nodes self) = Some node → mem self !! node = Some n →
  accepts int_ employees → accepts float_ budget → accepts float_ perf →
  ∃ self' n',
    edit int_ float_ name None head employees budget perf None self
    = (Return true, self')
    ∧ root self' = root self ∧ nodes self' = nodes self
    ∧ length (mem self') = length (mem self)
    ∧ (∀ a, a ≠ node → mem self' !! a = mem self !! a)
    ∧ mem self' !! node = Some n'
    ∧ DepartmentNode.name n' = DepartmentNode.name n
    ∧ DepartmentNode.children n' = DepartmentNode.children n
    ∧ (head ≠ VNone → DepartmentNode.head n' = head)
    ∧ (head = VNone → DepartmentNode.head n' = DepartmentNode.head n)
    ∧ (employees = VNone →
       DepartmentNode.employees n' = DepartmentNode.employees n)
    ∧ (budget = VNone → DepartmentNode.budget n' = DepartmentNode.budget n)
    ∧ (perf = VNone → DepartmentNode.perf n' = DepartmentNode.perf n).
Proof.
  intros Hget Hn He Hb Hp.
  destruct (edit_meta_accepts int_ float_ node head employees budget perf self
              n Hn He Hb Hp) as (self1 & Hmeta & Hr & Hnodes & Hnode).
  pose proof (edit_meta_other node head employees budget perf self) as Hother.
  pose proof (edit_meta_length node head employees budget perf self) as Hlen.
  rewrite Hmeta in Hother, Hlen. cbn [snd] in Hother, Hlen.
  exists self1. eexists. split.
  { unfold edit. rewrite Hget, Hmeta. reflexivity. }
  split_and!; [done|done|done|done|exact Hnode|..].
  - by rewrite !upd_keeps.
  - by rewrite !upd_keeps.
  - intros Hhead. rewrite !upd_keeps by done.
    by rewrite (upd_supplied _ _ _ head).
  - intros ->. rewrite !upd_keeps by done. by rewrite upd_omitted.
  - intros ->.
    rewrite 2!(upd_keeps DepartmentNode.employees (to_float float_)) by done.
    rewrite upd_omitted. by rewrite upd_keeps.
  - intros ->.
    rewrite (upd_keeps DepartmentNode.budget (to_float float_)
               DepartmentNode.with_perf) by done.
    rewrite upd_omitted. by rewrite !upd_keeps.
  - intros ->. rewrite upd_omitted. by rewrite !upd_keeps.
Qed.

(** *** A parent that is not found *)

(** X12: [edit] with the empty string or with a name that is not in the
    dictionary as the parent returns [True], takes the node out of the
    children list that held it and attaches it nowhere.  The dictionary is
    unchanged; the node becomes the root only when no root is set, so with
    a root in place a node that was a child ends up unattached. *)
Theorem edit_missing_parent_detaches self X x P :
  wf self → Dict.get X (nodes self) = Some x →
  P = "" ∨ Dict.get P (nodes self) = None →
  ∃ self',
    edit int_ float_ X None VNone VNone VNone VNone (Some P) self
    = (Return true, self')
    ∧ nodes self' = nodes self
    ∧ root self' = Some (default x (root self))
    ∧ (∀ a, a ∈ Dict.values (nodes self) →
         children_of (mem self') a
         = filter (λ c, c ≠ x) (children_of (mem self) a))
    ∧ x ∉ child_refs self'.
Proof.
  intros Hwf HX HP. eexists. split; [by apply edit_only_parent|].
  pose proof (get_Some_elem _ _ _ HX) as HXin.
  pose proof (detach_nodes self X) as Hn.
  pose proof (detach_root self X) as Hr.
  pose proof (detach_children self Hwf X x HXin) as Hch.
  pose proof (detach_no_parent self Hwf X x HXin) as Hnp.
  assert (Heq : edit_reparent x (Some P) self
                = root_if_unset x (find_parent_and_remove X self)).
  { unfold edit_reparent. rewrite (wf_name_of self Hwf X x HXin).
    destruct (decide (P = "")) as [|Hne]; [done|].
    rewrite Hn. destruct HP as [?|HP]; [done|]. by rewrite HP. }
  rewrite Heq. split_and!.
  - by rewrite root_if_unset_nodes.
  - unfold root_if_unset. rewrite Hr. by destruct (root self).
  - intros a Ha. rewrite root_if_unset_mem, Hch. by rewrite decide_True.
  - unfold child_refs in *. by rewrite root_if_unset_mem, root_if_unset_nodes.
Qed.

(** *** A parent inside the node's own subtree *)

Section into_subtree.
Context (self : t) (Hwf : wf self) (X P : string) (x p : addr).
Context (HX : Dict.get X (nodes self) = Some x).
Context (HP : Dict.get P (nodes self) = Some p) (HPne : P ≠ "").
Context (Hsub : in_subtree (mem self) x p).

Let self' : t :=
  (edit int_ float_ X None VNone VNone VNone VNone (Some P) self).2.

Lemma into_subtree_state :
  edit int_ float_ X None VNone VNone VNone VNone (Some P) self
  = (Return true, self')
  ∧ root self' = root self ∧ nodes self' = nodes self
  ∧ (∀ c, name_of (mem self') c = name_of (mem self) c)
  ∧ ∀ a, children_of (mem self') a =
      (if decide (a ∈ Dict.values (nodes self))
       then filter (λ c, c ≠ x) (children_of (mem self) a)
       else children_of (mem self) a)
      ++ (if decide (a = p) then [x] else []).
Proof.
  unfold self'. rewrite (edit_only_parent int_ float_ X x (Some P) self HX).
  split; [done|]. cbn [snd].
  apply (edit_reparent_attach self X x P p Hwf); [|done..].
  by apply get_Some_elem.
Qed.

(** The old descendants of the node are still below it. *)
Lemma into_subtree_below a :
  in_subtree (mem self) x a → in_subtree (mem self') x a.
Proof.
  destruct into_subtree_state as (_ & _ & _ & _ & Hch).
  assert (Hxv : x ∈ Dict.values (nodes self)) by (by eapply get_Some_value).
  intros Ha.
  assert (Hgen : a ∈ Dict.values (nodes self) ∧ rtc (child (mem self')) x a).
  { revert a Ha. apply rtc_ind_r; [done|]. intros y z Hxy Hyz [Hyv IH].
    split; [by eapply wf_closed|].
    destruct (decide (z = x)) as [->|Hne]; [done|].
    eapply rtc_r; [exact IH|].
    unfold child. rewrite Hch, elem_of_app. left.
    destruct (decide (y ∈ Dict.values (nodes self))); [|done].
    by apply list_elem_of_filter. }
  apply Hgen.
Qed.

Lemma into_subtree_cycle : tc (child (mem self')) x x.
Proof.
  destruct into_subtree_state as (_ & _ & _ & _ & Hch).
  eapply tc_rtc_l; [by apply into_subtree_below|]. apply tc_once.
  unfold child. rewrite Hch, elem_of_app. right.
  rewrite decide_True by done. left.
Qed.

(** Whatever reaches an old descendant of the node afterwards was an old
    descendant itself. *)
Lemma into_subtree_above d b :
  in_subtree (mem self) x d → b ∈ Dict.values (nodes self) →
  in_subtree (mem self') b d → in_subtree (mem self) x b.
Proof.
  destruct into_subtree_state as (_ & _ & _ & _ & Hch).
  assert (Hxv : x ∈ Dict.values (nodes self)) by (by eapply get_Some_value).
  intros Hd Hbv Hbd. revert b Hbd Hbv.
  apply (rtc_ind_l (λ b, b ∈ Dict.values (nodes self) →
                         in_subtree (mem self) x b)); [done|].
  intros b y Hby Hyd IH Hbv.
  unfold child in Hby. rewrite Hch, decide_True in Hby by done.
  apply elem_of_app in Hby as [[Hne Hby]%list_elem_of_filter|Hby].
  - assert (Hyv : y ∈ Dict.values (nodes self)) by (by eapply wf_closed).
    specialize (IH Hyv).
    apply rtc_inv_r in IH as [?|(y' & Hxy' & Hy'y)]; [done|].
    assert (Hy'v : y' ∈ Dict.values (nodes self))
      by exact (wf_subtree_mapped self Hwf x y' Hxv Hxy').
    by rewrite (wf_unique_parent self Hwf b y' y Hbv Hy'v Hby Hy'y).
  - destruct (decide (b = p)) as [->|]; [done|]. by apply elem_of_nil in Hby.
Qed.

End into_subtree.

(** X13: when the root is reparented under itself or under one of its
    descendants, [edit] returns [True] and [to_dict] never returns
    afterwards, whatever the depth allowed to the recursion. *)
Theorem reparent_root_into_subtree self X P x p :
  wf self → root self = Some x →
  Dict.get X (nodes self) = Some x → Dict.get P (nodes self) = Some p →
  P ≠ "" → in_subtree (mem self) x p →
  ∃ self',
    edit int_ float_ X None VNone VNone VNone VNone (Some P) self
    = (Return true, self')
    ∧ ∀ fuel, to_dict fuel self' = None.
Proof.
  intros Hwf Hroot HX HP HPne Hsub.
  destruct (into_subtree_state self Hwf X P x p HX HP HPne)
    as (Hedit & Hr & _).
  eexists. split; [exact Hedit|]. intros fuel. unfold to_dict.
  rewrite Hr, Hroot. apply to_dict_node_cycle.
  by apply (into_subtree_cycle self Hwf X P x p).
Qed.

(** X14: when a node that is not above the root is reparented under
    itself or under one of its descendants, the node and all its
    descendants stay in the dictionary but [to_dict] shows none of them any
    more. *)
Theorem reparent_into_subtree_hides self X P x p r :
  wf self → root self = Some r → r ∈ Dict.values (nodes self) →
  Dict.get X (nodes self) = Some x → Dict.get P (nodes self) = Some p →
  P ≠ "" → in_subtree (mem self) x p → ¬ in_subtree (mem self) x r →
  ∃ self',
    edit int_ float_ X None VNone VNone VNone VNone (Some P) self
    = (Return true, self')
    ∧ nodes self' = nodes self
    ∧ ∀ fuel v, to_dict fuel self' = Some v →
        ∀ b, in_subtree (mem self) x b → name_of (mem self) b ∉ view_names v.
Proof.
  intros Hwf Hroot Hrv HX HP HPne Hsub Hnot.
  destruct (into_subtree_state self Hwf X P x p HX HP HPne)
    as (Hedit & Hr & Hn & Hnm & _).
  pose proof (edit_wf int_ float_ X None VNone VNone VNone VNone (Some P) self
                Hwf) as Hwf'.
  set (self' := (edit int_ float_ X None VNone VNone VNone VNone (Some P)
                   self).2) in *.
  exists self'. split_and!; [done|done|].
  intros fuel v Hv b Hb Hin. unfold to_dict in Hv. rewrite Hr, Hroot in Hv.
  destruct (to_dict_node_names_subtree (mem self') fuel r v _ Hv Hin)
    as (b' & Hrb' & Hname).
  assert (Hxv : x ∈ Dict.values (nodes self)) by (by eapply get_Some_value).
  assert (Hbv : b ∈ Dict.values (nodes self))
    by (by eapply wf_subtree_mapped).
  assert (Hb'v : b' ∈ Dict.values (nodes self')).
  { eapply (wf_subtree_mapped self' Hwf'); [|exact Hrb']. by rewrite Hn. }
  assert (b' = b) as ->.
  { apply (wf_name_inj self' Hwf'); [done|by rewrite Hn|].
    by rewrite Hname, Hnm. }
  apply Hnot.
  by apply (into_subtree_above self Hwf X P x p HX HP HPne Hsub b r).
Qed.

End edit.

End EditExtras.

(** ** What holds in every state *)

Module InvariantExtras.
Import DepartmentHierarchy Tree DictFacts TreeFacts DeleteFacts ForestFacts.
Import EditFacts RenameFacts RoundTripFacts ReachableFacts.

Section invariants.
Variable int_ : value → PyExn + Z.
Variable float_ : value → PyExn + spec_float.

(** X24: whatever [add], [delete] and [edit] calls were made, with whatever
    arguments and outcomes (cycles made by [edit] included): every key of
    the dictionary leads to a node that carries the key as its name, no
    node is registered under two keys, the children of a registered node
    are registered, no node is a child of two registered nodes or twice a
    child of one, and the root reference leads to an object. *)
Theorem reachable_consistent self :
  reachable int_ float_ self →
  (∀ k a, Dict.get k (nodes self) = Some a →
     ∃ n, mem self !! a = Some n ∧ DepartmentNode.name n = k)
  ∧ (∀ k1 k2 a, Dict.get k1 (nodes self) = Some a →
       Dict.get k2 (nodes self) = Some a → k1 = k2)
  ∧ (∀ p c, p ∈ Dict.values (nodes self) → child (mem self) p c →
       c ∈ Dict.values (nodes self))
  ∧ (∀ p1 p2 c, p1 ∈ Dict.values (nodes self) →
       p2 ∈ Dict.values (nodes self) →
       child (mem self) p1 c → child (mem self) p2 c → p1 = p2)
  ∧ (∀ p, p ∈ Dict.values (nodes self) → NoDup (children_of (mem self) p))
  ∧ ∀ r, root self = Some r → r < length (mem self).
Proof.
  intros Hreach.
  pose proof (reachable_wf int_ float_ self Hreach) as Hwf.
  pose proof (reachable_rooted int_ float_ self Hreach) as Hroot.
  split_and!.
  - intros k a Hka. apply (wf_lookup self Hwf), get_Some_elem, Hka.
  - intros k1 k2 a H1%get_Some_elem H2%get_Some_elem.
    by rewrite <- (wf_name_of self Hwf k1 a H1), (wf_name_of self Hwf k2 a H2).
  - apply (wf_closed self Hwf).
  - apply (wf_unique_parent self Hwf).
  - apply (wf_children_NoDup self Hwf).
  - intros r Hr. destruct (Hroot r Hr) as [Hrv|(D & _ & Hdrop & HDr)].
    + by apply (wf_value_lt self Hwf).
    + by apply Hdrop.
Qed.

End invariants.

End InvariantExtras.

(** ** [get_flat_meta] *)

Module MetaExtras.
Import DepartmentHierarchy Tree DictFacts TreeFacts DeleteFacts ForestFacts.
Import EditFacts RenameFacts RoundTripFacts ReachableFacts AddExtras.
Import DeleteExtras.

(** The entry of the node that a reference of the dictionary leads to. *)
Definition entry (m : memory) (kv : string * addr) : option meta :=
  meta_of <$> m !! kv.2.

Lemma get_flat_meta_Some self l :
  get_flat_meta self = Some l
  ↔ Forall2 (λ kv e, entry (mem self) kv = Some e) (nodes self) l.
Proof. apply mapM_Some. Qed.

Lemma Forall2_fmap_eq {A B C} (R : A → B → Prop) (f : A → C) (g : B → C)
    (l : list A) (k : list B) :
  Forall2 R l k → (∀ x y, x ∈ l → R x y → f x = g y) → f <$> l = g <$> k.
Proof.
  induction 1 as [|x y l k Hxy _ IH]; intros Hfg; [done|].
  rewrite !fmap_cons. f_equal.
  - apply Hfg; [left|done].
  - apply IH. intros x' y' Hx'. apply Hfg. by right.
Qed.

Lemma Forall2_filter_strong {A B} (R : A → B → Prop) (P : A → Prop)
    (Q : B → Prop) `{∀ x, Decision (P x)} `{∀ y, Decision (Q y)}
    (l : list A) (k : list B) :
  Forall2 R l k → (∀ x y, x ∈ l → R x y → (P x ↔ Q y)) →
  Forall2 (λ x y, R x y ∧ P x ∧ x ∈ l) (filter P l) (filter Q k).
Proof.
  induction 1 as [|x y l k Hxy _ IH]; intros HPQ; [constructor|].
  assert (Hrest : Forall2 (λ x' y', R x' y' ∧ P x' ∧ x' ∈ x :: l)
                    (filter P l) (filter Q k)).
  { eapply Forall2_impl; [apply IH|].
    - intros x' y' Hx'. apply HPQ. by right.
    - intros x' y' (? & ? & ?). split_and!; [done|done|by right]. }
  rewrite !filter_cons.
  destruct (decide (P x)) as [HP|HP], (decide (Q y)) as [HQ|HQ].
  - constructor; [|done]. split_and!; [done|done|left].
  - destruct HQ. by apply (HPQ x y); [left|..].
  - destruct HP. by apply (HPQ x y); [left|..].
  - done.
Qed.

Lemma Forall2_filter {A B} (R : A → B → Prop) (P : A → Prop) (Q : B → Prop)
    `{∀ x, Decision (P x)} `{∀ y, Decision (Q y)} (l : list A) (k : list B) :
  Forall2 R l k → (∀ x y, x ∈ l → R x y → (P x ↔ Q y)) →
  Forall2 R (filter P l) (filter Q k).
Proof.
  intros HR HPQ. eapply Forall2_impl; [by apply Forall2_filter_strong|].
  by intros x y [? _].
Qed.

Lemma wf_entry self k a :
  wf self → (k, a) ∈ nodes self →
  ∃ e, entry (mem self) (k, a) = Some e ∧ meta_name e = k.
Proof.
  intros Hwf Hka. destruct (wf_lookup self Hwf k a Hka) as (n & Hn & Hname).
  exists (meta_of n). unfold entry. simpl. by rewrite Hn.
Qed.

Lemma wf_name_inj_key self k1 k2 a :
  wf self → (k1, a) ∈ nodes self → (k2, a) ∈ nodes self → k1 = k2.
Proof.
  intros Hwf H1 H2.
  by rewrite <- (wf_name_of self Hwf k1 a H1), (wf_name_of self Hwf k2 a H2).
Qed.

Lemma wf_get_flat_meta self :
  wf self →
  ∃ l, get_flat_meta self = Some l
       ∧ meta_name <$> l = Dict.keys (nodes self).
Proof.
  intros Hwf.
  assert (Hsome : is_Some (get_flat_meta self)).
  { apply mapM_is_Some, Forall_forall. intros [k a] Hka. simpl.
    destruct (wf_entry self k a Hwf Hka) as (e & He & _).
    unfold entry in He. simpl in He. by rewrite He. }
  destruct Hsome as [l Hl]. exists l. split; [done|].
  apply get_flat_meta_Some in Hl. symmetry. unfold Dict.keys.
  apply (Forall2_fmap_eq _ _ _ _ _ Hl).
  intros [k a] e Hka He.
  destruct (wf_entry self k a Hwf Hka) as (e' & He' & Hname).
  simpl. congruence.
Qed.

Section meta.
Variable int_ : value → PyExn + Z.
Variable float_ : value → PyExn + spec_float.

(** X15: in every state the program can be in, [get_flat_meta] returns one
    entry for each key of the dictionary, in the order of the dictionary,
    and the name in the entry is the key: no name is listed twice. *)
Theorem get_flat_meta_lists_keys self :
  reachable int_ float_ self →
  ∃ l, get_flat_meta self = Some l
       ∧ meta_name <$> l = Dict.keys (nodes self)
       ∧ NoDup (meta_name <$> l).
Proof.
  intros Hreach. pose proof (reachable_wf int_ float_ self Hreach) as Hwf.
  destruct (wf_get_flat_meta self Hwf) as (l & Hl & Hnames).
  exists l. split_and!; [done|done|]. rewrite Hnames. apply (wf_keys self Hwf).
Qed.

(** X16: [add] of a new name puts one entry at the end of what
    [get_flat_meta] returns, with the name and the attributes as they were
    passed, and leaves the entries that were there as they are. *)
Theorem get_flat_meta_add name parent head employees budget perf self l :
  Dict.get name (nodes self) = None → get_flat_meta self = Some l →
  get_flat_meta (add name parent head employees budget perf self).2
  = Some (l ++ [mk_meta name head employees budget perf]).
Proof.
  intros Hget Hl. apply get_flat_meta_Some in Hl. apply get_flat_meta_Some.
  rewrite add_fresh_nodes by done. apply Forall2_app.
  - eapply Forall2_impl; [exact Hl|]. intros [k a] e He.
    unfold entry in *. simpl in *.
    destruct (mem self !! a) as [n|] eqn:Hn; [|done].
    destruct (add_fresh_node name parent head employees budget perf self a n
                Hget Hn) as (l' & _ & ->).
    simpl in *. by injection He as <-.
  - constructor; [|constructor]. unfold entry. simpl.
    destruct (add_fresh_new name parent head employees budget perf self Hget)
      as (l' & _ & ->). done.
Qed.

(** X17: after a successful [delete], [get_flat_meta] returns the entries of
    before without those of the deleted node and its descendants, in their
    former order. *)
Theorem get_flat_meta_delete self X x l :
  wf self → Dict.get X (nodes self) = Some x → get_flat_meta self = Some l →
  ∃ self' (q : list addr),
    (∀ fuel, (length (nodes self) ≤ fuel)%nat →
       delete fuel X self = Some (true, self'))
    ∧ (∀ b, b ∈ q ↔ in_subtree (mem self) x b)
    ∧ get_flat_meta self'
      = Some (filter (λ e, meta_name e ∉ name_of (mem self) <$> q) l).
Proof.
  intros Hwf HX Hl.
  destruct (delete_result self X x Hwf HX) as (q & Hq & Hdel).
  eexists. exists q. split_and!; [exact Hdel|exact Hq|].
  apply get_flat_meta_Some in Hl. apply get_flat_meta_Some. cbn [nodes mem].
  unfold kept.
  pose proof (find_parent_and_remove_spec X
                (mk (root_after self X) (nodes self) (mem self)))
    as (_ & _ & _ & Hm). cbn [nodes mem] in Hm.
  apply Forall2_filter.
  - eapply Forall2_impl; [exact Hl|]. intros [k a] e He.
    unfold entry in *. simpl in *. rewrite Hm.
    destruct (mem self !! a) as [n|]; [|done]. simpl in *.
    injection He as <-. by destruct (decide _).
  - intros [k a] e Hka He. simpl.
    destruct (wf_entry self k a Hwf Hka) as (e' & He' & Hname).
    unfold entry in *. simpl in *. rewrite Hm in He.
    destruct (mem self !! a) as [n|]; [|done]. simpl in *.
    injection He' as <-.
    assert (e = meta_of n) as ->.
    { injection He as <-. by destruct (decide _). }
    by rewrite Hname.
Qed.

(** X18: a rename moves the entry of the node to the end of what
    [get_flat_meta] returns, under the new name and with the attributes it
    had; the other entries keep their order. *)
Theorem get_flat_meta_rename self X Y x l :
  wf self → Dict.get X (nodes self) = Some x →
  Dict.get Y (nodes self) = None → Y ≠ "" → get_flat_meta self = Some l →
  ∃ self' e,
    edit int_ float_ X (Some Y) VNone VNone VNone VNone None self
    = (Return true, self')
    ∧ e ∈ l ∧ meta_name e = X
    ∧ get_flat_meta self'
      = Some (filter (λ e', meta_name e' ≠ X) l
              ++ [mk_meta Y (meta_head e) (meta_employees e) (meta_budget e)
                    (meta_perf e)]).
Proof.
  intros Hwf HX HY HYne Hl.
  pose proof (get_Some_elem _ _ _ HX) as HXin.
  destruct (wf_lookup self Hwf X x HXin) as (n & Hn & Hname).
  exists (renamed self X Y x), (meta_of n). split_and!.
  - unfold edit. rewrite HX, edit_meta_none.
    by rewrite (edit_rename_fresh self Hwf X Y x HX HY HYne).
  - apply get_flat_meta_Some in Hl.
    apply list_elem_of_lookup in HXin as [i Hi].
    destruct (Forall2_lookup_l _ _ _ _ _ Hl Hi) as (e & He & Hentry).
    unfold entry in Hentry. simpl in Hentry. rewrite Hn in Hentry.
    injection Hentry as <-. by eapply list_elem_of_lookup_2.
  - done.
  - apply get_flat_meta_Some in Hl. apply get_flat_meta_Some.
    rewrite (renamed_nodes self X Y x HX HY). apply Forall2_app.
    + unfold Dict.del.
      eapply Forall2_impl;
        [apply (Forall2_filter_strong _ _ (λ e', meta_name e' ≠ X) _ _ Hl)|].
      * intros [k a] e Hka He. simpl.
        destruct (wf_entry self k a Hwf Hka) as (e' & He' & Hk).
        assert (e' = e) as -> by congruence. by rewrite Hk.
      * intros [k a] e (He & Hk & Hka). simpl in Hk.
        unfold entry in *. cbn [snd] in *.
        rewrite (renamed_lookup self X Y x).
        destruct (decide (a = x)) as [->|Hne].
        -- destruct Hk. exact (wf_name_inj_key self k X x Hwf Hka HXin).
        -- by destruct (mem self !! a).
    + constructor; [|constructor]. unfold entry. cbn [snd].
      rewrite (renamed_lookup self X Y x), Hn. simpl.
      by rewrite decide_True.
Qed.

End meta.

End MetaExtras.

(** ** The routes and the saved file *)

Module AppExtras.
Import DepartmentHierarchy Tree DictFacts TreeFacts DeleteFacts ForestFacts.
Import EditFacts RenameFacts RoundTripFacts ReachableFacts AddExtras.
Import DeleteExtras.

(** *** The names [load_data] registers *)

Lemma add_get_other name parent head employees budget perf self k :
  k ≠ name →
  Dict.get k (nodes (add name parent head employees budget perf self).2)
  = Dict.get k (nodes self).
Proof.
  intros Hk. destruct (Dict.get name (nodes self)) as [a|] eqn:Hget.
  { by rewrite add_existing. }
  rewrite add_fresh_nodes, get_snoc by done. by rewrite decide_False.
Qed.

Lemma add_keeps_keys name parent head employees budget perf self k :
  is_Some (Dict.get k (nodes self)) →
  is_Some (Dict.get k (nodes (add name parent head employees budget perf
                                self).2)).
Proof.
  intros Hk. destruct (decide (k = name)) as [->|Hne].
  - apply add_get_name.
  - by rewrite add_get_other.
Qed.

Lemma build_get_other v : ∀ parent self k,
  k ∉ view_names v →
  Dict.get k (nodes (build v parent self)) = Dict.get k (nodes self).
Proof.
  induction v as [|name head employees budget perf cs IH] using dict_view_ind';
    intros parent self k Hk; [done|].
  cbn [view_names] in Hk. apply not_elem_of_cons in Hk as [Hne Hk].
  simpl. rewrite <- (add_get_other name parent head employees budget perf
                       self k Hne).
  generalize (add name parent head employees budget perf self).2.
  induction IH as [|c cs Hc _ IHcs]; intros s; simpl; [done|].
  rewrite bind_cons in Hk. apply not_elem_of_app in Hk as [Hkc Hkcs].
  rewrite IHcs by done. by apply Hc.
Qed.

Lemma build_keeps_keys v : ∀ parent self k,
  is_Some (Dict.get k (nodes self)) →
  is_Some (Dict.get k (nodes (build v parent self))).
Proof.
  induction v as [|name head employees budget perf cs IH] using dict_view_ind';
    intros parent self k Hk; [done|].
  simpl.
  pose proof (add_keeps_keys name parent head employees budget perf self k Hk)
    as Hk'.
  revert Hk'. generalize (add name parent head employees budget perf self).2.
  induction IH as [|c cs Hc _ IHcs]; intros s Hs; simpl; [done|].
  apply IHcs. by apply Hc.
Qed.

Lemma build_registers v : ∀ parent self k,
  k ∈ view_names v → is_Some (Dict.get k (nodes (build v parent self))).
Proof.
  induction v as [|name head employees budget perf cs IH] using dict_view_ind';
    intros parent self k Hk; [by apply elem_of_nil in Hk|].
  cbn [view_names] in Hk. simpl.
  pose proof (add_get_name name parent head employees budget perf self)
    as Hname.
  revert Hname. generalize (add name parent head employees budget perf self).2.
  apply elem_of_cons in Hk as [->|Hk].
  - clear IH. induction cs as [|c cs IHcs]; intros s Hs; simpl; [done|].
    apply IHcs. by apply build_keeps_keys.
  - induction IH as [|c cs Hc _ IHcs]; intros s Hs; simpl;
      [by apply elem_of_nil in Hk|].
    rewrite bind_cons in Hk. apply elem_of_app in Hk as [Hk|Hk].
    + clear IHcs. generalize (Hc (Some name) s k Hk).
      generalize (build c (Some name) s). clear.
      induction cs as [|c' cs IHcs]; intros s Hs; simpl; [done|].
      apply IHcs. by apply build_keeps_keys.
    + apply IHcs; [done|]. by apply build_keeps_keys.
Qed.

(** X19: the dictionary of the tree that [load_data] rebuilds holds the
    names that the nested structure shows and no other.  A department that
    is in the dictionary but that [to_dict] does not show (an unattached
    one) is therefore not there after the file is loaded again. *)
Theorem load_data_keys v k :
  is_Some (Dict.get k (nodes (load_data v))) ↔ k ∈ view_names v.
Proof.
  unfold load_data. split.
  - intros Hk. destruct (decide (k ∈ view_names v)) as [|Hn]; [done|].
    rewrite (build_get_other v None init k Hn) in Hk. by destruct Hk.
  - apply build_registers.
Qed.

(** *** Saving and loading *)

Lemma foldl_add_perm (l : list DepartmentHeap.item) (heap : DepartmentHeap.t) :
  foldl (λ heap pn, DepartmentHeap.add pn.1 pn.2 heap) heap l ≡ₚ l ++ heap.
Proof.
  revert heap. induction l as [|[p n] l IH]; intros heap; simpl; [done|].
  rewrite IH. unfold DepartmentHeap.add.
  rewrite DepartmentHeapFacts.heappush_perm. simpl.
  by rewrite Permutation_middle.
Qed.

Section restart.
Variable int_ : value → PyExn + Z.
Variable float_ : value → PyExn + spec_float.

(** X20: what [save_data] writes brings the listings back: in every state
    the program can be in, when [save_data] returns, [load_data] on the
    file gives structures on which [to_dict] and [get_all] return what they
    returned on the structures that were saved. *)
Theorem save_then_load fuel app app' :
  reachable int_ float_ (App.hierarchy app) →
  App.save_data fuel app = Some app' →
  ∃ d,
    App.data_file app' = Some d
    ∧ App.hierarchy app' = App.hierarchy app
    ∧ App.priority_heap app' = App.priority_heap app
    ∧ to_dict fuel (App.hierarchy (App.load_data d))
      = to_dict fuel (App.hierarchy app)
    ∧ DepartmentHeap.get_all (App.priority_heap (App.load_data d))
      = DepartmentHeap.get_all (App.priority_heap app).
Proof.
  intros Hreach Hsave. unfold App.save_data in Hsave.
  destruct (to_dict fuel (App.hierarchy app)) as [v|] eqn:Hv; [|done].
  simpl in Hsave. injection Hsave as <-. eexists. split; [reflexivity|].
  cbn [App.hierarchy App.priority_heap App.load_data App.data_hierarchy
       App.data_heap].
  split_and!; [done|done| |].
  - pose proof (reachable_wf int_ float_ _ Hreach) as Hwf.
    pose proof (reachable_rooted int_ float_ _ Hreach) as Hroot.
    unfold to_dict in Hv.
    destruct (root (App.hierarchy app)) as [r|] eqn:Hr.
    + destruct (Hroot r Hr) as [Hrv|(D & HD & _ & HDr)].
      * by apply (region_roundtrip _ _ (wf_region _ Hwf) fuel r v).
      * by apply (region_roundtrip _ _ HD fuel r v).
    + by injection Hv as <-.
  - unfold DepartmentHeap.get_all.
    apply DepartmentHeapFacts.sorted_unique.
    + rewrite !DepartmentHeapFacts.sorted_perm, foldl_add_perm.
      by rewrite app_nil_r, DepartmentHeapFacts.sorted_perm.
    + apply DepartmentHeapFacts.sorted_sorted.
    + apply DepartmentHeapFacts.sorted_sorted.
Qed.

End restart.

(** *** [GET /stats] *)

Section stats.
Variable int_ : value → PyExn + Z.
Variable float_ : value → PyExn + spec_float.

(** X26: in every state the program can be in, [stats] returns four lists
    that run in step with the dictionary: the names are the keys in the
    order of the dictionary, and at each position the three numbers are
    those of the node that the name at that position leads to. *)
Theorem stats_in_step app :
  reachable int_ float_ (App.hierarchy app) →
  ∃ names employees budgets perf,
    App.stats app = Some (names, employees, budgets, perf)
    ∧ names = Dict.keys (nodes (App.hierarchy app))
    ∧ ∀ i k, names !! i = Some k →
        ∃ a n,
          Dict.get k (nodes (App.hierarchy app)) = Some a
          ∧ mem (App.hierarchy app) !! a = Some n
          ∧ employees !! i = Some (DepartmentNode.employees n)
          ∧ budgets !! i = Some (DepartmentNode.budget n)
          ∧ perf !! i = Some (DepartmentNode.perf n).
Proof.
  intros Hreach.
  pose proof (reachable_wf int_ float_ _ Hreach) as Hwf.
  destruct (MetaExtras.wf_get_flat_meta _ Hwf) as (l & Hl & Hnames).
  unfold App.stats. rewrite Hl. simpl.
  eexists _, _, _, _. split_and!; [reflexivity|done|].
  intros i k Hi. apply MetaExtras.get_flat_meta_Some in Hl.
  apply list_lookup_fmap_Some_1 in Hi as (e & -> & He).
  destruct (Forall2_lookup_r _ _ _ _ _ Hl He) as ([k a] & Hka & Hentry).
  unfold MetaExtras.entry in Hentry. simpl in Hentry.
  destruct (mem (App.hierarchy app) !! a) as [n|] eqn:Hn; [|done].
  simpl in Hentry. injection Hentry as <-.
  pose proof (list_elem_of_lookup_2 _ _ _ Hka) as Hin.
  destruct (wf_lookup _ Hwf k a Hin) as (n' & Hn' & Hname).
  assert (n' = n) as -> by congruence.
  exists a, n. rewrite !list_lookup_fmap, He. simpl. split_and!; try done.
  rewrite Hname. by apply (elem_get _ _ _ (wf_keys _ Hwf)).
Qed.

End stats.

(** *** [POST /add] *)

Section routes.
Variable int_ : value → PyExn + Z.
Variable float_ : value → PyExn + spec_float.

Lemma add_false name parent head employees budget perf self :
  (add name parent head employees budget perf self).1 = false →
  (add name parent head employees budget perf self).2 = self.
Proof.
  destruct (Dict.get name (nodes self)) as [a|] eqn:Hget.
  - by rewrite add_existing.
  - by rewrite add_fresh.
Qed.

Lemma app_eta (app : App.t) :
  App.mk (App.hierarchy app) (App.priority_heap app) (App.data_file app) = app.
Proof. by destruct app. Qed.

(** X21: [add_dept] changes nothing unless it answers [Added]: when a
    number is refused, the name is missing or the department exists, the
    hierarchy, the heap and the file are as before. *)
Theorem add_dept_unchanged_unless_added fuel d app result app' :
  App.add_dept int_ float_ fuel d app = Some (result, app') →
  result ≠ Return (App.Json 200 "message" "Added") →
  app' = app.
Proof.
  unfold App.add_dept, App.try. intros Hres Hne.
  destruct (int_ (default (VInt 0) (App.req_employees d))) as [e|employees];
    [by injection Hres as _ <-|].
  destruct (float_ (default (VInt 0) (App.req_budget d))) as [e|budget];
    [by injection Hres as _ <-|].
  destruct (float_ (default (VInt 0) (App.req_perf d))) as [e|perf];
    [by injection Hres as _ <-|].
  destruct (int_ (default (VInt 999) (App.req_priority d))) as [e|priority];
    [by injection Hres as _ <-|].
  destruct (App.nonempty (App.req_name d)) as [name|];
    [|by injection Hres as _ <-].
  pose proof (add_false name (App.nonempty (App.req_parent d))
                (default (VStr "") (App.req_head d)) (VInt employees)
                (VFloat budget) (VFloat perf) (App.hierarchy app)) as Hfalse.
  destruct (add name _ _ _ _ _ _) as [[] h]; cbn [fst snd] in *.
  - destruct (App.save_data _ _); [|done]. simpl in Hres.
    injection Hres as <- _. done.
  - injection Hres as _ <-. rewrite Hfalse by done. apply app_eta.
Qed.

(** *** [POST /delete] *)

(** X22: [delete_dept] takes the named department and its descendants out
    of the hierarchy but only the pairs of the named department out of the
    heap: the pairs of the descendants stay in the heap and in the file
    that is written, for names that the dictionary no longer holds. *)
Theorem delete_dept_keeps_descendants_in_heap d app X x :
  wf (App.hierarchy app) → App.req_name d = Some X → X ≠ "" →
  Dict.get X (nodes (App.hierarchy app)) = Some x →
  ∃ h',
    (∀ fuel, (length (nodes (App.hierarchy app)) ≤ fuel)%nat →
       delete fuel X (App.hierarchy app) = Some (true, h'))
    ∧ (∀ fuel v, (length (nodes (App.hierarchy app)) ≤ fuel)%nat →
         to_dict fuel h' = Some v →
         App.delete_dept fuel d app
         = Some (Return (App.Json 200 "message" "Deleted"),
                 App.mk h' (DepartmentHeap.remove X (App.priority_heap app))
                   (Some (App.mk_data v
                            (filter (λ pn, pn.2 ≠ X)
                               (DepartmentHeap.get_all
                                  (App.priority_heap app)))))))
    ∧ ∀ b, in_subtree (mem (App.hierarchy app)) x b →
        Dict.get (name_of (mem (App.hierarchy app)) b) (nodes h') = None
        ∧ ∀ priority,
            name_of (mem (App.hierarchy app)) b ≠ X →
            (priority, name_of (mem (App.hierarchy app)) b)
              ∈ DepartmentHeap.get_all (App.priority_heap app) →
            (priority, name_of (mem (App.hierarchy app)) b)
              ∈ DepartmentHeap.get_all
                  (DepartmentHeap.remove X (App.priority_heap app)).
Proof.
  intros Hwf Hname HXne HX.
  destruct (delete_result _ X x Hwf HX) as (q & Hq & Hdel).
  eexists. split_and!; [exact Hdel| |].
  - intros fuel v Hfuel Hv. unfold App.delete_dept, App.nonempty.
    rewrite Hname, decide_False by done. rewrite Hdel by done.
    unfold App.save_data. cbn [App.hierarchy App.priority_heap App.data_file].
    rewrite Hv. simpl.
    by rewrite DepartmentHeapExtras.get_all_remove_eq.
  - intros b Hb. split.
    + cbn [nodes]. apply get_None. intros (kv & Hk & Hkv)%list_elem_of_fmap.
      destruct kv as [k a]. simpl in Hk. subst k.
      apply (kept_elem _ Hwf X x HX q _ a Hq) in Hkv as [Hka Hnot].
      apply Hnot.
      assert (Hxv : x ∈ Dict.values (nodes (App.hierarchy app)))
        by (by eapply get_Some_value).
      assert (Hbv : b ∈ Dict.values (nodes (App.hierarchy app)))
        by exact (wf_subtree_mapped _ Hwf x b Hxv Hb).
      apply (wf_value _ Hwf) in Hbv.
      by rewrite (wf_addr_eq _ Hwf _ _ _ Hka Hbv).
    + intros priority Hne Hin.
      rewrite DepartmentHeapExtras.get_all_remove_eq.
      by apply list_elem_of_filter.
Qed.

(** *** [POST /edit] *)

(** X23: what [edit_dept] does to the heap once [edit] has returned
    [True].  Without a priority the heap is left alone, also by a rename.
    With a priority the pair is entered under the new name when there is
    one, and the pairs of the old name stay.  With a priority that [int]
    refuses the route raises after the hierarchy has changed, and neither
    the heap nor the file follows. *)
Theorem edit_dept_heap fuel d app X h' :
  App.nonempty (App.req_name d) = Some X →
  edit int_ float_ X (App.req_new_name d) (default VNone (App.req_head d))
    (default VNone (App.req_employees d)) (default VNone (App.req_budget d))
    (default VNone (App.req_perf d)) (App.req_parent d) (App.hierarchy app)
  = (Return true, h') →
  let heap := App.priority_heap app in
  let target := default X (App.nonempty (App.req_new_name d)) in
  (default VNone (App.req_priority d) = VNone →
   ∀ v, to_dict fuel h' = Some v →
     App.edit_dept int_ float_ fuel d app
     = Some (Return (App.Json 200 "message" "Edited"),
             App.mk h' heap
               (Some (App.mk_data v (DepartmentHeap.get_all heap)))))
  ∧ (∀ pv p, App.req_priority d = Some pv → pv ≠ VNone → int_ pv = inr p →
     let heap' := DepartmentHeap.edit_priority target p heap in
     (∀ v, to_dict fuel h' = Some v →
        App.edit_dept int_ float_ fuel d app
        = Some (Return (App.Json 200 "message" "Edited"),
                App.mk h' heap'
                  (Some (App.mk_data v (DepartmentHeap.get_all heap')))))
     ∧ filter (λ pn, pn.2 = target) (DepartmentHeap.get_all heap')
       = [(p, target)]
     ∧ (target ≠ X →
        ∀ q, (q, X) ∈ DepartmentHeap.get_all heap
             ↔ (q, X) ∈ DepartmentHeap.get_all heap'))
  ∧ (∀ pv e, App.req_priority d = Some pv → pv ≠ VNone → int_ pv = inl e →
     App.edit_dept int_ float_ fuel d app
     = Some (Raise e, App.mk h' heap (App.data_file app))).
Proof.
  intros Hname Hedit. cbv zeta. split_and!.
  - intros Hp v Hv. unfold App.edit_dept. rewrite Hname, Hedit, Hp.
    unfold App.save_data. cbn [App.hierarchy App.priority_heap]. by rewrite Hv.
  - intros pv p Hpv Hne Hint. split_and!.
    + intros v Hv. unfold App.edit_dept. rewrite Hname, Hedit, Hpv. simpl.
      unfold App.try. rewrite Hint. unfold App.save_data.
      cbn [App.hierarchy App.priority_heap]. rewrite Hv.
      by destruct pv.
    + apply DepartmentHeapExtras.edit_priority_one.
    + intros Htarget q.
      pose proof (DepartmentHeapExtras.edit_priority_others
                    (default X (App.nonempty (App.req_new_name d))) p
                    (App.priority_heap app)) as Hothers.
      split; intros Hq.
      * assert (Hin : (q, X) ∈ filter
                  (λ pn, pn.2 ≠ default X (App.nonempty (App.req_new_name d)))
                  (DepartmentHeap.get_all (App.priority_heap app))).
        { apply list_elem_of_filter. split; [|done]. simpl. congruence. }
        rewrite <- Hothers in Hin. by apply list_elem_of_filter in Hin as [_ ?].
      * assert (Hin : (q, X) ∈ filter
                  (λ pn, pn.2 ≠ default X (App.nonempty (App.req_new_name d)))
                  (DepartmentHeap.get_all
                     (DepartmentHeap.edit_priority
                        (default X (App.nonempty (App.req_new_name d))) p
                        (App.priority_heap app)))).
        { apply list_elem_of_filter. split; [|done]. simpl. congruence. }
        rewrite Hothers in Hin. by apply list_elem_of_filter in Hin as [_ ?].
  - intros pv e Hpv Hne Hint. unfold App.edit_dept.
    rewrite Hname, Hedit, Hpv. simpl. unfold App.try. rewrite Hint.
    by destruct pv.
Qed.

End routes.

End AppExtras.

(** ** The properties above on example trees *)

Module ExtraExamples.
Import DepartmentHierarchy Tree DictFacts TreeFacts Examples ExampleFacts.
Import AddExtras DeleteExtras ToDictExtras EditExtras InvariantExtras.
Import MetaExtras AppExtras.

(** [add("A"); add("B", parent="A"); add("C", parent="B")] *)
Definition tree_ABC : t := add_default "C" (Some "B") tree_AB.

Lemma tree_ABC_wf : wf tree_ABC.
Proof. apply (bool_decide_unpack _). by vm_compute. Qed.

Lemma tree_AB_reachable : reachable Builtins.int_ Builtins.float_ tree_AB.
Proof.
  unfold tree_AB, add_default. do 2 apply reach_add. apply reach_init.
Qed.

(** The entries of [tree_AB]. *)
Definition meta_AB : list meta :=
  [mk_meta "A" (VStr "") (VInt 0) (VInt 0) (VInt 0);
   mk_meta "B" (VStr "") (VInt 0) (VInt 0) (VInt 0)].

(** The heap after [add(1, "A"); add(2, "B"); add(3, "C")]. *)
Definition heap_ABC : DepartmentHeap.t :=
  DepartmentHeap.add 3 "C" (DepartmentHeap.add 2 "B"
    (DepartmentHeap.add 1 "A" DepartmentHeap.init)).

Definition app_AB : App.t :=
  App.mk tree_AB (DepartmentHeap.add 1 "A" DepartmentHeap.init) None.

Definition app_ABC : App.t := App.mk tree_ABC heap_ABC None.

(** A request that carries a name only. *)
Definition named (name : string) : App.request :=
  App.mk_request (Some name) None None None None None None None.

Lemma add_registers_witness :
  Dict.get "C" (nodes tree_AB) = None
  ∧ (add "C" (Some "A") (VStr "h") (VInt 3) (VInt 0) (VInt 0) tree_AB).1 = true
  ∧ Dict.get "C"
      (nodes (add "C" (Some "A") (VStr "h") (VInt 3) (VInt 0) (VInt 0)
                tree_AB).2)
    = Some 2.
Proof.
  split; [reflexivity|].
  destruct (add_registers "C" (Some "A") (VStr "h") (VInt 3) (VInt 0) (VInt 0)
              tree_AB eq_refl) as (H1 & H2 & _).
  split; [exact H1|exact H2].
Defined.

Lemma add_places_witness :
  wf tree_AB ∧ Dict.get "C" (nodes tree_AB) = None
  ∧ children_of
      (mem (add "C" (Some "A") (VStr "") (VInt 0) (VInt 0) (VInt 0)
              tree_AB).2) 0
    = children_of (mem tree_AB) 0 ++ [2].
Proof.
  split; [apply tree_AB_wf|]. split; [reflexivity|].
  destruct (add_places "C" (Some "A") (VStr "") (VInt 0) (VInt 0) (VInt 0)
              tree_AB tree_AB_wf eq_refl) as [H _].
  destruct (H "A" 0 eq_refl) as (_ & Hc & _); [done|reflexivity|].
  exact Hc.
Defined.

Lemma add_own_parent_witness :
  Dict.get "X" (nodes init) = None ∧ "X" ≠ ""
  ∧ root (add "X" (Some "X") (VStr "") (VInt 0) (VInt 0) (VInt 0) init).2
    = None
  ∧ children_of
      (mem (add "X" (Some "X") (VStr "") (VInt 0) (VInt 0) (VInt 0) init).2) 0
    = [0].
Proof.
  assert (Hne : "X" ≠ "") by done.
  split; [reflexivity|]. split; [exact Hne|].
  destruct (add_own_parent "X" (VStr "") (VInt 0) (VInt 0) (VInt 0) init
              eq_refl Hne) as (_ & Hr & _ & Hc & _).
  split; [exact Hr|exact Hc].
Defined.

Lemma delete_unlinks_witness :
  wf tree_AB ∧ Dict.get "B" (nodes tree_AB) = Some 1
  ∧ ∃ self',
      (∀ fuel, (2 ≤ fuel)%nat → delete fuel "B" tree_AB = Some (true, self'))
      ∧ children_of (mem self') 0
        = filter (λ c, c ≠ 1) (children_of (mem tree_AB) 0).
Proof.
  split; [apply tree_AB_wf|]. split; [reflexivity|].
  destruct (delete_unlinks tree_AB "B" 1 tree_AB_wf eq_refl)
    as (self' & Hdel & _ & _ & Hch & _).
  exists self'. split; [exact Hdel|]. apply Hch. vm_compute. left.
Defined.

Lemma add_then_delete_witness :
  wf tree_AB ∧ Dict.get "C" (nodes tree_AB) = None
  ∧ (∀ r, root tree_AB = Some r →
       r < length (mem tree_AB) ∧ name_of (mem tree_AB) r ≠ "C")
  ∧ ∃ self',
      (∀ fuel, (3 ≤ fuel)%nat →
         delete fuel "C"
           (add "C" (Some "B") (VStr "") (VInt 0) (VInt 0) (VInt 0) tree_AB).2
         = Some (true, self'))
      ∧ root self' = root tree_AB
      ∧ nodes self' = nodes tree_AB.
Proof.
  assert (Hroot : ∀ r, root tree_AB = Some r →
            r < length (mem tree_AB) ∧ name_of (mem tree_AB) r ≠ "C").
  { intros r [= <-]. split; [simpl; lia|by vm_compute]. }
  split; [apply tree_AB_wf|]. split; [reflexivity|]. split; [exact Hroot|].
  destruct (add_then_delete "C" (Some "B") (VStr "") (VInt 0) (VInt 0) (VInt 0)
              tree_AB tree_AB_wf eq_refl Hroot)
    as (self' & Hdel & Hr & Hn & _).
  exists self'. split_and!; [exact Hdel|exact Hr|exact Hn].
Defined.

Lemma edit_attributes_only_witness :
  Dict.get "A" (nodes tree_AB) = Some 0
  ∧ accepts Builtins.int_ (VStr "7") ∧ accepts Builtins.float_ VNone
  ∧ ∃ self' n',
      edit Builtins.int_ Builtins.float_ "A" None (VStr "boss") (VStr "7")
        VNone VNone None tree_AB = (Return true, self')
      ∧ nodes self' = nodes tree_AB
      ∧ mem self' !! 0 = Some n'
      ∧ DepartmentNode.head n' = VStr "boss"
      ∧ DepartmentNode.children n' = [1].
Proof.
  assert (Hint : accepts Builtins.int_ (VStr "7")).
  { right. by exists 7%Z. }
  assert (Hfloat : accepts Builtins.float_ VNone) by (by left).
  split; [reflexivity|]. split; [exact Hint|]. split; [exact Hfloat|].
  destruct (edit_attributes_only Builtins.int_ Builtins.float_ tree_AB "A" 0 _
              (VStr "boss") (VStr "7") VNone VNone eq_refl eq_refl Hint
              Hfloat Hfloat)
    as (self' & n' & Hedit & _ & Hn & _ & _ & Hn' & _ & Hch & Hhead & _).
  exists self', n'. split_and!; [exact Hedit|exact Hn|exact Hn'| |exact Hch].
  by apply Hhead.
Defined.

Lemma edit_missing_parent_detaches_witness :
  wf tree_AB ∧ Dict.get "B" (nodes tree_AB) = Some 1
  ∧ Dict.get "Z" (nodes tree_AB) = None
  ∧ ∃ self',
      edit Builtins.int_ Builtins.float_ "B" None VNone VNone VNone VNone
        (Some "Z") tree_AB = (Return true, self')
      ∧ nodes self' = nodes tree_AB
      ∧ root self' = Some 0
      ∧ 1 ∉ child_refs self'.
Proof.
  split; [apply tree_AB_wf|]. split; [reflexivity|]. split; [reflexivity|].
  destruct (edit_missing_parent_detaches Builtins.int_ Builtins.float_ tree_AB
              "B" 1 "Z" tree_AB_wf eq_refl (or_intror eq_refl))
    as (self' & Hedit & Hn & Hr & _ & Hfree).
  exists self'. split_and!; [exact Hedit|exact Hn|exact Hr|exact Hfree].
Defined.

Lemma tree_AB_below : in_subtree (mem tree_AB) 0 1.
Proof. apply rtc_once. unfold child. vm_compute. left. Qed.

Lemma reparent_root_into_subtree_witness :
  wf tree_AB ∧ root tree_AB = Some 0
  ∧ Dict.get "A" (nodes tree_AB) = Some 0
  ∧ Dict.get "B" (nodes tree_AB) = Some 1
  ∧ in_subtree (mem tree_AB) 0 1
  ∧ ∃ self',
      edit Builtins.int_ Builtins.float_ "A" None VNone VNone VNone VNone
        (Some "B") tree_AB = (Return true, self')
      ∧ ∀ fuel, to_dict fuel self' = None.
Proof.
  assert (Hne : "B" ≠ "") by done.
  split; [apply tree_AB_wf|]. split_and!; [reflexivity..|apply tree_AB_below|].
  exact (reparent_root_into_subtree Builtins.int_ Builtins.float_ tree_AB
           "A" "B" 0 1 tree_AB_wf eq_refl eq_refl eq_refl Hne tree_AB_below).
Defined.

Lemma tree_ABC_below : in_subtree (mem tree_ABC) 1 2.
Proof. apply rtc_once. unfold child. vm_compute. left. Qed.

Lemma tree_ABC_not_above : ¬ in_subtree (mem tree_ABC) 1 0.
Proof.
  intros [?|(y & Hy & Hrest)]%rtc_inv; [done|].
  unfold child in Hy. vm_compute in Hy.
  apply list_elem_of_singleton in Hy as ->.
  apply rtc_inv in Hrest as [?|(z & Hz & _)]; [done|].
  unfold child in Hz. vm_compute in Hz. by apply elem_of_nil in Hz.
Qed.

(** With [B] moved under its own child [C], [to_dict] shows the root [A]
    alone. *)
Lemma reparent_into_subtree_hides_witness :
  wf tree_ABC ∧ root tree_ABC = Some 0
  ∧ Dict.get "B" (nodes tree_ABC) = Some 1
  ∧ Dict.get "C" (nodes tree_ABC) = Some 2
  ∧ in_subtree (mem tree_ABC) 1 2 ∧ ¬ in_subtree (mem tree_ABC) 1 0
  ∧ to_dict 1
      (edit Builtins.int_ Builtins.float_ "B" None VNone VNone VNone VNone
         (Some "C") tree_ABC).2
    = Some (VNode "A" (VStr "") (VInt 0) (VInt 0) (VInt 0) [])
  ∧ ∃ self',
      edit Builtins.int_ Builtins.float_ "B" None VNone VNone VNone VNone
        (Some "C") tree_ABC = (Return true, self')
      ∧ nodes self' = nodes tree_ABC
      ∧ ∀ fuel v, to_dict fuel self' = Some v →
          ("B" ∉ view_names v) ∧ ("C" ∉ view_names v).
Proof.
  assert (Hne : "C" ≠ "") by done.
  assert (Hroot : 0 ∈ Dict.values (nodes tree_ABC)) by (vm_compute; left).
  split; [apply tree_ABC_wf|].
  split_and!; [reflexivity..|apply tree_ABC_below|apply tree_ABC_not_above
              |reflexivity|].
  destruct (reparent_into_subtree_hides Builtins.int_ Builtins.float_ tree_ABC
              "B" "C" 1 2 0 tree_ABC_wf eq_refl Hroot eq_refl eq_refl Hne
              tree_ABC_below tree_ABC_not_above)
    as (self' & Hedit & Hn & Hhide).
  exists self'. split_and!; [exact Hedit|exact Hn|].
  intros fuel v Hv. split.
  - apply (Hhide fuel v Hv 1). constructor.
  - apply (Hhide fuel v Hv 2). apply tree_ABC_below.
Defined.

Lemma reachable_consistent_witness :
  reachable Builtins.int_ Builtins.float_ tree_AB
  ∧ (∀ k a, Dict.get k (nodes tree_AB) = Some a →
       ∃ n, mem tree_AB !! a = Some n ∧ DepartmentNode.name n = k)
  ∧ ∀ r, root tree_AB = Some r → r < length (mem tree_AB).
Proof.
  split; [apply tree_AB_reachable|].
  destruct (reachable_consistent Builtins.int_ Builtins.float_ tree_AB
              tree_AB_reachable) as (H1 & _ & _ & _ & _ & H6).
  split; [exact H1|exact H6].
Defined.

Lemma get_flat_meta_lists_keys_witness :
  reachable Builtins.int_ Builtins.float_ tree_AB
  ∧ ∃ l, get_flat_meta tree_AB = Some l
         ∧ meta_name <$> l = ["A"; "B"]
         ∧ NoDup (meta_name <$> l).
Proof.
  split; [apply tree_AB_reachable|].
  exact (get_flat_meta_lists_keys Builtins.int_ Builtins.float_ tree_AB
           tree_AB_reachable).
Defined.

Lemma get_flat_meta_add_witness :
  Dict.get "C" (nodes tree_AB) = None ∧ get_flat_meta tree_AB = Some meta_AB
  ∧ get_flat_meta
      (add "C" None (VStr "h") (VInt 1) (VInt 2) (VInt 3) tree_AB).2
    = Some (meta_AB ++ [mk_meta "C" (VStr "h") (VInt 1) (VInt 2) (VInt 3)]).
Proof.
  split; [reflexivity|]. split; [reflexivity|].
  exact (get_flat_meta_add "C" None (VStr "h") (VInt 1) (VInt 2) (VInt 3)
           tree_AB meta_AB eq_refl eq_refl).
Defined.

Lemma get_flat_meta_delete_witness :
  wf tree_AB ∧ Dict.get "B" (nodes tree_AB) = Some 1
  ∧ get_flat_meta tree_AB = Some meta_AB
  ∧ ∃ self' (q : list addr),
      (∀ fuel, (2 ≤ fuel)%nat → delete fuel "B" tree_AB = Some (true, self'))
      ∧ (∀ b, b ∈ q ↔ in_subtree (mem tree_AB) 1 b)
      ∧ get_flat_meta self'
        = Some (filter (λ e, meta_name e ∉ name_of (mem tree_AB) <$> q)
                  meta_AB).
Proof.
  split; [apply tree_AB_wf|]. split; [reflexivity|]. split; [reflexivity|].
  exact (get_flat_meta_delete tree_AB "B" 1 meta_AB tree_AB_wf eq_refl
           eq_refl).
Defined.

Lemma get_flat_meta_rename_witness :
  wf tree_AB ∧ Dict.get "A" (nodes tree_AB) = Some 0
  ∧ Dict.get "C" (nodes tree_AB) = None
  ∧ get_flat_meta tree_AB = Some meta_AB
  ∧ ∃ self' e,
      edit Builtins.int_ Builtins.float_ "A" (Some "C") VNone VNone VNone
        VNone None tree_AB = (Return true, self')
      ∧ e ∈ meta_AB ∧ meta_name e = "A"
      ∧ get_flat_meta self'
        = Some (filter (λ e', meta_name e' ≠ "A") meta_AB
                ++ [mk_meta "C" (meta_head e) (meta_employees e)
                      (meta_budget e) (meta_perf e)]).
Proof.
  assert (Hne : "C" ≠ "") by done.
  split; [apply tree_AB_wf|]. split_and!; [reflexivity..|].
  exact (get_flat_meta_rename Builtins.int_ Builtins.float_ tree_AB "A" "C" 0
           meta_AB tree_AB_wf eq_refl eq_refl Hne eq_refl).
Defined.

Lemma save_then_load_witness :
  reachable Builtins.int_ Builtins.float_ (App.hierarchy app_AB)
  ∧ ∃ app',
      App.save_data 2 app_AB = Some app'
      ∧ ∃ d,
          App.data_file app' = Some d
          ∧ to_dict 2 (App.hierarchy (App.load_data d)) = to_dict 2 tree_AB
          ∧ DepartmentHeap.get_all (App.priority_heap (App.load_data d))
            = DepartmentHeap.get_all (App.priority_heap app_AB).
Proof.
  split; [apply tree_AB_reachable|].
  eexists. split; [reflexivity|].
  destruct (save_then_load Builtins.int_ Builtins.float_ 2 app_AB _
              tree_AB_reachable eq_refl) as (d & Hd & _ & _ & H1 & H2).
  exists d. split_and!; [exact Hd|exact H1|exact H2].
Defined.

Lemma add_dept_unchanged_unless_added_witness :
  App.add_dept Builtins.int_ Builtins.float_ 2 (named "A") app_AB
  = Some (Return (App.Json 400 "error" "Department exists"), app_AB)
  ∧ Return (App.Json 400 "error" "Department exists")
    ≠ Return (App.Json 200 "message" "Added")
  ∧ app_AB = app_AB.
Proof.
  assert (Hne : Return (App.Json 400 "error" "Department exists")
                ≠ Return (App.Json 200 "message" "Added")) by done.
  split; [reflexivity|]. split; [exact Hne|].
  exact (add_dept_unchanged_unless_added Builtins.int_ Builtins.float_ 2
           (named "A") app_AB _ app_AB eq_refl Hne).
Defined.

Lemma delete_dept_keeps_descendants_in_heap_witness :
  wf (App.hierarchy app_ABC) ∧ App.req_name (named "B") = Some "B"
  ∧ Dict.get "B" (nodes (App.hierarchy app_ABC)) = Some 1
  ∧ (3%Z, "C") ∈ DepartmentHeap.get_all (App.priority_heap app_ABC)
  ∧ ∃ h',
      (∀ fuel, (3 ≤ fuel)%nat → delete fuel "B" tree_ABC = Some (true, h'))
      ∧ Dict.get "C" (nodes h') = None
      ∧ (3%Z, "C")
          ∈ DepartmentHeap.get_all
              (DepartmentHeap.remove "B" (App.priority_heap app_ABC)).
Proof.
  assert (Hne : "B" ≠ "") by done.
  assert (Hin : (3%Z, "C")
                  ∈ DepartmentHeap.get_all (App.priority_heap app_ABC)).
  { vm_compute. do 2 right. left. }
  split; [apply tree_ABC_wf|]. split_and!; [reflexivity|reflexivity|exact Hin|].
  destruct (delete_dept_keeps_descendants_in_heap (named "B") app_ABC "B" 1
              tree_ABC_wf eq_refl Hne eq_refl) as (h' & Hdel & _ & Hdesc).
  destruct (Hdesc 2 tree_ABC_below) as [Hgone Hheap].
  exists h'. split_and!; [exact Hdel|exact Hgone|].
  apply (Hheap 3%Z); [done|exact Hin].
Defined.

Lemma edit_dept_heap_witness :
  App.nonempty (Some "A") = Some "A"
  ∧ (1%Z, "A") ∈ DepartmentHeap.get_all (App.priority_heap app_AB)
  ∧ filter (λ pn, pn.2 = "C")
      (DepartmentHeap.get_all
         (DepartmentHeap.edit_priority "C" 5 (App.priority_heap app_AB)))
    = [(5%Z, "C")]
  ∧ (1%Z, "A")
      ∈ DepartmentHeap.get_all
          (DepartmentHeap.edit_priority "C" 5 (App.priority_heap app_AB)).
Proof.
  assert (Hin : (1%Z, "A")
                  ∈ DepartmentHeap.get_all (App.priority_heap app_AB)).
  { vm_compute. left. }
  split; [reflexivity|]. split; [exact Hin|].
  destruct (edit_dept_heap Builtins.int_ Builtins.float_ 2
              (App.mk_request (Some "A") (Some "C") None None None None None
                 (Some (VInt 5)))
              app_AB "A"
              (edit Builtins.int_ Builtins.float_ "A" (Some "C") VNone VNone
                 VNone VNone None tree_AB).2 eq_refl eq_refl)
    as (_ & Hprio & _).
  destruct (Hprio (VInt 5) 5%Z eq_refl) as (_ & Hone & Hold); [done|done|].
  split; [exact Hone|]. apply Hold; [done|exact Hin].
Defined.

Lemma stats_in_step_witness :
  reachable Builtins.int_ Builtins.float_ (App.hierarchy app_AB)
  ∧ ∃ names employees budgets perf,
      App.stats app_AB = Some (names, employees, budgets, perf)
      ∧ names = ["A"; "B"]
      ∧ ∀ i k, names !! i = Some k →
          ∃ a n,
            Dict.get k (nodes (App.hierarchy app_AB)) = Some a
            ∧ mem (App.hierarchy app_AB) !! a = Some n
            ∧ employees !! i = Some (DepartmentNode.employees n)
            ∧ budgets !! i = Some (DepartmentNode.budget n)
            ∧ perf !! i = Some (DepartmentNode.perf n).
Proof.
  split; [apply tree_AB_reachable|].
  exact (stats_in_step Builtins.int_ Builtins.float_ app_AB
           tree_AB_reachable).
Defined.

End ExtraExamples.
